(** * Shamir secret sharing over GF(256) and the secure key store

    A shallow embedding of [src/services/improved-crypto.js] (the service
    module) and of [src/test.js] (the stand-alone re-implementation that
    computes every field operation directly), followed by the properties
    of the specification settled against them and by further properties
    read off the code.

    Conventions.
    - A JavaScript number is a [JS.jsval]; the bitwise operators go through
      [JS.ToInt32] exactly as the language does, so [NaN] and [undefined]
      behave as 0 under [&], [^], [<<] and [>>].
    - A JavaScript string is a [string] whose characters are UTF-16 code
      units in the range 0..255.
    - A [Uint8Array] is a [list Z]; every store goes through [JS.ToUint8].
    - A call either returns, throws, or exhausts the fuel given to a
      [while] loop: [JS.completion]. *)

From Stdlib Require Import ZArith List String Ascii Bool Lia Ring Field.
From stdpp Require Import gmap strings.
Import ListNotations.

Local Open Scope string_scope.
Local Open Scope Z_scope.

(** ** The fragment of JavaScript the sources use *)

Module JS.

(** Values that reach the arithmetic: numbers (integral here), [NaN]
    (what [parseInt] gives on a string without digits) and [undefined]
    (what an out-of-range array read gives). *)
Inductive jsval : Type :=
| Num (n : Z)
| NaN
| Undefined.

(** Errors, one constructor per [throw] site of the two sources; the
    original message is quoted next to each. *)
Inductive Error : Type :=
| DivisionByZero               (* gf256.div / GF256.div: division by 0 *)
| NoInverseOfZero              (* GF256.inverse(0) *)
| NotInvertible                (* GF256.inverse: r > 1 after the loop *)
| PolyDivisionByZero           (* GF256.polyDiv(_, 0) *)
| PointsRequired               (* test.js lagrangeInterpolation([]) *)
| DuplicateX (xi xj : jsval)   (* test.js: duplicated x coordinate *)
| ThresholdTooSmall            (* createShares: threshold < 2 *)
| TotalSharesBelowThreshold    (* createShares: totalShares < threshold *)
| InvalidShareFormat           (* combineShares: no "80" prefix *)
| NoValidShares                (* test.js combineShares: nothing decoded *)
| ShareLengthMismatch          (* test.js combineShares: y lengths differ *)
| TypeError                    (* raised by the runtime *)
| RangeError                   (* raised by the runtime *)
| QuotaExceededError           (* crypto.getRandomValues: over 65536 bytes *)
| DecodeFailed (cause : Error) (hex : string) (* test.js: decode error *)
| CreateSharesFailed (cause : Error)   (* catch block of createShares *)
| CombineSharesFailed (cause : Error)  (* catch block of combineShares *)
| KeyStoreFailed               (* catch block of storeEncryptionKeySecurely *)
| StorageReadFailed.           (* catch block of getFromSecureStorage *)

Inductive completion (A : Type) : Type :=
| Return (a : A)
| Throw (e : Error)
| OutOfFuel.
Arguments Return {A} a.
Arguments Throw {A} e.
Arguments OutOfFuel {A}.

Definition bind {A B} (c : completion A) (k : A -> completion B) : completion B :=
  match c with
  | Return a => k a
  | Throw e => Throw e
  | OutOfFuel => OutOfFuel
  end.

(** [try { c } catch (error) { throw wrap(error) }] *)
Definition rethrow {A} (wrap : Error -> Error) (c : completion A) : completion A :=
  match c with
  | Return a => Return a
  | Throw e => Throw (wrap e)
  | OutOfFuel => OutOfFuel
  end.

(** [Array.prototype.map] with a callback that may throw: the first
    throw, in index order, aborts the map. *)
Fixpoint mapM {A B} (f : A -> completion B) (l : list A) : completion (list B) :=
  match l with
  | [] => Return []
  | a :: l' => bind (f a) (fun b => bind (mapM f l') (fun bs => Return (b :: bs)))
  end.

(** *** Numbers *)

(** The signed 32-bit integer congruent to [z] modulo 2^32. *)
Definition wrap32 (z : Z) : Z :=
  let m := z mod 4294967296 in
  if 2147483648 <=? m then m - 4294967296 else m.

Definition ToInt32 (v : jsval) : Z :=
  match v with
  | Num n => wrap32 n
  | NaN | Undefined => 0
  end.

Definition ToUint8 (v : jsval) : Z :=
  match v with
  | Num n => n mod 256
  | NaN | Undefined => 0
  end.

Definition ToBoolean (v : jsval) : bool :=
  match v with
  | Num n => negb (n =? 0)
  | NaN | Undefined => false
  end.

(** [a === b] *)
Definition strict_eq (a b : jsval) : bool :=
  match a, b with
  | Num x, Num y => x =? y
  | Undefined, Undefined => true
  | _, _ => false
  end.

Definition band (a b : jsval) : jsval := Num (Z.land (ToInt32 a) (ToInt32 b)).
Definition bor (a b : jsval) : jsval := Num (Z.lor (ToInt32 a) (ToInt32 b)).
Definition bxor (a b : jsval) : jsval := Num (Z.lxor (ToInt32 a) (ToInt32 b)).
(** The shift count is the right operand modulo 32. *)
Definition shl (a n : jsval) : jsval :=
  Num (wrap32 (Z.shiftl (ToInt32 a) (ToInt32 n mod 32))).
Definition sar (a n : jsval) : jsval :=
  Num (Z.shiftr (ToInt32 a) (ToInt32 n mod 32)).

Definition add (a b : jsval) : jsval :=
  match a, b with
  | Num x, Num y => Num (x + y)
  | _, _ => NaN
  end.
Definition sub (a b : jsval) : jsval :=
  match a, b with
  | Num x, Num y => Num (x - y)
  | _, _ => NaN
  end.
(** [a < b] and [a > b]; comparisons with [NaN] are false. *)
Definition lt (a b : jsval) : bool :=
  match a, b with
  | Num x, Num y => x <? y
  | _, _ => false
  end.
Definition gt (a b : jsval) : bool := lt b a.

(** [table[i]] on an array of numbers; [undefined] outside it. *)
Definition index (table : list Z) (i : jsval) : jsval :=
  match i with
  | Num n =>
      if n <? 0 then Undefined
      else match nth_error table (Z.to_nat n) with
           | Some v => Num v
           | None => Undefined
           end
  | NaN | Undefined => Undefined
  end.

Fixpoint foldM {A B} (f : A -> B -> completion A) (l : list B) (a : A) : completion A :=
  match l with
  | [] => Return a
  | b :: l' => bind (f a b) (foldM f l')
  end.

(** The elements of an array paired with their indices, as a counting
    [for (let i = 0; i < l.length; i++)] visits them. *)
Definition indexed {A} (l : list A) : list (nat * A) := combine (seq 0 (length l)) l.

(** *** Strings *)

Definition charCode (c : ascii) : Z := Z.of_nat (nat_of_ascii c).

(** [s.substring(from)] and [s.substring(from, to)] for [from <= to]. *)
Definition substring_from (from : nat) (s : string) : string :=
  substring from (String.length s - from) s.
Definition substring_range (from to : nat) (s : string) : string :=
  substring from (to - from) s.

(** [s.padStart(2, '0')] *)
Definition padStart2 (s : string) : string :=
  match String.length s with
  | O => "00"
  | S O => String "0" s
  | _ => s
  end.

Definition hexDigits : list ascii :=
  ["0"; "1"; "2"; "3"; "4"; "5"; "6"; "7"; "8"; "9"; "a"; "b"; "c"; "d"; "e"; "f"]%char.

Fixpoint hex_of_nonneg (fuel : nat) (n : Z) (acc : string) : string :=
  let acc := String (nth (Z.to_nat (n mod 16)) hexDigits "0"%char) acc in
  match fuel with
  | O => acc
  | S fuel' => if n / 16 =? 0 then acc else hex_of_nonneg fuel' (n / 16) acc
  end.

(** [n.toString(16)] for an integer [n]. *)
Definition toString16 (n : Z) : string :=
  let digits m := hex_of_nonneg (Z.to_nat (Z.log2 m)) m "" in
  if n <? 0 then String "-" (digits (- n)) else digits n.

Definition hexDigitValue (c : ascii) : option Z :=
  let n := charCode c in
  if (48 <=? n) && (n <=? 57) then Some (n - 48)
  else if (97 <=? n) && (n <=? 102) then Some (n - 87)
  else if (65 <=? n) && (n <=? 70) then Some (n - 55)
  else None.

(** White space and line terminators among the code units 0..255. *)
Definition isLineTerminator (c : ascii) : bool :=
  let n := charCode c in (n =? 10) || (n =? 13).
Definition isWhiteSpace (c : ascii) : bool :=
  let n := charCode c in
  (n =? 9) || (n =? 11) || (n =? 12) || (n =? 32) || (n =? 160) || isLineTerminator c.

Fixpoint trimStart (s : string) : string :=
  match s with
  | String c s' => if isWhiteSpace c then trimStart s' else s
  | EmptyString => s
  end.

(** The value of the longest prefix of hexadecimal digits, [None] when
    that prefix is empty. *)
Fixpoint hexPrefix (s : string) (acc : option Z) : option Z :=
  match s with
  | String c s' =>
      match hexDigitValue c with
      | Some d => hexPrefix s' (Some (16 * default 0 acc + d))
      | None => acc
      end
  | EmptyString => acc
  end.

(** [parseInt(s, 16)]: leading white space, a sign and a [0x] prefix
    are consumed, then the longest run of digits is read. *)
Definition parseInt16 (s : string) : jsval :=
  let s := trimStart s in
  let '(sign, s) :=
    match s with
    | String "-" s' => (-1, s')
    | String "+" s' => (1, s')
    | _ => (1, s)
    end in
  let s :=
    match s with
    | String "0" (String "x" s') | String "0" (String "X" s') => s'
    | _ => s
    end in
  match hexPrefix s None with
  | Some n => Num (sign * n)
  | None => NaN
  end.

(** [s.match(/.{1,2}/g)]: the successive runs of one or two characters
    other than line terminators; [null] ([None]) when there is none. *)
Fixpoint dot12_chunks (s : string) : list string :=
  match s with
  | EmptyString => []
  | String c s' =>
      if isLineTerminator c then dot12_chunks s'
      else match s' with
           | EmptyString => [String c ""]
           | String d s'' =>
               if isLineTerminator d then String c "" :: dot12_chunks s''
               else String c (String d "") :: dot12_chunks s''
           end
  end.
Definition match_dot12 (s : string) : option (list string) :=
  match dot12_chunks s with
  | [] => None
  | chunks => Some chunks
  end.

End JS.

Import JS.

Notation "'do' x <- c ;; k" := (JS.bind c (fun x => k))
  (at level 20, x name, c at level 99, k at level 200, only parsing).

(** ** [src/services/improved-crypto.js]: field arithmetic *)

Module gf256.

(** One turn of the loop body of [mul]; the state is [(p, a, b)]. *)
Definition mul_body (st : jsval * jsval * jsval) : jsval * jsval * jsval :=
  let '(p, a, b) := st in
  let p := if negb (strict_eq (band b (Num 1)) (Num 0)) then bxor p a else p in
  let highBit := band a (Num 0x80) in
  let a := band (shl a (Num 1)) (Num 0xff) in
  let a := if negb (strict_eq highBit (Num 0)) then bxor a (Num 0x1b) else a in
  let b := sar b (Num 1) in
  (p, a, b).

Definition mul (a b : jsval) : jsval :=
  let '(p, _, _) := Nat.iter 8 mul_body (Num 0, a, b) in p.

Definition inverseTable : list Z :=
  [ 0x00; 0x01; 0x8d; 0xf6; 0xcb; 0x52; 0x7b; 0xd1; 0xe8; 0x4f; 0x29; 0xc0; 0xb0; 0xe1; 0xe5; 0xc7;
    0x74; 0xb4; 0xaa; 0x4b; 0x99; 0x2b; 0x60; 0x5f; 0x58; 0x3f; 0xfd; 0xcc; 0xff; 0x40; 0xee; 0xb2;
    0x3a; 0x6e; 0x5a; 0xf1; 0x55; 0x4d; 0xa8; 0xc9; 0xc1; 0x0a; 0x98; 0x15; 0x30; 0x44; 0xa2; 0xc2;
    0x2c; 0x45; 0x92; 0x6c; 0xf3; 0x39; 0x66; 0x42; 0xf2; 0x35; 0x20; 0x6f; 0x77; 0xbb; 0x59; 0x19;
    0x1d; 0xfe; 0x37; 0x67; 0x2d; 0x31; 0xf5; 0x69; 0xa7; 0x64; 0xab; 0x13; 0x54; 0x25; 0xe9; 0x09;
    0xed; 0x5c; 0x05; 0xca; 0x4c; 0x24; 0x87; 0xbf; 0x18; 0x3e; 0x22; 0xf0; 0x51; 0xec; 0x61; 0x17;
    0x16; 0x5e; 0xaf; 0xd3; 0x49; 0xa6; 0x36; 0x43; 0xf4; 0x47; 0x91; 0xdf; 0x33; 0x93; 0x21; 0x3b;
    0x79; 0xb7; 0x97; 0x85; 0x10; 0xb5; 0xba; 0x3c; 0xb6; 0x70; 0xd0; 0x06; 0xa1; 0xfa; 0x81; 0x82;
    0x83; 0x7e; 0x7f; 0x80; 0x96; 0x73; 0xbe; 0x56; 0x9b; 0x9e; 0x95; 0xd9; 0xf7; 0x02; 0xb9; 0xa4;
    0xde; 0x6a; 0x32; 0x6d; 0xd8; 0x8a; 0x84; 0x72; 0x2a; 0x14; 0x9f; 0x88; 0xf9; 0xdc; 0x89; 0x9a;
    0xfb; 0x7c; 0x2e; 0xc3; 0x8f; 0xb8; 0x65; 0x48; 0x26; 0xc8; 0x12; 0x4a; 0xce; 0xe7; 0xd2; 0x62;
    0x0c; 0xe0; 0x1f; 0xef; 0x11; 0x75; 0x78; 0x71; 0xa5; 0x8e; 0x76; 0x3d; 0xbd; 0xbc; 0x86; 0x57;
    0x0b; 0x28; 0x2f; 0xa3; 0xda; 0xd4; 0xe4; 0x0f; 0xa9; 0x27; 0x53; 0x04; 0x1b; 0xfc; 0xac; 0xe6;
    0x7a; 0x07; 0xae; 0x63; 0xc5; 0xdb; 0xe2; 0xea; 0x94; 0x8b; 0xc4; 0xd5; 0x9d; 0xf8; 0x90; 0x6b;
    0xb1; 0x0d; 0xd6; 0xeb; 0xc6; 0x0e; 0xcf; 0xad; 0x08; 0x4e; 0xd7; 0xe3; 0x5d; 0x50; 0x1e; 0xb3;
    0x5b; 0x23; 0x38; 0x34; 0x68; 0x46; 0x03; 0x8c; 0xdd; 0x9c; 0x7d; 0xa0; 0xcd; 0x1a; 0x41; 0x1c ].

Definition div (a b : jsval) : completion jsval :=
  if strict_eq b (Num 0) then Throw DivisionByZero
  else if strict_eq a (Num 0) then Return (Num 0)
  else Return (mul a (index inverseTable b)).

End gf256.

(** ** [src/test.js]: field arithmetic computed directly *)

Module GF256.

Definition add (a b : jsval) : jsval := bxor a b.
Definition sub (a b : jsval) : jsval := bxor a b.

Definition mul_body (st : jsval * jsval * jsval) : jsval * jsval * jsval :=
  let '(result, temp_a, b) := st in
  let result := if ToBoolean (band b (Num 1)) then bxor result temp_a else result in
  let highBit := band temp_a (Num 0x80) in
  let temp_a := band (shl temp_a (Num 1)) (Num 0xff) in
  let temp_a := if ToBoolean highBit then bxor temp_a (Num 0x1b) else temp_a in
  let b := sar b (Num 1) in
  (result, temp_a, b).

Definition mul (a b : jsval) : jsval :=
  let a := band a (Num 0xff) in
  let b := band b (Num 0xff) in
  if strict_eq a (Num 0) || strict_eq b (Num 0) then Num 0
  else let '(result, _, _) := Nat.iter 8 mul_body (Num 0, a, b) in result.

(** [degree]: the highest set bit among bits 0..31, or -1. *)
Definition degree (a : jsval) : jsval :=
  fold_left
    (fun degree i =>
       if ToBoolean (band a (shl (Num 1) (Num i))) then Num i else degree)
    (map Z.of_nat (seq 0 32)) (Num (-1)).

(** The indices [hi, hi-1, ..., 0] of a counting-down [for], none when
    [hi] is negative. *)
Definition downto (hi : jsval) : list Z :=
  match hi with
  | Num n => rev (map Z.of_nat (seq 0 (Z.to_nat (n + 1))))
  | NaN | Undefined => []
  end.

Definition polyDiv (a b : jsval) : completion jsval :=
  if strict_eq b (Num 0) then Throw PolyDivisionByZero
  else
    let degree_diff := JS.sub (degree a) (degree b) in
    if lt degree_diff (Num 0) then Return (Num 0)
    else
      let '(result, _) :=
        fold_left
          (fun '(result, a) i =>
             if ToBoolean (band a (shl (Num 1) (JS.add (Num i) (degree b))))
             then (bor result (shl (Num 1) (Num i)), bxor a (shl b (Num i)))
             else (result, a))
          (downto degree_diff) (Num 0, a) in
      Return result.

(** [polyMul]: a [while (a > 0)] loop. *)
Fixpoint polyMul_loop (fuel : nat) (result a b : jsval) : completion jsval :=
  if gt a (Num 0) then
    match fuel with
    | O => OutOfFuel
    | S fuel' =>
        let result := if ToBoolean (band a (Num 1)) then bxor result b else result in
        polyMul_loop fuel' result (sar a (Num 1)) (shl b (Num 1))
    end
  else Return result.

Definition polyMul (fuel : nat) (a b : jsval) : completion jsval :=
  polyMul_loop fuel (Num 0) a b.

(** [inverse]: the extended Euclidean algorithm, a [while (newr !== 0)]
    loop over [(t, newt, r, newr)]. *)
Fixpoint inverse_loop (fuel : nat) (t newt r newr : jsval) : completion jsval :=
  if negb (strict_eq newr (Num 0)) then
    match fuel with
    | O => OutOfFuel
    | S fuel' =>
        do quotient <- polyDiv r newr ;;
        do qt <- polyMul fuel quotient newt ;;
        do qr <- polyMul fuel quotient newr ;;
        inverse_loop fuel' newt (bxor t qt) newr (bxor r qr)
    end
  else if gt r (Num 1) then Throw NotInvertible
  else Return t.

Definition inverse (fuel : nat) (a : jsval) : completion jsval :=
  if strict_eq a (Num 0) then Throw NoInverseOfZero
  else inverse_loop fuel (Num 0) (Num 1) (Num 0x11b) a.

Definition div (fuel : nat) (a b : jsval) : completion jsval :=
  let a := band a (Num 0xff) in
  let b := band b (Num 0xff) in
  if strict_eq b (Num 0) then Throw DivisionByZero
  else if strict_eq a (Num 0) then Return (Num 0)
  else
    do b_inv <- inverse fuel b ;;
    Return (mul a b_inv).

End GF256.

(** ** [src/services/improved-crypto.js]: secret sharing *)

Module improved_crypto.

(** A share as [createShares] returns it, [{id, value, encoding}], or a
    bare serialized string, which [combineShares] also accepts
    ([share.value || share]). *)
Inductive Share : Type :=
| ShareObject (id : string) (value : string) (encoding : option string)
| ShareString (value : string).

(** [evaluatePolynomial]: the loop starts from [coeffs[0]] and folds the
    remaining coefficients in, in index order. *)
Definition evaluatePolynomial (coeffs : list Z) (x : jsval) : jsval :=
  fold_left
    (fun result i => bxor (gf256.mul result x) (index coeffs (Num (Z.of_nat i))))
    (seq 1 (length coeffs - 1))
    (index coeffs (Num 0)).

(** [lagrangeInterpolation]: a point is the pair [[x, y]]. *)
Definition lagrangeInterpolation (points : list (jsval * jsval)) : completion jsval :=
  foldM
    (fun result '(i, (xi, yi)) =>
       if strict_eq yi (Num 0) then Return result
       else
         let '(numerator, denominator) :=
           fold_left
             (fun '(numerator, denominator) '(j, (xj, _)) =>
                if (i =? j)%nat then (numerator, denominator)
                else (gf256.mul numerator xj, gf256.mul denominator (bxor xj xi)))
             (indexed points) (Num 1, Num 1) in
         do quotient <- gf256.div numerator denominator ;;
         let term := gf256.mul yi quotient in
         Return (bxor result term))
    (indexed points) (Num 0).

Definition bytesToHex (bytes : list Z) : string :=
  String.concat "" (map (fun b => padStart2 (toString16 b)) bytes).

(** [hexToBytes]: the empty array for an empty or odd-length string;
    [hex.match(...)] is [null] when the string holds line terminators
    only, and [null.map] raises a [TypeError]. *)
Definition hexToBytes (hex : string) : completion (list Z) :=
  if (String.length hex =? 0)%nat || negb (String.length hex mod 2 =? 0)%nat
  then Return []
  else match match_dot12 hex with
       | Some chunks => Return (map (fun byte => ToUint8 (parseInt16 byte)) chunks)
       | None => Throw TypeError
       end.

(** A share under construction, [{x, y: [...]}]. *)
Record RawShare : Type := { raw_x : Z; raw_y : list jsval }.

(** The decoded form [{x, y}] inside [combineShares]. *)
Record DecodedShare : Type := { x : jsval; y : list Z }.

Section Platform.

(** The collaborators outside the repository. *)
Variable TextEncoder_encode : string -> list Z.
(** [new TextDecoder(label).decode(bytes)] *)
Variable TextDecoder_decode : string -> list Z -> completion string.
(** [random call i]: byte [i] written by the [call]-th
    [crypto.getRandomValues]. *)
Variable random : nat -> nat -> Z.
(** The identifier returned by the [n]-th call of [uuidv4()]. *)
Variable uuidv4 : nat -> string.

(** [crypto.getRandomValues(view)] on a byte view of length [len];
    the platform refuses more than 65536 bytes per call. *)
Definition getRandomValues (call len : nat) : completion (list Z) :=
  if 65536 <? Z.of_nat len then Throw QuotaExceededError
  else Return (map (fun i => ToUint8 (Num (random call i))) (seq 0 len)).

(** [shares[x - 1] === undefined ? shares[x - 1] = {x, y: [y]}
                                 : shares[x - 1].y.push(y)];
    since [x] counts up from 1 over an array that is empty or full, an
    undefined slot is always the one just past the end of the array
    (see [record_first_pass] and [record_all_length]). *)
Definition record_y (shares : list RawShare) (x : Z) (y : jsval) : list RawShare :=
  match nth_error shares (Z.to_nat (x - 1)) with
  | None => shares ++ [{| raw_x := x; raw_y := [y] |}]
  | Some share =>
      <[Z.to_nat (x - 1) := {| raw_x := raw_x share; raw_y := raw_y share ++ [y] |}]> shares
  end.

Definition createShares (secret : string) (totalShares threshold : Z)
  : completion (list Share) :=
  rethrow CreateSharesFailed
    (if threshold <? 2 then Throw ThresholdTooSmall
     else if totalShares <? threshold then Throw TotalSharesBelowThreshold
     else
       let secretBytes := TextEncoder_encode secret in
       let encoding := "utf-8" in
       do shares <-
         foldM
           (fun shares '(byteIndex, secretByte) =>
              do randoms <- getRandomValues byteIndex (Z.to_nat threshold - 1) ;;
              let coeffs := ToUint8 (Num secretByte) :: randoms in
              Return
                (fold_left
                   (fun shares x => record_y shares x (evaluatePolynomial coeffs (Num x)))
                   (map Z.of_nat (seq 1 (Z.to_nat totalShares)))
                   shares))
           (indexed secretBytes) [] ;;
       Return
         (map
            (fun '(n, share) =>
               let yHex := bytesToHex (map ToUint8 (raw_y share)) in
               ShareObject ("share-" ++ uuidv4 n)
                 ("80" ++ padStart2 (toString16 (raw_x share)) ++ yHex)
                 (Some encoding))
            (indexed shares))).

(** [share.value || share]: the empty string is falsy, so an object
    without a usable [value] stands for itself. *)
Inductive ShareValue : Type :=
| Serialized (s : string)
| NotAString.

Definition shareValueOf (share : Share) : ShareValue :=
  match share with
  | ShareObject _ value _ =>
      if (String.length value =? 0)%nat then NotAString else Serialized value
  | ShareString s => Serialized s
  end.

(** [share.encoding || 'utf-8'] *)
Definition encodingOf (share : Share) : string :=
  match share with
  | ShareObject _ _ (Some encoding) =>
      if (String.length encoding =? 0)%nat then "utf-8" else encoding
  | _ => "utf-8"
  end.

(** The callback of [shareValues.map(...)]. *)
Definition decodeShare (shareValue : ShareValue) : completion DecodedShare :=
  match shareValue with
  | NotAString => Throw TypeError
  | Serialized shareValue =>
      if negb (String.prefix "80" shareValue) then Throw InvalidShareFormat
      else
        let x := parseInt16 (substring_range 2 4 shareValue) in
        let yHex := substring_from 4 shareValue in
        do yBytes <- hexToBytes yHex ;;
        Return {| x := x; y := yBytes |}
  end.

(** Everything [combineShares] does before it decodes the text: the
    encoding tag and the reconstructed [Uint8Array]. *)
Definition reconstruct (shares : list Share) : completion (string * list Z) :=
  let shareValues := map shareValueOf shares in
  match shares with
  | [] => Throw TypeError
  | first :: _ =>
      let encoding := encodingOf first in
      do decodedShares <- mapM decodeShare shareValues ;;
      let secretLength := length (y (hd {| x := Undefined; y := [] |} decodedShares)) in
      do result <-
        mapM
          (fun byteIndex =>
             let points :=
               map (fun share => (x share, index (y share) (Num (Z.of_nat byteIndex))))
                 decodedShares in
             do f0 <- lagrangeInterpolation points ;;
             Return (ToUint8 f0))
          (seq 0 secretLength) ;;
      Return (encoding, result)
  end.

Definition combineShares (shares : list Share) : completion string :=
  rethrow CombineSharesFailed
    (do r <- reconstruct shares ;;
     TextDecoder_decode (fst r) (snd r)).

End Platform.

End improved_crypto.

(** ** [src/test.js]: the stand-alone secret sharing *)

Module test_js.

Import improved_crypto.

Definition evaluatePolynomial (coeffs : list Z) (x : jsval) : jsval :=
  if strict_eq x (Num 0) then index coeffs (Num 0)
  else
    fold_left
      (fun result i =>
         GF256.add (GF256.mul result x) (index coeffs (Num (Z.of_nat i))))
      (seq 1 (length coeffs - 1))
      (index coeffs (Num 0)).

(** [lagrangeInterpolation] with its explicit checks; [fuel] bounds the
    loops of [GF256.inverse]. *)
Definition lagrangeInterpolation (fuel : nat) (points : list (jsval * jsval))
  : completion jsval :=
  if (length points =? 0)%nat then Throw PointsRequired
  else
    foldM
      (fun result '(i, (xi, yi)) =>
         do basis <-
           foldM
             (fun basis '(j, (xj, _)) =>
                if (i =? j)%nat then Return basis
                else
                  let num := xj in
                  let denom := GF256.sub xi xj in
                  if strict_eq denom (Num 0) then Throw (DuplicateX xi xj)
                  else
                    do term <- GF256.div fuel num denom ;;
                    Return (GF256.mul basis term))
             (indexed points) (Num 1) ;;
         let term := GF256.mul yi basis in
         Return (GF256.add result term))
      (indexed points) (Num 0).

(** [hexToBytes]: as in the service, but the conversion sits in a
    [try] whose handler returns the empty array. *)
Definition hexToBytes (hex : string) : list Z :=
  if (String.length hex =? 0)%nat || negb (String.length hex mod 2 =? 0)%nat
  then []
  else match match_dot12 hex with
       | Some chunks => map (fun byte => ToUint8 (parseInt16 byte)) chunks
       | None => []
       end.

Section Platform.

Variable TextDecoder_decode : string -> list Z -> completion string.

Definition decodeShare (shareValue : ShareValue) : completion DecodedShare :=
  match shareValue with
  | NotAString => Throw TypeError
  | Serialized shareValue =>
      if negb (String.prefix "80" shareValue) then Throw InvalidShareFormat
      else
        let x := parseInt16 (substring_range 2 4 shareValue) in
        let yHex := substring_from 4 shareValue in
        let yBytes := hexToBytes yHex in
        Return {| x := x; y := yBytes |}
  end.

Definition combineShares (fuel : nat) (shares : list Share) : completion string :=
  rethrow CombineSharesFailed
    (let shareValues := map shareValueOf shares in
     match shares with
     | [] => Throw TypeError
     | first :: _ =>
         let encoding := encodingOf first in
         do decodedShares <- mapM decodeShare shareValues ;;
         if (length decodedShares =? 0)%nat then Throw NoValidShares
         else
           let yLengths := map (fun share => length (y share)) decodedShares in
           let allSameLength :=
             forallb (fun length => (length =? hd 0%nat yLengths)%nat) yLengths in
           if negb allSameLength then Throw ShareLengthMismatch
           else
             let secretLength :=
               length (y (hd {| x := Undefined; y := [] |} decodedShares)) in
             do result <-
               mapM
                 (fun byteIndex =>
                    let points :=
                      map (fun share =>
                             (x share, index (y share) (Num (Z.of_nat byteIndex))))
                        decodedShares in
                    do f0 <- lagrangeInterpolation fuel points ;;
                    Return (ToUint8 f0))
                 (seq 0 secretLength) ;;
             match TextDecoder_decode encoding result with
             | Throw decodeError =>
                 Throw (DecodeFailed decodeError (bytesToHex result))
             | decoded => decoded
             end
     end).

End Platform.

(** *** [createShares] and the self-test of [src/test.js] *)

Section Sharing.

Variable TextEncoder_encode : string -> list Z.
Variable TextDecoder_decode : string -> list Z -> completion string.
Variable random : nat -> nat -> Z.
Variable uuidv4 : nat -> string.

(** [createShares] of [test.js]: the code of the service, over the
    [evaluatePolynomial] of this file. *)
Definition createShares (secret : string) (totalShares threshold : Z)
  : completion (list Share) :=
  rethrow CreateSharesFailed
    (if threshold <? 2 then Throw ThresholdTooSmall
     else if totalShares <? threshold then Throw TotalSharesBelowThreshold
     else
       let secretBytes := TextEncoder_encode secret in
       let encoding := "utf-8" in
       do shares <-
         foldM
           (fun shares '(byteIndex, secretByte) =>
              do randoms <- getRandomValues random byteIndex (Z.to_nat threshold - 1) ;;
              let coeffs := ToUint8 (Num secretByte) :: randoms in
              Return
                (fold_left
                   (fun shares x => record_y shares x (evaluatePolynomial coeffs (Num x)))
                   (map Z.of_nat (seq 1 (Z.to_nat totalShares)))
                   shares))
           (indexed secretBytes) [] ;;
       Return
         (map
            (fun '(n, share) =>
               let xHex := padStart2 (toString16 (raw_x share)) in
               let yHex := bytesToHex (map ToUint8 (raw_y share)) in
               ShareObject ("share-" ++ uuidv4 n) ("80" ++ xHex ++ yHex) (Some encoding))
            (indexed shares))).

(** [testSimple]: the calls it makes, in order, and the comparison it
    returns; what it prints is left out. *)
Definition testSimple (fuel : nat) : completion bool :=
  do _ <- GF256.div fuel (Num 21) (Num 7) ;;
  do _ <- mapM (fun i => GF256.inverse fuel (Num i)) [1; 2; 3; 4; 5] ;;
  let secret := "A" in
  do shares <- createShares secret 5 3 ;;
  do recovered <- combineShares TextDecoder_decode fuel (firstn 3 shares) ;;
  Return (recovered =? secret)%string.

End Sharing.

End test_js.

(** ** [src/services/improved-crypto.js]: key derivation and the key store *)

Module keystore.

Import improved_crypto.

(** The object [deriveKeyFromPassword] and [fallbackDeriveKey] resolve
    to; [derivedKey] is [null] and [isWebCrypto] is [false] on the
    fallback path, and [isWebCrypto] is absent on the primary path. *)
Record DerivedKey (CryptoKey : Type) : Type := {
  derivedKey : option CryptoKey;
  key : string;
  salt : string;
  isWebCrypto : option bool
}.
Arguments derivedKey {CryptoKey} _.
Arguments key {CryptoKey} _.
Arguments salt {CryptoKey} _.
Arguments isWebCrypto {CryptoKey} _.

(** The record persisted by [storeEncryptionKeySecurely]; [sd_salt] is
    its field [salt], renamed apart from the [salt] of [DerivedKey]. *)
Record SecureData : Type := {
  encryptedKey : string;
  iv : string;
  sd_salt : string;
  version : Z;
  algorithm : string;
  iterations : Z;
  createdAt : string;
  keyEncoding : string
}.

(** What [objectStore.put] writes under the key path [id]. *)
Record Entry : Type := { id : string; data : SecureData; updatedAt : string }.

(** How one use of IndexedDB ends: [indexedDB.open] throws, the open
    request fires [onerror], [db.transaction] throws, the put or get
    request fires [onerror], or the request fires [onsuccess]. *)
Inductive IDBOutcome : Type :=
| OpenThrows
| OpenError
| TransactionThrows
| RequestError
| RequestSuccess.

(** What [window.crypto] offers. *)
Inductive Provider : Type :=
| NoCrypto       (* window.crypto is undefined *)
| RandomOnly     (* window.crypto without window.crypto.subtle *)
| WebCrypto.     (* window.crypto.subtle is present *)

(** The mutable state around the module: the durable object store, the
    in-memory table [window._secureBackupStorage] ([None] until
    [getSecureBackupStorage] creates it), and how many times each
    ambient source has been consulted. The table is a plain object used
    as a map; its keys here are names that [Object.prototype] does not
    define (the module itself only uses ["masterKey"]). *)
Record World : Type := {
  idb_store : gmap string Entry;
  _secureBackupStorage : option (gmap string SecureData);
  idb_uses : nat;
  random_calls : nat;
  Math_random_calls : nat;
  clock_reads : nat
}.

Definition set_idb_store (store : gmap string Entry) (w : World) : World :=
  {| idb_store := store;
     _secureBackupStorage := _secureBackupStorage w;
     idb_uses := idb_uses w;
     random_calls := random_calls w;
     Math_random_calls := Math_random_calls w;
     clock_reads := clock_reads w |}.
Definition set_backup (table : gmap string SecureData) (w : World) : World :=
  {| idb_store := idb_store w;
     _secureBackupStorage := Some table;
     idb_uses := idb_uses w;
     random_calls := random_calls w;
     Math_random_calls := Math_random_calls w;
     clock_reads := clock_reads w |}.
Definition count_idb_use (w : World) : World :=
  {| idb_store := idb_store w;
     _secureBackupStorage := _secureBackupStorage w;
     idb_uses := S (idb_uses w);
     random_calls := random_calls w;
     Math_random_calls := Math_random_calls w;
     clock_reads := clock_reads w |}.
Definition count_random_call (w : World) : World :=
  {| idb_store := idb_store w;
     _secureBackupStorage := _secureBackupStorage w;
     idb_uses := idb_uses w;
     random_calls := S (random_calls w);
     Math_random_calls := Math_random_calls w;
     clock_reads := clock_reads w |}.
Definition count_Math_random (n : nat) (w : World) : World :=
  {| idb_store := idb_store w;
     _secureBackupStorage := _secureBackupStorage w;
     idb_uses := idb_uses w;
     random_calls := random_calls w;
     Math_random_calls := (Math_random_calls w + n)%nat;
     clock_reads := clock_reads w |}.
Definition count_clock_read (w : World) : World :=
  {| idb_store := idb_store w;
     _secureBackupStorage := _secureBackupStorage w;
     idb_uses := idb_uses w;
     random_calls := random_calls w;
     Math_random_calls := Math_random_calls w;
     clock_reads := S (clock_reads w) |}.

(** A computation over the world that resolves or rejects. *)
Definition M (A : Type) : Type := World -> completion A * World.

Definition ret {A} (a : A) : M A := fun w => (Return a, w).
Definition throw {A} (e : Error) : M A := fun w => (Throw e, w).
Definition lift {A} (c : completion A) : M A := fun w => (c, w).
(** [await m] followed by [k]. *)
Definition bindM {A B} (m : M A) (k : A -> M B) : M B :=
  fun w =>
    match m w with
    | (Return a, w') => k a w'
    | (Throw e, w') => (Throw e, w')
    | (OutOfFuel, w') => (OutOfFuel, w')
    end.
(** [try { m } catch (error) { handler }] *)
Definition try_catch {A} (m : M A) (handler : Error -> M A) : M A :=
  fun w =>
    match m w with
    | (Throw e, w') => handler e w'
    | r => r
    end.

Notation "'await' x <- m ;; k" := (bindM m (fun x => k))
  (at level 20, x name, m at level 99, k at level 200, only parsing).

(** [key.charCodeAt(j)] folded into the 32-bit string hash of
    [fallbackDeriveKey]. *)
Definition stringHash (key : string) : jsval :=
  fold_left
    (fun hash c =>
       let hash := JS.add (JS.sub (shl hash (Num 5)) hash) (Num (charCode c)) in
       bor hash (Num 0))
    (list_ascii_of_string key) (Num 0).

Definition numberToString16 (v : jsval) : string :=
  match v with
  | Num n => toString16 n
  | NaN => "NaN"
  | Undefined => "undefined"
  end.

(** [key.substr(start, 2) || '0'] *)
Definition substr2_or_0 (key : string) (start : nat) : string :=
  let piece := substring start 2 key in
  if (String.length piece =? 0)%nat then "0" else piece.

(** [fallbackDeriveKey(password, salt)]; [salt] is [None] when the
    caller passes [null], on which [Array.from] raises a [TypeError]
    and the promise rejects. *)
Definition fallbackDeriveKey {CryptoKey : Type} (password : string) (salt : option (list Z))
  : completion (DerivedKey CryptoKey) :=
  match salt with
  | None => Throw TypeError
  | Some salt =>
      let saltHex := String.concat "" (map (fun b => padStart2 (toString16 b)) salt) in
      let key := password ++ saltHex in
      let key := Nat.iter 1000 (fun key => numberToString16 (stringHash key)) key in
      let derivedKeyArray :=
        map (fun i =>
               ToUint8 (parseInt16 (substr2_or_0 key ((i * 2) mod String.length key))))
          (seq 0 32) in
      let keyHex :=
        String.concat "" (map (fun b => padStart2 (toString16 b)) derivedKeyArray) in
      Return {| derivedKey := None; key := keyHex; salt := saltHex;
                isWebCrypto := Some false |}
  end.

(** What the functions below reject with besides an [Error] raised
    underneath them: the errors their own [throw] statements create. *)
Inductive Failure : Type :=
| Raised (e : Error)   (* an error of the runtime or of a function above *)
| KeyNotFound          (* retrieveEncryptionKeySecurely: no record *)
| RetrieveFailed       (* catch block of retrieveEncryptionKeySecurely *)
| DecryptFailed.       (* catch block of decryptWithKey *)

Inductive outcome (A : Type) : Type :=
| Resolved (a : A)
| Rejected (f : Failure)
| Unfinished.
Arguments Resolved {A} a.
Arguments Rejected {A} f.
Arguments Unfinished {A}.

Definition of_completion {A} (c : completion A) : outcome A :=
  match c with
  | Return a => Resolved a
  | Throw e => Rejected (Raised e)
  | OutOfFuel => Unfinished
  end.

(** [value || fallback] on strings: the empty string is falsy. *)
Definition or_default (value fallback : string) : string :=
  if (String.length value =? 0)%nat then fallback else value.

Section Platform.

Variable TextEncoder_encode : string -> list Z.
(** The cryptographic provider. [subtle_deriveKey password salt]
    stands for [importKey] followed by [deriveKey] (PBKDF2, 100000
    iterations, SHA-256). *)
Variable provider : Provider.
Variable CryptoKey : Type.
Variable subtle_deriveKey : list Z -> list Z -> completion CryptoKey.
Variable subtle_exportKey : CryptoKey -> completion (list Z).
Variable subtle_encrypt : CryptoKey -> list Z -> list Z -> completion (list Z).
(** [random call i]: byte [i] of the [call]-th [getRandomValues]. *)
Variable random : nat -> nat -> Z.
(** [Math.floor(Math.random() * 256)] at the [n]-th call. *)
Variable Math_random_byte : nat -> Z.
(** [new Date().toISOString()] at the [n]-th reading of the clock. *)
Variable toISOString : nat -> string.
(** How the [n]-th use of IndexedDB ends. *)
Variable idb_outcome : nat -> IDBOutcome.

Definition bytesHex (bytes : list Z) : string :=
  String.concat "" (map (fun b => padStart2 (toString16 b)) bytes).

(** [window.crypto.getRandomValues(new Uint8Array(len))] *)
Definition crypto_getRandomValues (len : nat) : M (list Z) :=
  fun w =>
    match provider with
    | NoCrypto => (Throw TypeError, w)
    | _ =>
        (Return (map (fun i => ToUint8 (Num (random (random_calls w) i))) (seq 0 len)),
         count_random_call w)
    end.

(** [len] successive [Math.floor(Math.random() * 256)] stored in a
    [Uint8Array]. *)
Definition Math_random_bytes (len : nat) : M (list Z) :=
  fun w =>
    (Return
       (map (fun i => ToUint8 (Num (Math_random_byte (Math_random_calls w + i))))
          (seq 0 len)),
     count_Math_random len w).

Definition Date_toISOString : M string :=
  fun w => (Return (toISOString (clock_reads w)), count_clock_read w).

(** [deriveKeyFromPassword(password, salt = null)] *)
Definition deriveKeyFromPassword (password : string) (salt : option (list Z))
  : M (DerivedKey CryptoKey) :=
  fun w =>
    (* try { if (!salt) salt = window.crypto.getRandomValues(...) *)
    match
      match salt with
      | Some salt => (Return salt, w)
      | None => crypto_getRandomValues 16 w
      end
    with
    | (Return salt, w) =>
        let passwordBuffer := TextEncoder_encode password in
        match provider with
        | WebCrypto =>
            match
              (do derivedKey <- subtle_deriveKey passwordBuffer salt ;;
               do exportedKey <- subtle_exportKey derivedKey ;;
               Return {| derivedKey := Some derivedKey;
                         key := bytesHex exportedKey;
                         salt := bytesHex salt;
                         isWebCrypto := None |})
            with
            | Throw cryptoError => (fallbackDeriveKey password (Some salt), w)
            | r => (r, w)
            end
        | _ => (fallbackDeriveKey password (Some salt), w)
        end
    (* } catch (error) { return fallbackDeriveKey(password, salt) } *)
    | (Throw error, w) => (fallbackDeriveKey password salt, w)
    | (OutOfFuel, w) => (OutOfFuel, w)
    end.

(** [saveToIndexedDB]: resolves [true] when the put request succeeds
    and [false] on every failure; it never rejects. The entry, with
    its time stamp, is built once the transaction is open. *)
Definition saveToIndexedDB (key : string) (data : SecureData) : M bool :=
  fun w =>
    let outcome := idb_outcome (idb_uses w) in
    let w := count_idb_use w in
    match outcome with
    | OpenThrows | OpenError | TransactionThrows => (Return false, w)
    | RequestError => (Return false, count_clock_read w)
    | RequestSuccess =>
        let entry :=
          {| id := key; data := data; updatedAt := toISOString (clock_reads w) |} in
        (Return true, set_idb_store (<[key := entry]> (idb_store w)) (count_clock_read w))
    end.

(** [getSecureBackupStorage]: creates the table on first use. *)
Definition getSecureBackupStorage : M (gmap string SecureData) :=
  fun w =>
    match _secureBackupStorage w with
    | Some table => (Return table, w)
    | None => (Return ∅, set_backup ∅ w)
    end.

(** [secureBackupStorage[key] = data]: the table is the object
    [window._secureBackupStorage] itself, so the store is seen by
    every later [getSecureBackupStorage]. *)
Definition backup_put (secureBackupStorage : gmap string SecureData)
    (key : string) (data : SecureData) : M unit :=
  fun w => (Return tt, set_backup (<[key := data]> secureBackupStorage) w).

Definition saveToSecureStorage (key : string) (data : SecureData) : M bool :=
  await savedToIndexedDB <- saveToIndexedDB key data ;;
  if savedToIndexedDB then ret true
  else
    await secureBackupStorage <- getSecureBackupStorage ;;
    await _ <- backup_put secureBackupStorage key data ;;
    ret true.

(** [getFromIndexedDB]: the stored [data], or [null] ([None]) when the
    key is absent or anything fails; it never rejects. *)
Definition getFromIndexedDB (key : string) : M (option SecureData) :=
  fun w =>
    let outcome := idb_outcome (idb_uses w) in
    let found := idb_store w !! key in
    let w := count_idb_use w in
    match outcome with
    | RequestSuccess =>
        match found with
        | Some result => (Return (Some (data result)), w)
        | None => (Return None, w)
        end
    | _ => (Return None, w)
    end.

(** [getFromSecureStorage]: records are objects, hence truthy. *)
Definition getFromSecureStorage (key : string) : M (option SecureData) :=
  try_catch
    (await dataFromIndexedDB <- getFromIndexedDB key ;;
     match dataFromIndexedDB with
     | Some found => ret (Some found)
     | None =>
         await secureBackupStorage <- getSecureBackupStorage ;;
         match secureBackupStorage !! key with
         | Some found => ret (Some found)
         | None => ret None
         end
     end)
    (fun error => throw StorageReadFailed).

(** [keyBytes[i % keyBytes.length]]: [undefined] for an empty array. *)
Definition index_mod (bytes : list Z) (i : nat) : jsval :=
  match length bytes with
  | O => Undefined
  | len => index bytes (Num (Z.of_nat (i mod len)))
  end.

(** The body of [storeEncryptionKeySecurely] up to the record it
    hands to [saveToSecureStorage]. *)
Definition buildSecureData (masterKey password : string) : M SecureData :=
  await derived <- deriveKeyFromPassword password None ;;
  await encrypted <-
    match derivedKey derived with
    | Some cryptoKey =>
        await iv <- crypto_getRandomValues 12 ;;
        let masterKeyBuffer := TextEncoder_encode masterKey in
        await encryptedKeyBuffer <- lift (subtle_encrypt cryptoKey iv masterKeyBuffer) ;;
        ret (bytesHex encryptedKeyBuffer, bytesHex iv)
    | None =>
        await iv <- Math_random_bytes 12 ;;
        let masterKeyBytes := TextEncoder_encode masterKey in
        await keyBytes <- lift (hexToBytes (key derived)) ;;
        let encryptedBytes :=
          map (fun '(i, b) =>
                 ToUint8 (bxor (bxor (Num b) (index_mod keyBytes i)) (index_mod iv i)))
            (indexed masterKeyBytes) in
        ret (bytesToHex encryptedBytes, bytesToHex iv)
    end ;;
  await now <- Date_toISOString ;;
  ret {| encryptedKey := fst encrypted;
         iv := snd encrypted;
         (* Array.from(salt) on the hex string: one element per
            character, each padded to two characters *)
         sd_salt :=
           String.concat ""
             (map (fun b => padStart2 (String b "")) (list_ascii_of_string (salt derived)));
         version := 2;
         algorithm :=
           match derivedKey derived with Some _ => "AES-GCM" | None => "XOR-FALLBACK" end;
         iterations :=
           match derivedKey derived with Some _ => 100000 | None => 1000 end;
         createdAt := now;
         keyEncoding := "utf8" |}.

Definition storeEncryptionKeySecurely (masterKey password : string) : M bool :=
  try_catch
    (await secureData <- buildSecureData masterKey password ;;
     saveToSecureStorage "masterKey" secureData)
    (fun error => throw KeyStoreFailed).

(** [window.crypto.subtle.decrypt] under [{name: 'AES-GCM', iv}], and
    [new TextDecoder(label).decode(bytes)]. *)
Variable subtle_decrypt : CryptoKey -> list Z -> list Z -> completion (list Z).
Variable TextDecoder_decode : string -> list Z -> completion string.

(** The body of the [try] of [retrieveEncryptionKeySecurely] once the
    record is there. A derived key without [derivedKey] makes
    [subtle.decrypt] raise a [TypeError]; whatever the first attempt
    throws is logged and the fallback decryption follows. *)
Definition decryptRecord (password : string) (secureData : SecureData) : M string :=
  await encryptedKeyBytes <- lift (hexToBytes (encryptedKey secureData)) ;;
  await ivBytes <- lift (hexToBytes (iv secureData)) ;;
  await saltBytes <- lift (hexToBytes (sd_salt secureData)) ;;
  let algorithm := or_default (algorithm secureData) "AES-GCM" in
  let keyEncoding := or_default (keyEncoding secureData) "utf8" in
  await primary <-
    (if (algorithm =? "AES-GCM")%string
        && match provider with WebCrypto => true | _ => false end
     then
       try_catch
         (await derived <- deriveKeyFromPassword password (Some saltBytes) ;;
          match derivedKey derived with
          | Some derivedKey =>
              await decryptedBuffer <-
                lift (subtle_decrypt derivedKey ivBytes encryptedKeyBytes) ;;
              await text <- lift (TextDecoder_decode keyEncoding decryptedBuffer) ;;
              ret (Some text)
          | None => throw TypeError
          end)
         (fun cryptoError => ret None)
     else ret None) ;;
  match primary with
  | Some text => ret text
  | None =>
      await derived <- deriveKeyFromPassword password (Some saltBytes) ;;
      await keyBytes <- lift (hexToBytes (key derived)) ;;
      let decryptedBytes :=
        map (fun '(i, b) =>
               ToUint8 (bxor (bxor (Num b) (index_mod keyBytes i)) (index_mod ivBytes i)))
          (indexed encryptedKeyBytes) in
      lift (TextDecoder_decode keyEncoding decryptedBytes)
  end.

(** [retrieveEncryptionKeySecurely]: a missing record throws inside the
    [try], and the [catch] replaces every error by one. *)
Definition retrieveEncryptionKeySecurely (password : string)
  : World -> outcome string * World :=
  fun w =>
    match
      match getFromSecureStorage "masterKey" w with
      | (Return (Some secureData), w) =>
          let '(r, w) := decryptRecord password secureData w in (of_completion r, w)
      | (Return None, w) => (Rejected KeyNotFound, w)
      | (Throw e, w) => (Rejected (Raised e), w)
      | (OutOfFuel, w) => (Unfinished, w)
      end
    with
    | (Rejected error, w) => (Rejected RetrieveFailed, w)
    | r => r
    end.

End Platform.

End keystore.

(** ** [src/services/improved-crypto.js]: symmetric encryption *)

Module symmetric.

Import improved_crypto.
Import keystore.

(** The object [encryptWithKey] resolves to, [{encryptedData, iv}]. *)
Record Encrypted : Type := { encryptedData : string; ivHex : string }.

(** [new Uint8Array(hex.match(/.{1,2}/g).map(byte => parseInt(byte, 16)))]:
    [match] gives [null] on a string without a character to match, and
    [null.map] raises a [TypeError]. *)
Definition parseHex (hex : string) : completion (list Z) :=
  match match_dot12 hex with
  | Some chunks => Return (map (fun byte => ToUint8 (parseInt16 byte)) chunks)
  | None => Throw TypeError
  end.

Section Platform.

(** The values handed to [JSON.stringify] and obtained from
    [JSON.parse]; [JSON.stringify] returns [undefined], here [None], for
    a value that has no JSON text. *)
Variable Json : Type.
Variable JSON_stringify : Json -> completion (option string).
Variable JSON_parse : string -> completion Json.
Variable TextEncoder_encode : string -> list Z.
(** [new TextDecoder().decode(buffer)], the label being UTF-8. *)
Variable TextDecoder_decode : list Z -> completion string.
Variable provider : Provider.
Variable CryptoKey : Type.
(** [subtle.importKey('raw', keyData, {name: 'AES-GCM', length: 256}, ...)],
    and [subtle.encrypt] and [subtle.decrypt] under [{name: 'AES-GCM', iv}]. *)
Variable subtle_importKey : list Z -> completion CryptoKey.
Variable subtle_encrypt : CryptoKey -> list Z -> list Z -> completion (list Z).
Variable subtle_decrypt : CryptoKey -> list Z -> list Z -> completion (list Z).
Variable random : nat -> nat -> Z.

(** A call on [window.crypto.subtle], which raises a [TypeError] where
    [window.crypto] or [window.crypto.subtle] is undefined. *)
Definition on_subtle {A} (call : completion A) : M A :=
  match provider with
  | WebCrypto => lift call
  | _ => throw TypeError
  end.

Definition generateEncryptionKey : M string :=
  await key <- crypto_getRandomValues provider random 32 ;;
  ret (bytesToHex key).

Definition importKey (keyHex : string) : M CryptoKey :=
  await keyData <- lift (parseHex keyHex) ;;
  on_subtle (subtle_importKey keyData).

(** [encode(undefined)] encodes the empty string. *)
Definition encryptWithKey (data : Json) (keyHex : string) : M Encrypted :=
  await dataString <- lift (JSON_stringify data) ;;
  let dataBuffer := TextEncoder_encode (default "" dataString) in
  await key <- importKey keyHex ;;
  await iv <- crypto_getRandomValues provider random 12 ;;
  await encryptedBuffer <- on_subtle (subtle_encrypt key iv dataBuffer) ;;
  let encryptedHex := bytesToHex encryptedBuffer in
  let ivHex := bytesToHex iv in
  ret {| encryptedData := encryptedHex; ivHex := ivHex |}.

(** [decryptWithKey]: the [catch] replaces every error by one. *)
Definition decryptWithKey (encryptedObj : Encrypted) (keyHex : string)
  : World -> outcome Json * World :=
  fun w =>
    match
      (await encryptedBuffer <- lift (parseHex (encryptedData encryptedObj)) ;;
       await ivBuffer <- lift (parseHex (ivHex encryptedObj)) ;;
       await key <- importKey keyHex ;;
       await decryptedBuffer <- on_subtle (subtle_decrypt key ivBuffer encryptedBuffer) ;;
       await decryptedText <- lift (TextDecoder_decode decryptedBuffer) ;;
       lift (JSON_parse decryptedText)) w
    with
    | (Return decrypted, w) => (Resolved decrypted, w)
    | (Throw error, w) => (Rejected DecryptFailed, w)
    | (OutOfFuel, w) => (Unfinished, w)
    end.

End Platform.

End symmetric.

(** ** The reference product of the specification *)

Module reference.

(** The product the specification names: carry-less multiplication of
    the two bytes read as polynomials over GF(2), then the remainder
    modulo x^8 + x^4 + x^3 + x + 1 (0x11B). Written from the words of
    the specification, to be compared with [gf256.mul]. *)
Definition carryless_mul (a b : Z) : Z :=
  fold_left
    (fun acc i => if Z.testbit b i then Z.lxor acc (Z.shiftl a i) else acc)
    (map Z.of_nat (seq 0 8)) 0.

(** The remainder of a polynomial of degree at most 14. *)
Definition reduce (p : Z) : Z :=
  fold_left
    (fun p i => if Z.testbit p i then Z.lxor p (Z.shiftl 0x11b (i - 8)) else p)
    [14; 13; 12; 11; 10; 9; 8] p.

Definition product (a b : Z) : Z := reduce (carryless_mul a b).

End reference.

(** ** Auxiliary definitions for the proofs *)

Definition is_byte (a : Z) : Prop := 0 <= a <= 255.

Definition is_byteb (a : Z) : bool := (0 <=? a) && (a <=? 255).

(** The 256 bytes, and exhaustive checks over them. *)
Definition byte_values : list Z := map Z.of_nat (seq 0 256).

Definition forall_bytes (P : Z -> bool) : bool := forallb P byte_values.

Definition forall_bytes2 (P : Z -> Z -> bool) : bool :=
  forall_bytes (fun a => forall_bytes (P a)).

Definition jsval_eqb (u v : jsval) : bool :=
  match u, v with
  | Num a, Num b => a =? b
  | NaN, NaN => true
  | Undefined, Undefined => true
  | _, _ => false
  end.

(** The loop of [gf256.mul] on bytes, with the 32-bit conversions
    resolved; [gf256_mul_bytes] and [GF256_mul_bytes] below relate it to
    the two sources. *)
Definition xtime (a : Z) : Z :=
  let doubled := Z.land (Z.shiftl a 1) 255 in
  if Z.testbit a 7 then Z.lxor doubled 27 else doubled.

Definition byte_mul_body (st : Z * Z * Z) : Z * Z * Z :=
  let '(p, a, b) := st in
  ((if Z.odd b then Z.lxor p a else p), xtime a, Z.shiftr b 1).

Definition byte_mul (a b : Z) : Z :=
  let '(p, _, _) := Nat.iter 8 byte_mul_body (0, a, b) in p.

Definition lift3 (st : Z * Z * Z) : jsval * jsval * jsval :=
  let '(p, a, b) := st in (Num p, Num a, Num b).

Definition bytes3 (st : Z * Z * Z) : Prop :=
  let '(p, a, b) := st in is_byte p /\ is_byte a /\ is_byte b.

(** The entry of the inverse table for a byte. *)
Definition byte_inv (a : Z) : Z := nth (Z.to_nat a) gf256.inverseTable 0.

(** Powers of the generator 3 and discrete logarithms to that base. *)
Definition exp_table : list Z :=
  Eval vm_compute in
    map (fun i => Nat.iter i (fun v => byte_mul v 3) 1) (seq 0 255).

Definition gexp (i : nat) : Z := nth i exp_table 0.

Fixpoint position (a : Z) (l : list Z) : nat :=
  match l with
  | [] => O
  | x :: l' => if x =? a then O else S (position a l')
  end.

Definition log_table : list nat :=
  Eval vm_compute in map (fun a => position a exp_table) byte_values.

Definition glog (a : Z) : nat := nth (Z.to_nat a) log_table O.

Definition mul_check (a b : Z) : bool :=
  let m := byte_mul a b in
  (m =? reference.product a b)
  && (if (a =? 0) || (b =? 0) then m =? 0
      else m =? gexp ((glog a + glog b) mod 255)).

Definition log_check (a : Z) : bool :=
  if a =? 0 then true else (glog a <? 255)%nat && (gexp (glog a) =? a).

Definition exp_check (i : nat) : bool :=
  is_byteb (gexp i) && negb (gexp i =? 0) && (glog (gexp i) =? i)%nat.

Definition inv_check (a : Z) : bool :=
  if a =? 0 then true
  else is_byteb (byte_inv a) && negb (byte_inv a =? 0)
       && (byte_mul a (byte_inv a) =? 1).

(** Fuel under which [GF256.inverse] finishes on every non-zero byte. *)
Definition inverse_fuel : nat := 9.

Definition inverse_check (a : Z) : bool :=
  if a =? 0 then true
  else match GF256.inverse inverse_fuel (Num a) with
       | Return v => jsval_eqb v (Num (byte_inv a))
       | _ => false
       end.

(** The list without its element at index [i]: what the inner loop of
    the interpolation visits when it skips [j = i]. *)
Definition skip_index {A} (i : nat) (l : list A) : list A :=
  firstn i l ++ skipn (S i) l.

(** [byte_mul] and [byte_inv] behind a seal: the algebra below treats
    them as the operations of a field and never computes with them. *)
Definition fmul_aux : seal byte_mul.
Proof. by eexists. Qed.
Definition fmul : Z -> Z -> Z := fmul_aux.(unseal).
Definition fmul_unseal : fmul = byte_mul := fmul_aux.(seal_eq).

Definition finv_aux : seal byte_inv.
Proof. by eexists. Qed.
Definition finv : Z -> Z := finv_aux.(unseal).
Definition finv_unseal : finv = byte_inv := finv_aux.(seal_eq).

Definition fprod (l : list Z) : Z := fold_left fmul l 1.

(** Byte points as the JavaScript arrays [[x, y]]. *)
Definition js_points (points : list (Z * Z)) : list (jsval * jsval) :=
  map (fun p => (Num (fst p), Num (snd p))) points.

Definition points_are_bytes (points : list (Z * Z)) : Prop :=
  forall p, In p points -> is_byte (fst p) /\ is_byte (snd p).

(** The value both interpolation routines compute on byte points with
    distinct abscissas: the sum over [i] of
    [y_i * (prod_j x_j) / (prod_j (x_j xor x_i))], [j] ranging over the
    other points. *)
Definition lagrange_term (points : list (Z * Z)) (i : nat) (xi yi : Z) : Z :=
  let others := map fst (skip_index i points) in
  fmul yi (fmul (fprod others) (finv (fprod (map (fun xj => Z.lxor xj xi) others)))).

Definition lagrange_at_0 (points : list (Z * Z)) : Z :=
  fold_left
    (fun acc e => Z.lxor acc (lagrange_term points (fst e) (fst (snd e)) (snd (snd e))))
    (indexed points) 0.

(** Exhaustive checks of the hexadecimal rendering: a byte renders as
    two characters that [parseInt] reads back; an index in 256..4095
    renders as three, the first two of which read as its quotient by 16;
    each of the two digits of a byte, padded on its own, is the rendering
    of the corresponding half of the byte. *)
Definition hex_pair_check (b : Z) : bool :=
  match padStart2 (toString16 b) with
  | String c (String d EmptyString) =>
      negb (isLineTerminator c) && negb (isLineTerminator d)
      && jsval_eqb (parseInt16 (String c (String d EmptyString))) (Num b)
  | _ => false
  end.

Definition hex_triple_check (k : Z) : bool :=
  match padStart2 (toString16 k) with
  | String c (String d (String e EmptyString)) =>
      jsval_eqb (parseInt16 (String c (String d EmptyString))) (Num (k / 16))
  | _ => false
  end.

Definition nibble_check (b : Z) : bool :=
  match padStart2 (toString16 b) with
  | String c (String d EmptyString) =>
      (padStart2 (String c "") =? padStart2 (toString16 (b / 16)))%string
      && (padStart2 (String d "") =? padStart2 (toString16 (b mod 16)))%string
  | _ => false
  end.

Definition only_line_terminators (s : string) : bool :=
  forallb isLineTerminator (list_ascii_of_string s).

(** What [createShares] returns, written out. *)
Section Expected.

Variable random : nat -> nat -> Z.
Variable uuidv4 : nat -> string.
Variable threshold : Z.
Variable secretBytes : list Z.

(** The coefficients drawn for the byte [e = (byteIndex, secretByte)]
    of the secret. *)
Definition coefficients (e : nat * Z) : list Z :=
  ToUint8 (Num (snd e))
  :: map (fun i => ToUint8 (Num (random (fst e) i))) (seq 0 (Z.to_nat threshold - 1)).

(** The [y] bytes of the share of index [k]. *)
Definition share_bytes (k : Z) : list Z :=
  map (fun e => ToUint8 (improved_crypto.evaluatePolynomial (coefficients e) (Num k)))
    (indexed secretBytes).

(** The share at position [i] of the returned array. *)
Definition expected_share (i : nat) : improved_crypto.Share :=
  improved_crypto.ShareObject ("share-" ++ uuidv4 i)
    ("80" ++ padStart2 (toString16 (Z.of_nat (S i)))
          ++ improved_crypto.bytesToHex (share_bytes (Z.of_nat (S i))))
    (Some "utf-8").

End Expected.

(** One more [y] appended to every share, the index counting from
    [S s]: a pass of the inner loop of [createShares] over an array that
    is already full. *)
Fixpoint push_y (y : Z -> jsval) (s : nat) (shares : list improved_crypto.RawShare)
  : list improved_crypto.RawShare :=
  match shares with
  | [] => []
  | share :: shares' =>
      {| improved_crypto.raw_x := improved_crypto.raw_x share;
         improved_crypto.raw_y := improved_crypto.raw_y share ++ [y (Z.of_nat (S s))] |}
      :: push_y y (S s) shares'
  end.

(** The two hexadecimal digits of each byte, as numbers. *)
Definition nibbles (bytes : list Z) : list Z :=
  flat_map (fun b => [b / 16; b mod 16]) bytes.

(** [Array.from(salt).map(b => b.toString(16).padStart(2, '0')).join('')]
    on the string [salt], as [storeEncryptionKeySecurely] applies it. *)
Definition mangle (saltHex : string) : string :=
  String.concat "" (map (fun b => padStart2 (String b "")) (list_ascii_of_string saltHex)).

(** The 32 bytes [fallbackDeriveKey] derives. *)
Definition fallback_key_bytes (password : string) (salt : list Z) : list Z :=
  let saltHex := String.concat "" (map (fun b => padStart2 (toString16 b)) salt) in
  let key := password ++ saltHex in
  let key :=
    Nat.iter 1000 (fun key => keystore.numberToString16 (keystore.stringHash key)) key in
  map (fun i =>
         ToUint8 (parseInt16 (keystore.substr2_or_0 key ((i * 2) mod String.length key))))
    (seq 0 32).

(** The loop shared by the fallback encryption and decryption:
    [out[i] = data[i] ^ key[i % key.length] ^ iv[i % iv.length]]. *)
Definition xor_stream (data key iv : list Z) : list Z :=
  map (fun '(i, b) =>
         ToUint8 (bxor (bxor (Num b) (keystore.index_mod key i)) (keystore.index_mod iv i)))
    (indexed data).

(** *** Polynomials and interpolation over a field *)

Module field_poly.

Section Definitions.

Variable F : Type.
Variables (zero one : F) (add mul sub : F -> F -> F) (inv : F -> F).

(** Horner's rule from an accumulator, the first coefficient leading:
    the loop of [evaluatePolynomial]. *)
Definition horner_from (acc : F) (coeffs : list F) (x : F) : F :=
  fold_left (fun r c => add (mul r x) c) coeffs acc.

(** The quotient of the polynomial [acc :: coeffs] by [z - a]. *)
Fixpoint synthetic (acc : F) (coeffs : list F) (a : F) : list F :=
  match coeffs with
  | [] => []
  | c :: coeffs' => acc :: synthetic (add (mul acc a) c) coeffs' a
  end.

(** The value at 0 of the Lagrange basis polynomial of [x] among
    [others]. *)
Definition weight (others : list F) (x : F) : F :=
  fold_left (fun acc xj => mul acc (mul xj (inv (sub xj x)))) others one.

(** The interpolation sum over the abscissas [xs], each against all the
    others; [pre] holds the ones already visited. *)
Fixpoint lagrange_sum (pre xs : list F) (g : F -> F) : F :=
  match xs with
  | [] => zero
  | x :: post =>
      add (mul (g x) (weight (pre ++ post) x)) (lagrange_sum (pre ++ [x]) post g)
  end.

End Definitions.

End field_poly.

(** *** The bytes as a field *)

Module byte_field.

Definition B : Type := { z : Z | Is_true (is_byteb z) }.

Definition val (a : B) : Z := proj1_sig a.

Definition mod_256_is_byte (z : Z) : Is_true (is_byteb (z mod 256)).
Proof.
  apply Is_true_true. unfold is_byteb.
  pose proof (Z.mod_pos_bound z 256 eq_refl).
  apply andb_true_intro. split; apply Z.leb_le; lia.
Qed.

Definition of_Z (z : Z) : B := exist _ (z mod 256) (mod_256_is_byte z).

Definition zero : B := of_Z 0.
Definition one : B := of_Z 1.
Definition add (a b : B) : B := of_Z (Z.lxor (val a) (val b)).
Definition opp (a : B) : B := a.
Definition mul (a b : B) : B := of_Z (fmul (val a) (val b)).
Definition inv (a : B) : B := of_Z (finv (val a)).
Definition div (a b : B) : B := mul a (inv b).

End byte_field.

(** ** A concrete platform for the closed examples *)

Module example.

(** Text of 7-bit characters, on which UTF-8 maps every character to
    the byte of its code and back. The decoder knows the label of
    UTF-8 only; a [RangeError] is what the platform raises on an
    unknown label. Input outside the 7-bit range is outside this
    instance and is not used below. *)
Definition TextEncoder_encode (s : string) : list Z :=
  map charCode (list_ascii_of_string s).

Definition TextDecoder_decode (label : string) (bytes : list Z) : completion string :=
  if ((label =? "utf-8")%string || (label =? "utf8")%string)
     && forallb (fun b => (0 <=? b) && (b <? 128)) bytes
  then Return (string_of_list_ascii (map (fun b => ascii_of_nat (Z.to_nat b)) bytes))
  else Throw RangeError.

(** A random source whose every call delivers the bytes 0x42, 0x43, ...
    (the letters B, C, ...). *)
Definition random (call i : nat) : Z := 0x42 + Z.of_nat i.

Definition uuidv4 (n : nat) : string := "uuid-" ++ toString16 (Z.of_nat n).

(** A browser with [crypto.getRandomValues] but without
    [crypto.subtle], and an IndexedDB on which every use fails. *)
Definition provider : keystore.Provider := keystore.RandomOnly.
Definition CryptoKey : Type := unit.
Definition subtle_deriveKey (password salt : list Z) : completion CryptoKey :=
  Throw TypeError.
Definition subtle_exportKey (k : CryptoKey) : completion (list Z) := Throw TypeError.
Definition subtle_encrypt (k : CryptoKey) (iv data : list Z) : completion (list Z) :=
  Throw TypeError.
Definition Math_random_byte (n : nat) : Z := 7 * Z.of_nat n + 1.
Definition toISOString (n : nat) : string := "2025-01-01T00:00:00.000Z".
Definition idb_failing (n : nat) : keystore.IDBOutcome := keystore.OpenError.

Definition fresh_world : keystore.World :=
  {| keystore.idb_store := ∅;
     keystore._secureBackupStorage := None;
     keystore.idb_uses := 0;
     keystore.random_calls := 0;
     keystore.Math_random_calls := 0;
     keystore.clock_reads := 0 |}.

Definition salt16 : list Z := [1; 2; 3; 4; 5; 6; 7; 8; 9; 10; 11; 12; 13; 14; 15; 16].

(** The record [storeEncryptionKeySecurely] builds for the master key
    "deadbeef" under the password "pw1" on this platform, and the
    world once it is built. *)
Definition secureData : keystore.SecureData :=
  {| keystore.encryptedKey := "00a2097a23b73631";
     keystore.iv := "01080f161d242b323940474e";
     keystore.sd_salt :=
       "04020403040404050406040704080409040a040b040c040d040e040f05000501";
     keystore.version := 2;
     keystore.algorithm := "XOR-FALLBACK";
     keystore.iterations := 1000;
     keystore.createdAt := "2025-01-01T00:00:00.000Z";
     keystore.keyEncoding := "utf8" |}.

Definition world_after_build : keystore.World :=
  {| keystore.idb_store := ∅;
     keystore._secureBackupStorage := None;
     keystore.idb_uses := 0;
     keystore.random_calls := 1;
     keystore.Math_random_calls := 12;
     keystore.clock_reads := 1 |}.


(** The remaining collaborators: a [subtle.decrypt] that fails like the
    rest of [subtle] here, and, for the symmetric encryption, JSON
    values that are their own text, a key that is its bytes, and a
    cipher that appends one byte on the way in and removes it on the
    way out. *)
Definition subtle_decrypt (k : CryptoKey) (iv data : list Z) : completion (list Z) :=
  Throw TypeError.

Definition Json : Type := string.
Definition JSON_stringify (data : Json) : completion (option string) :=
  Return (Some data).
Definition JSON_parse (text : string) : completion Json := Return text.
Definition decode_utf8 (bytes : list Z) : completion string :=
  TextDecoder_decode "utf-8" bytes.
Definition aes_importKey (keyData : list Z) : completion (list Z) := Return keyData.
Definition aes_encrypt (k : list Z) (iv data : list Z) : completion (list Z) :=
  Return (data ++ [Z.of_nat (length iv)])%list.
Definition aes_decrypt (k : list Z) (iv data : list Z) : completion (list Z) :=
  Return (removelast data).

End example.

(** * Properties *)

(** ** Exhaustive checks over the bytes *)

Lemma byte_in_values a : is_byte a -> In a byte_values.
Proof.
  intros [Hlo Hhi]. unfold byte_values.
  apply in_map_iff. exists (Z.to_nat a). split; [lia|].
  apply in_seq. lia.
Qed.

Lemma forall_bytes_elim P :
  forall_bytes P = true -> forall a, is_byte a -> P a = true.
Proof.
  unfold forall_bytes. intros H a Ha.
  eapply forallb_forall in H; [exact H|]. now apply byte_in_values.
Qed.

Lemma forall_bytes2_elim P :
  forall_bytes2 P = true -> forall a b, is_byte a -> is_byte b -> P a b = true.
Proof.
  intros H a b Ha Hb.
  apply (forall_bytes_elim (P a)); [|exact Hb].
  now apply (forall_bytes_elim _ H).
Qed.

Lemma jsval_eqb_eq u v : jsval_eqb u v = true -> u = v.
Proof.
  destruct u, v; simpl; try discriminate; try reflexivity.
  intros H. apply Z.eqb_eq in H. now subst.
Qed.

Lemma is_byteb_spec a : is_byteb a = true -> is_byte a.
Proof.
  unfold is_byteb, is_byte. intros H. apply andb_true_iff in H as [H1 H2].
  apply Z.leb_le in H1, H2. lia.
Qed.

Lemma bytes_eq1 (f g : Z -> jsval) :
  forall_bytes (fun a => jsval_eqb (f a) (g a)) = true ->
  forall a, is_byte a -> f a = g a.
Proof. intros H a Ha. apply jsval_eqb_eq. exact (forall_bytes_elim _ H a Ha). Qed.

Lemma bytes_in1 (f : Z -> Z) :
  forall_bytes (fun a => is_byteb (f a)) = true ->
  forall a, is_byte a -> is_byte (f a).
Proof. intros H a Ha. apply is_byteb_spec. exact (forall_bytes_elim _ H a Ha). Qed.

(** ** 32-bit operations on bytes *)

Lemma wrap32_small z : -2147483648 <= z < 2147483648 -> wrap32 z = z.
Proof.
  intros H. unfold wrap32.
  destruct (Z_lt_ge_dec z 0) as [Hneg|Hpos].
  - assert (Hm : z mod 4294967296 = z + 4294967296).
    { symmetry. apply (Z.mod_unique_pos _ _ (-1)); lia. }
    rewrite Hm. destruct (2147483648 <=? z + 4294967296) eqn:E.
    + lia.
    + apply Z.leb_gt in E. lia.
  - rewrite Z.mod_small by lia.
    destruct (2147483648 <=? z) eqn:E; [apply Z.leb_le in E; lia | reflexivity].
Qed.

Lemma log2_byte a : is_byte a -> Z.log2 a < 8.
Proof.
  intros [Hlo Hhi]. destruct (Z.eq_dec a 0) as [->|Hne]; [simpl; lia|].
  apply Z.log2_lt_pow2; lia.
Qed.

Lemma lxor_byte a b : is_byte a -> is_byte b -> is_byte (Z.lxor a b).
Proof.
  intros Ha Hb. pose proof (log2_byte a Ha). pose proof (log2_byte b Hb).
  destruct Ha as [Ha0 Ha1], Hb as [Hb0 Hb1].
  assert (Hnn : 0 <= Z.lxor a b) by (apply Z.lxor_nonneg; lia).
  split; [exact Hnn|].
  destruct (Z.eq_dec (Z.lxor a b) 0) as [->|Hne]; [lia|].
  assert (Z.lxor a b < 2 ^ 8); [|lia].
  apply Z.log2_lt_pow2; [lia|].
  pose proof (Z.log2_lxor a b Ha0 Hb0). lia.
Qed.

Lemma bxor_bytes p a : is_byte p -> is_byte a -> bxor (Num p) (Num a) = Num (Z.lxor p a).
Proof.
  intros Hp Ha. unfold bxor, ToInt32, is_byte in *. rewrite !wrap32_small by lia. reflexivity.
Qed.

Lemma xtime_byte : forall a, is_byte a -> is_byte (xtime a).
Proof. apply bytes_in1. vm_compute. reflexivity. Qed.

Lemma half_byte : forall b, is_byte b -> is_byte (Z.shiftr b 1).
Proof. apply bytes_in1. vm_compute. reflexivity. Qed.

Lemma js_low_bit : forall b, is_byte b ->
  band (Num b) (Num 1) = Num (if Z.odd b then 1 else 0).
Proof. apply bytes_eq1. vm_compute. reflexivity. Qed.

Lemma js_sar1 : forall b, is_byte b -> sar (Num b) (Num 1) = Num (Z.shiftr b 1).
Proof. apply bytes_eq1. vm_compute. reflexivity. Qed.

Lemma js_high_bit : forall a, is_byte a ->
  band (Num a) (Num 0x80) = Num (if Z.testbit a 7 then 128 else 0).
Proof. apply bytes_eq1. vm_compute. reflexivity. Qed.

Lemma js_double : forall a, is_byte a ->
  band (shl (Num a) (Num 1)) (Num 0xff) = Num (Z.land (Z.shiftl a 1) 255).
Proof. apply bytes_eq1. vm_compute. reflexivity. Qed.

Lemma js_double_byte : forall a, is_byte a -> is_byte (Z.land (Z.shiftl a 1) 255).
Proof. apply bytes_in1. vm_compute. reflexivity. Qed.

Lemma js_mask_byte : forall a, is_byte a -> band (Num a) (Num 0xff) = Num a.
Proof. apply bytes_eq1. vm_compute. reflexivity. Qed.

Lemma gf256_mul_body_bytes p a b :
  is_byte p -> is_byte a -> is_byte b ->
  gf256.mul_body (Num p, Num a, Num b) = lift3 (byte_mul_body (p, a, b)).
Proof.
  intros Hp Ha Hb. unfold gf256.mul_body, byte_mul_body, lift3, xtime.
  rewrite (js_low_bit b Hb), (js_high_bit a Ha), (js_double a Ha), (js_sar1 b Hb).
  assert (H27 : is_byte 27) by (unfold is_byte; lia).
  destruct (Z.odd b), (Z.testbit a 7); simpl;
    rewrite ?bxor_bytes by (auto using js_double_byte); reflexivity.
Qed.

Lemma GF256_mul_body_bytes p a b :
  is_byte p -> is_byte a -> is_byte b ->
  GF256.mul_body (Num p, Num a, Num b) = lift3 (byte_mul_body (p, a, b)).
Proof.
  intros Hp Ha Hb. unfold GF256.mul_body, byte_mul_body, lift3, xtime.
  rewrite (js_low_bit b Hb), (js_high_bit a Ha), (js_double a Ha), (js_sar1 b Hb).
  assert (H27 : is_byte 27) by (unfold is_byte; lia).
  destruct (Z.odd b), (Z.testbit a 7); simpl;
    rewrite ?bxor_bytes by (auto using js_double_byte); reflexivity.
Qed.

Lemma byte_mul_body_bytes st : bytes3 st -> bytes3 (byte_mul_body st).
Proof.
  destruct st as [[p a] b]. intros (Hp & Ha & Hb). unfold byte_mul_body, bytes3.
  repeat split; try (apply xtime_byte; assumption); try (apply half_byte; assumption);
    destruct (Z.odd b); try apply lxor_byte; auto; unfold is_byte in *; lia.
Qed.

Lemma byte_mul_iter_bytes n st : bytes3 st -> bytes3 (Nat.iter n byte_mul_body st).
Proof.
  intros H. induction n as [|n IH]; [exact H|].
  rewrite Nat.iter_succ. now apply byte_mul_body_bytes.
Qed.

Lemma mul_iter_bytes (body : jsval * jsval * jsval -> jsval * jsval * jsval) :
  (forall p a b, is_byte p -> is_byte a -> is_byte b ->
     body (Num p, Num a, Num b) = lift3 (byte_mul_body (p, a, b))) ->
  forall n st, bytes3 st ->
    Nat.iter n body (lift3 st) = lift3 (Nat.iter n byte_mul_body st).
Proof.
  intros Hbody n st Hst. induction n as [|n IH]; [reflexivity|].
  rewrite !Nat.iter_succ, IH.
  pose proof (byte_mul_iter_bytes n st Hst) as Hn.
  destruct (Nat.iter n byte_mul_body st) as [[p a] b].
  destruct Hn as (Hp & Ha & Hb). simpl lift3 at 1. now apply Hbody.
Qed.

Lemma byte_zero : is_byte 0.
Proof. unfold is_byte. lia. Qed.

Lemma byte_mul_byte a b : is_byte a -> is_byte b -> is_byte (byte_mul a b).
Proof.
  intros Ha Hb. unfold byte_mul.
  assert (H : bytes3 (0, a, b)) by (pose proof byte_zero; unfold bytes3; auto).
  apply (byte_mul_iter_bytes 8) in H.
  destruct (Nat.iter 8 byte_mul_body (0, a, b)) as [[p a'] b']. apply H.
Qed.

Lemma gf256_mul_bytes a b :
  is_byte a -> is_byte b -> gf256.mul (Num a) (Num b) = Num (byte_mul a b).
Proof.
  intros Ha Hb. unfold gf256.mul, byte_mul.
  assert (H : bytes3 (0, a, b)) by (pose proof byte_zero; unfold bytes3; auto).
  change (Num 0, Num a, Num b) with (lift3 (0, a, b)).
  rewrite (mul_iter_bytes _ gf256_mul_body_bytes 8 _ H).
  destruct (Nat.iter 8 byte_mul_body (0, a, b)) as [[p a'] b']. reflexivity.
Qed.

(** ** The field structure of the bytes under [byte_mul] *)

Lemma mul_check_all : forall_bytes2 mul_check = true.
Proof. vm_compute. reflexivity. Qed.

Lemma log_check_all : forall_bytes log_check = true.
Proof. vm_compute. reflexivity. Qed.

Lemma exp_check_all : forallb exp_check (seq 0 255) = true.
Proof. vm_compute. reflexivity. Qed.

Lemma inv_check_all : forall_bytes inv_check = true.
Proof. vm_compute. reflexivity. Qed.

Lemma byte_mul_reference a b :
  is_byte a -> is_byte b -> byte_mul a b = reference.product a b.
Proof.
  intros Ha Hb. pose proof (forall_bytes2_elim _ mul_check_all a b Ha Hb) as H.
  unfold mul_check in H. cbv zeta in H.
  apply andb_true_iff in H as [H _]. now apply Z.eqb_eq.
Qed.

Lemma byte_mul_zero a b :
  is_byte a -> is_byte b -> a = 0 \/ b = 0 -> byte_mul a b = 0.
Proof.
  intros Ha Hb Hz. pose proof (forall_bytes2_elim _ mul_check_all a b Ha Hb) as H.
  unfold mul_check in H. cbv zeta in H.
  apply andb_true_iff in H as [_ H].
  assert (E : (a =? 0) || (b =? 0) = true).
  { apply orb_true_iff. destruct Hz; [left|right]; now apply Z.eqb_eq. }
  rewrite E in H. now apply Z.eqb_eq.
Qed.

Lemma byte_mul_log a b :
  is_byte a -> is_byte b -> a <> 0 -> b <> 0 ->
  byte_mul a b = gexp ((glog a + glog b) mod 255).
Proof.
  intros Ha Hb Hna Hnb. pose proof (forall_bytes2_elim _ mul_check_all a b Ha Hb) as H.
  unfold mul_check in H. cbv zeta in H.
  apply andb_true_iff in H as [_ H].
  assert (E : (a =? 0) || (b =? 0) = false).
  { apply orb_false_iff. split; now apply Z.eqb_neq. }
  rewrite E in H. now apply Z.eqb_eq.
Qed.

Lemma glog_spec a : is_byte a -> a <> 0 -> (glog a < 255)%nat /\ gexp (glog a) = a.
Proof.
  intros Ha Hne. pose proof (forall_bytes_elim _ log_check_all a Ha) as H.
  unfold log_check in H. apply Z.eqb_neq in Hne. rewrite Hne in H.
  apply andb_true_iff in H as [H1 H2].
  apply Nat.ltb_lt in H1. apply Z.eqb_eq in H2. auto.
Qed.

Lemma gexp_spec i :
  (i < 255)%nat -> is_byte (gexp i) /\ gexp i <> 0 /\ glog (gexp i) = i.
Proof.
  intros Hi. pose proof exp_check_all as H.
  eapply forallb_forall in H; [|apply in_seq; split; [lia|simpl; exact Hi]].
  unfold exp_check in H.
  apply andb_true_iff in H as [H H3]. apply andb_true_iff in H as [H1 H2].
  apply is_byteb_spec in H1. apply negb_true_iff, Z.eqb_neq in H2.
  apply Nat.eqb_eq in H3. auto.
Qed.

Lemma byte_mul_nonzero a b :
  is_byte a -> is_byte b -> a <> 0 -> b <> 0 -> byte_mul a b <> 0.
Proof.
  intros Ha Hb Hna Hnb. rewrite byte_mul_log by assumption.
  apply gexp_spec. apply Nat.mod_upper_bound. discriminate.
Qed.

Lemma byte_mul_comm a b : is_byte a -> is_byte b -> byte_mul a b = byte_mul b a.
Proof.
  intros Ha Hb.
  destruct (Z.eq_dec a 0) as [Hza|Hna];
    [rewrite !byte_mul_zero by auto; reflexivity|].
  destruct (Z.eq_dec b 0) as [Hzb|Hnb];
    [rewrite !byte_mul_zero by auto; reflexivity|].
  rewrite !byte_mul_log by assumption. now rewrite Nat.add_comm.
Qed.

Lemma byte_mul_assoc a b c :
  is_byte a -> is_byte b -> is_byte c ->
  byte_mul (byte_mul a b) c = byte_mul a (byte_mul b c).
Proof.
  intros Ha Hb Hc.
  pose proof (byte_mul_byte a b Ha Hb) as Hab.
  pose proof (byte_mul_byte b c Hb Hc) as Hbc.
  destruct (Z.eq_dec a 0) as [Hza|Hna].
  { rewrite (byte_mul_zero a b), (byte_mul_zero 0 c), (byte_mul_zero a _); auto using byte_zero. }
  destruct (Z.eq_dec b 0) as [Hzb|Hnb].
  { rewrite (byte_mul_zero a b), (byte_mul_zero b c), (byte_mul_zero 0 c), (byte_mul_zero a 0);
      auto using byte_zero. }
  destruct (Z.eq_dec c 0) as [Hzc|Hnc].
  { rewrite (byte_mul_zero _ c), (byte_mul_zero b c), (byte_mul_zero a 0); auto using byte_zero. }
  pose proof (byte_mul_nonzero a b Ha Hb Hna Hnb) as Hnab.
  pose proof (byte_mul_nonzero b c Hb Hc Hnb Hnc) as Hnbc.
  rewrite (byte_mul_log (byte_mul a b) c), (byte_mul_log a (byte_mul b c)) by assumption.
  rewrite (byte_mul_log a b), (byte_mul_log b c) by assumption.
  assert (H1 : (((glog a + glog b) mod 255) < 255)%nat) by (apply Nat.mod_upper_bound; discriminate).
  assert (H2 : (((glog b + glog c) mod 255) < 255)%nat) by (apply Nat.mod_upper_bound; discriminate).
  destruct (gexp_spec _ H1) as (_ & _ & ->). destruct (gexp_spec _ H2) as (_ & _ & ->).
  f_equal.
  rewrite Nat.Div0.add_mod_idemp_l, Nat.Div0.add_mod_idemp_r.
  f_equal. lia.
Qed.

Lemma byte_mul_1_l a : is_byte a -> byte_mul 1 a = a.
Proof.
  revert a.
  assert (H : forall_bytes (fun a => byte_mul 1 a =? a) = true) by (vm_compute; reflexivity).
  intros a Ha. apply Z.eqb_eq. exact (forall_bytes_elim _ H a Ha).
Qed.

Lemma byte_mul_1_r a : is_byte a -> byte_mul a 1 = a.
Proof.
  intros Ha. rewrite byte_mul_comm; [now apply byte_mul_1_l|assumption|unfold is_byte; lia].
Qed.

Lemma byte_inv_spec a :
  is_byte a -> a <> 0 ->
  is_byte (byte_inv a) /\ byte_inv a <> 0 /\ byte_mul a (byte_inv a) = 1.
Proof.
  intros Ha Hne. pose proof (forall_bytes_elim _ inv_check_all a Ha) as H.
  unfold inv_check in H. apply Z.eqb_neq in Hne. rewrite Hne in H.
  apply andb_true_iff in H as [H H3]. apply andb_true_iff in H as [H1 H2].
  apply is_byteb_spec in H1. apply negb_true_iff, Z.eqb_neq in H2.
  apply Z.eqb_eq in H3. auto.
Qed.

Lemma byte_inv_unique a c :
  is_byte a -> is_byte c -> a <> 0 -> byte_mul a c = 1 -> c = byte_inv a.
Proof.
  intros Ha Hc Hne H.
  destruct (byte_inv_spec a Ha Hne) as (Hi & _ & Hinv).
  rewrite <- (byte_mul_1_l c Hc), <- Hinv.
  rewrite (byte_mul_comm a (byte_inv a)) by assumption.
  rewrite byte_mul_assoc by assumption.
  rewrite H. now apply byte_mul_1_r.
Qed.

Lemma byte_inv_mul a b :
  is_byte a -> is_byte b -> a <> 0 -> b <> 0 ->
  byte_inv (byte_mul a b) = byte_mul (byte_inv a) (byte_inv b).
Proof.
  intros Ha Hb Hna Hnb.
  destruct (byte_inv_spec a Ha Hna) as (Hia & _ & Ea).
  destruct (byte_inv_spec b Hb Hnb) as (Hib & _ & Eb).
  symmetry. apply byte_inv_unique;
    auto using byte_mul_byte, byte_mul_nonzero.
  rewrite (byte_mul_assoc a b) by auto using byte_mul_byte.
  rewrite <- (byte_mul_assoc b (byte_inv a)) by assumption.
  rewrite (byte_mul_comm b (byte_inv a)) by assumption.
  rewrite (byte_mul_assoc (byte_inv a) b) by assumption.
  rewrite Eb, (byte_mul_1_r (byte_inv a)) by assumption.
  exact Ea.
Qed.

(** ** [test.js] multiplication and inverse on bytes *)

Lemma GF256_mul_bytes a b :
  is_byte a -> is_byte b -> GF256.mul (Num a) (Num b) = Num (byte_mul a b).
Proof.
  intros Ha Hb. unfold GF256.mul.
  rewrite (js_mask_byte a Ha), (js_mask_byte b Hb). simpl strict_eq.
  destruct (a =? 0) eqn:Ea.
  { apply Z.eqb_eq in Ea. simpl. now rewrite byte_mul_zero by auto. }
  destruct (b =? 0) eqn:Eb.
  { apply Z.eqb_eq in Eb. simpl. now rewrite byte_mul_zero by auto. }
  simpl orb. cbv iota. unfold byte_mul.
  assert (H : bytes3 (0, a, b)) by (pose proof byte_zero; unfold bytes3; auto).
  change (Num 0, Num a, Num b) with (lift3 (0, a, b)).
  rewrite (mul_iter_bytes _ GF256_mul_body_bytes 8 _ H).
  destruct (Nat.iter 8 byte_mul_body (0, a, b)) as [[p a'] b']. reflexivity.
Qed.

Lemma polyMul_loop_mono fuel fuel' result a b v :
  (fuel <= fuel')%nat ->
  GF256.polyMul_loop fuel result a b = Return v ->
  GF256.polyMul_loop fuel' result a b = Return v.
Proof.
  revert fuel' result a b. induction fuel as [|fuel IH]; intros fuel' result a b Hle H.
  - cbn [GF256.polyMul_loop] in H.
    destruct fuel'; cbn [GF256.polyMul_loop]; destruct (gt a (Num 0)); congruence.
  - destruct fuel' as [|fuel']; [lia|]. cbn [GF256.polyMul_loop] in *.
    destruct (gt a (Num 0)); [|exact H].
    apply IH; [lia|exact H].
Qed.

Lemma inverse_loop_mono fuel fuel' t newt r newr v :
  (fuel <= fuel')%nat ->
  GF256.inverse_loop fuel t newt r newr = Return v ->
  GF256.inverse_loop fuel' t newt r newr = Return v.
Proof.
  revert fuel' t newt r newr. induction fuel as [|fuel IH]; intros fuel' t newt r newr Hle H.
  - cbn [GF256.inverse_loop] in H.
    destruct fuel'; cbn [GF256.inverse_loop];
      destruct (negb (strict_eq newr (Num 0))); congruence.
  - destruct fuel' as [|fuel']; [lia|]. cbn [GF256.inverse_loop] in *.
    destruct (negb (strict_eq newr (Num 0))); [|exact H].
    destruct (GF256.polyDiv r newr) as [quotient| |]; cbn [bind] in *; try discriminate.
    unfold GF256.polyMul in *.
    destruct (GF256.polyMul_loop (S fuel) (Num 0) quotient newt) as [qt| |] eqn:E1;
      cbn [bind] in H; try discriminate.
    destruct (GF256.polyMul_loop (S fuel) (Num 0) quotient newr) as [qr| |] eqn:E2;
      cbn [bind] in H; try discriminate.
    rewrite (polyMul_loop_mono (S fuel) (S fuel') _ _ _ _ ltac:(lia) E1).
    rewrite (polyMul_loop_mono (S fuel) (S fuel') _ _ _ _ ltac:(lia) E2).
    cbn [bind]. apply IH; [lia|exact H].
Qed.

Lemma inverse_check_all : forall_bytes inverse_check = true.
Proof. vm_compute. reflexivity. Qed.

Lemma GF256_inverse_bytes fuel a :
  is_byte a -> a <> 0 -> (inverse_fuel <= fuel)%nat ->
  GF256.inverse fuel (Num a) = Return (Num (byte_inv a)).
Proof.
  intros Ha Hne Hfuel. pose proof (forall_bytes_elim _ inverse_check_all a Ha) as H.
  unfold inverse_check in H. apply Z.eqb_neq in Hne. rewrite Hne in H.
  destruct (GF256.inverse inverse_fuel (Num a)) as [v| |] eqn:E; try discriminate.
  apply jsval_eqb_eq in H. subst v.
  unfold GF256.inverse in *. simpl strict_eq in *. rewrite Hne in *.
  now apply (inverse_loop_mono inverse_fuel).
Qed.

Lemma index_inverseTable a :
  is_byte a -> index gf256.inverseTable (Num a) = Num (byte_inv a).
Proof.
  revert a. apply bytes_eq1. vm_compute. reflexivity.
Qed.

(** C4. For every non-zero byte [a], the extended Euclidean inverse of
    [test.js] ([GF256.inverse], given enough fuel for its loops) returns
    exactly the entry [inverseTable[a]] that [gf256.div] of the service
    multiplies by. *)
Theorem C4_inverse_table_agrees_with_euclid (a : Z) (fuel : nat) :
  1 <= a <= 255 -> (inverse_fuel <= fuel)%nat ->
  GF256.inverse fuel (Num a) = Return (index gf256.inverseTable (Num a)).
Proof.
  intros Ha Hfuel. assert (Hb : is_byte a) by (unfold is_byte; lia).
  rewrite index_inverseTable by exact Hb.
  apply GF256_inverse_bytes; [exact Hb|lia|exact Hfuel].
Qed.

Lemma C4_witness :
  GF256.inverse 12 (Num 0x53) = Return (index gf256.inverseTable (Num 0x53)).
Proof.
  apply (C4_inverse_table_agrees_with_euclid 0x53 12); [lia | unfold inverse_fuel; lia].
Defined.

(** C5. On bytes, [gf256.mul] (and [GF256.mul] of [test.js]) is the
    reference product: the carry-less product reduced modulo 0x11B. It
    is 0 as soon as an operand is 0, and it is always a byte. *)
Theorem C5_mul_is_reference_product (a b : Z) :
  0 <= a <= 255 -> 0 <= b <= 255 ->
  gf256.mul (Num a) (Num b) = Num (reference.product a b)
  /\ GF256.mul (Num a) (Num b) = Num (reference.product a b)
  /\ (a = 0 \/ b = 0 -> gf256.mul (Num a) (Num b) = Num 0)
  /\ 0 <= reference.product a b <= 255.
Proof.
  intros Ha Hb. change (is_byte a) in Ha. change (is_byte b) in Hb.
  rewrite gf256_mul_bytes, GF256_mul_bytes by assumption.
  rewrite <- byte_mul_reference by assumption.
  repeat split; try apply (byte_mul_byte a b Ha Hb).
  intros Hz. now rewrite byte_mul_zero.
Qed.

Lemma C5_witness :
  gf256.mul (Num 0x57) (Num 0x83) = Num (reference.product 0x57 0x83)
  /\ GF256.mul (Num 0x57) (Num 0x83) = Num (reference.product 0x57 0x83)
  /\ (0x57 = 0 \/ 0x83 = 0 -> gf256.mul (Num 0x57) (Num 0x83) = Num 0)
  /\ 0 <= reference.product 0x57 0x83 <= 255.
Proof. apply (C5_mul_is_reference_product 0x57 0x83); lia. Defined.

Example mul_57_83 : gf256.mul (Num 0x57) (Num 0x83) = Num 0xc1.
Proof. reflexivity. Qed.

(** ** The sealed field operations *)

Lemma fmul_byte a b : is_byte a -> is_byte b -> is_byte (fmul a b).
Proof. rewrite fmul_unseal. apply byte_mul_byte. Qed.

Lemma fmul_zero a b : is_byte a -> is_byte b -> a = 0 \/ b = 0 -> fmul a b = 0.
Proof. rewrite fmul_unseal. apply byte_mul_zero. Qed.

Lemma fmul_nonzero a b :
  is_byte a -> is_byte b -> a <> 0 -> b <> 0 -> fmul a b <> 0.
Proof. rewrite fmul_unseal. apply byte_mul_nonzero. Qed.

Lemma fmul_comm a b : is_byte a -> is_byte b -> fmul a b = fmul b a.
Proof. rewrite fmul_unseal. apply byte_mul_comm. Qed.

Lemma fmul_assoc a b c :
  is_byte a -> is_byte b -> is_byte c -> fmul (fmul a b) c = fmul a (fmul b c).
Proof. rewrite fmul_unseal. apply byte_mul_assoc. Qed.

Lemma fmul_1_l a : is_byte a -> fmul 1 a = a.
Proof. rewrite fmul_unseal. apply byte_mul_1_l. Qed.

Lemma fmul_1_r a : is_byte a -> fmul a 1 = a.
Proof. rewrite fmul_unseal. apply byte_mul_1_r. Qed.

Lemma finv_spec a :
  is_byte a -> a <> 0 -> is_byte (finv a) /\ finv a <> 0 /\ fmul a (finv a) = 1.
Proof. rewrite fmul_unseal, finv_unseal. apply byte_inv_spec. Qed.

Lemma finv_mul a b :
  is_byte a -> is_byte b -> a <> 0 -> b <> 0 ->
  finv (fmul a b) = fmul (finv a) (finv b).
Proof. rewrite fmul_unseal, finv_unseal. apply byte_inv_mul. Qed.

Lemma finv_1 : finv 1 = 1.
Proof. rewrite finv_unseal. reflexivity. Qed.

Lemma gf256_mul_field a b :
  is_byte a -> is_byte b -> gf256.mul (Num a) (Num b) = Num (fmul a b).
Proof. rewrite fmul_unseal. apply gf256_mul_bytes. Qed.

Lemma GF256_mul_field a b :
  is_byte a -> is_byte b -> GF256.mul (Num a) (Num b) = Num (fmul a b).
Proof. rewrite fmul_unseal. apply GF256_mul_bytes. Qed.

Lemma index_inverseTable_field a :
  is_byte a -> index gf256.inverseTable (Num a) = Num (finv a).
Proof. rewrite finv_unseal. apply index_inverseTable. Qed.

Lemma GF256_inverse_field fuel a :
  is_byte a -> a <> 0 -> (inverse_fuel <= fuel)%nat ->
  GF256.inverse fuel (Num a) = Return (Num (finv a)).
Proof. rewrite finv_unseal. apply GF256_inverse_bytes. Qed.

(** ** Loops that skip one index *)

Lemma skip_index_cons_0 {A} (a : A) l : skip_index 0 (a :: l) = l.
Proof. reflexivity. Qed.

Lemma skip_index_cons_S {A} (a : A) l i :
  skip_index (S i) (a :: l) = a :: skip_index i l.
Proof. reflexivity. Qed.

Lemma fold_left_skip {A B} (i : nat) (g : A -> nat * B -> A) (f : A -> B -> A) :
  (forall acc j p, g acc (j, p) = if (i =? j)%nat then acc else f acc p) ->
  forall l s a,
    fold_left g (combine (seq s (length l)) l) a
    = fold_left f (if (i <? s)%nat then l else skip_index (i - s) l) a.
Proof.
  intros Hg. induction l as [|p l IH]; intros s a.
  - simpl. destruct (i <? s)%nat; [reflexivity|]. unfold skip_index.
    now rewrite firstn_nil, skipn_nil.
  - cbn [length seq combine fold_left]. rewrite Hg, IH.
    destruct (i =? s)%nat eqn:E.
    + apply Nat.eqb_eq in E. subst s.
      replace (i <? S i)%nat with true by (symmetry; apply Nat.ltb_lt; lia).
      replace (i <? i)%nat with false by (symmetry; apply Nat.ltb_ge; lia).
      now rewrite Nat.sub_diag, skip_index_cons_0.
    + apply Nat.eqb_neq in E.
      destruct (i <? s)%nat eqn:E1.
      * apply Nat.ltb_lt in E1.
        replace (i <? S s)%nat with true by (symmetry; apply Nat.ltb_lt; lia).
        reflexivity.
      * apply Nat.ltb_ge in E1.
        replace (i <? S s)%nat with false by (symmetry; apply Nat.ltb_ge; lia).
        replace (i - s)%nat with (S (i - S s)) by lia.
        now rewrite skip_index_cons_S.
Qed.

Lemma foldM_skip {A B} (i : nat) (g : A -> nat * B -> completion A)
    (f : A -> B -> completion A) :
  (forall acc j p, g acc (j, p) = if (i =? j)%nat then Return acc else f acc p) ->
  forall l s a,
    foldM g (combine (seq s (length l)) l) a
    = foldM f (if (i <? s)%nat then l else skip_index (i - s) l) a.
Proof.
  intros Hg. induction l as [|p l IH]; intros s a.
  - simpl. destruct (i <? s)%nat; [reflexivity|]. unfold skip_index.
    now rewrite firstn_nil, skipn_nil.
  - cbn [length seq combine foldM]. rewrite Hg.
    destruct (i =? s)%nat eqn:E.
    + apply Nat.eqb_eq in E. subst s. cbn [bind]. rewrite IH.
      replace (i <? S i)%nat with true by (symmetry; apply Nat.ltb_lt; lia).
      replace (i <? i)%nat with false by (symmetry; apply Nat.ltb_ge; lia).
      now rewrite Nat.sub_diag, skip_index_cons_0.
    + apply Nat.eqb_neq in E.
      destruct (i <? s)%nat eqn:E1.
      * apply Nat.ltb_lt in E1. cbn [foldM].
        destruct (f a p); cbn [bind]; try reflexivity. rewrite IH.
        replace (i <? S s)%nat with true by (symmetry; apply Nat.ltb_lt; lia).
        reflexivity.
      * apply Nat.ltb_ge in E1.
        replace (i - s)%nat with (S (i - S s)) by lia.
        rewrite skip_index_cons_S. cbn [foldM].
        destruct (f a p); cbn [bind]; try reflexivity. rewrite IH.
        replace (i <? S s)%nat with false by (symmetry; apply Nat.ltb_ge; lia).
        reflexivity.
Qed.

Lemma skip_index_map {A B} (f : A -> B) i l :
  skip_index i (map f l) = map f (skip_index i l).
Proof. unfold skip_index. now rewrite firstn_map, skipn_map, map_app. Qed.

Lemma in_indexed_nth {A} (l : list A) s i p :
  In (i, p) (combine (seq s (length l)) l) ->
  (s <= i)%nat /\ nth_error l (i - s) = Some p.
Proof.
  revert s. induction l as [|a l IH]; intros s H; [destruct H|].
  cbn [length seq combine] in H. destruct H as [H|H].
  - inversion H; subst. rewrite Nat.sub_diag. auto.
  - apply IH in H as [Hle Hn]. split; [lia|].
    replace (i - s)%nat with (S (i - S s)) by lia. exact Hn.
Qed.

Lemma in_skip_index {A} (l : list A) i x :
  In x (skip_index i l) -> In x l.
Proof.
  unfold skip_index. intros H. apply in_app_or in H as [H|H].
  - rewrite <- (firstn_skipn i l). apply in_or_app. now left.
  - rewrite <- (firstn_skipn (S i) l). apply in_or_app. now right.
Qed.

Lemma NoDup_skip_index {A} (l : list A) i x :
  NoDup l -> nth_error l i = Some x -> ~ In x (skip_index i l).
Proof.
  revert i. induction l as [|a l IH]; intros i Hnd Hn; [destruct i; discriminate|].
  inversion Hnd as [|? ? Hnotin Hnd']; subst.
  rewrite list_elem_of_In in Hnotin.
  destruct i as [|i].
  - simpl in Hn. inversion Hn; subst. rewrite skip_index_cons_0. exact Hnotin.
  - simpl in Hn. rewrite skip_index_cons_S. intros [E|Hin].
    + subst a. apply Hnotin. now apply nth_error_In in Hn.
    + now apply (IH i Hnd' Hn).
Qed.

Lemma indexed_map_from {A B} (f : A -> B) (l : list A) s :
  combine (seq s (length (map f l))) (map f l)
  = map (fun e => (fst e, f (snd e))) (combine (seq s (length l)) l).
Proof.
  revert s. induction l as [|a l IH]; intros s; [reflexivity|].
  cbn [map length seq combine]. now rewrite IH.
Qed.

Lemma indexed_js_points points :
  indexed (js_points points)
  = map (fun e => (fst e, (Num (fst (snd e)), Num (snd (snd e))))) (indexed points).
Proof.
  unfold indexed, js_points.
  exact (indexed_map_from (fun p => (Num (fst p), Num (snd p))) points 0).
Qed.

Lemma foldM_map_bytes {B C} (phi : C -> B) (g : jsval -> B -> completion jsval)
    (h : Z -> C -> Z) (l : list C) :
  (forall r e, In e l -> is_byte r ->
     g (Num r) (phi e) = Return (Num (h r e)) /\ is_byte (h r e)) ->
  forall r, is_byte r ->
    foldM g (map phi l) (Num r) = Return (Num (fold_left h l r))
    /\ is_byte (fold_left h l r).
Proof.
  induction l as [|e l IH]; intros Hstep r Hr.
  - simpl. auto.
  - cbn [map foldM fold_left].
    destruct (Hstep r e (or_introl eq_refl) Hr) as [E Hb]. rewrite E. cbn [bind].
    apply IH; [|exact Hb]. intros r' e' Hin. apply Hstep. now right.
Qed.

(** ** The two interpolation loops on byte points *)

Lemma byte_one : is_byte 1.
Proof. unfold is_byte. lia. Qed.

Lemma fold_fmul_byte l a :
  (forall x, In x l -> is_byte x) -> is_byte a -> is_byte (fold_left fmul l a).
Proof.
  revert a. induction l as [|x l IH]; intros a Hl Ha; [exact Ha|].
  simpl. apply IH; [intros; apply Hl; now right|].
  apply fmul_byte; [exact Ha|apply Hl; now left].
Qed.

Lemma fold_fmul_nonzero l a :
  (forall x, In x l -> is_byte x /\ x <> 0) -> is_byte a -> a <> 0 ->
  fold_left fmul l a <> 0.
Proof.
  revert a. induction l as [|x l IH]; intros a Hl Ha Hna; [exact Hna|].
  simpl. destruct (Hl x (or_introl eq_refl)) as [Hx Hnx].
  apply IH; [intros; apply Hl; now right| |].
  - now apply fmul_byte.
  - now apply fmul_nonzero.
Qed.

Lemma service_inner xi l n d :
  is_byte xi -> (forall x, In x (map fst l) -> is_byte x) -> is_byte n -> is_byte d ->
  fold_left
    (fun (acc : jsval * jsval) (p : jsval * jsval) =>
       let '(numerator, denominator) := acc in
       let '(xj, _) := p in
       (gf256.mul numerator xj, gf256.mul denominator (bxor xj (Num xi))))
    (js_points l) (Num n, Num d)
  = (Num (fold_left fmul (map fst l) n),
     Num (fold_left fmul (map (fun xj => Z.lxor xj xi) (map fst l)) d)).
Proof.
  intros Hxi. revert n d. induction l as [|[xj yj] l IH]; intros n d Hl Hn Hd; [reflexivity|].
  cbn [js_points map fold_left fst snd].
  assert (Hxj : is_byte xj) by (apply Hl; now left).
  rewrite gf256_mul_field by assumption.
  rewrite bxor_bytes by assumption.
  rewrite gf256_mul_field by (auto using lxor_byte).
  apply IH.
  - intros x Hx. apply Hl. now right.
  - now apply fmul_byte.
  - apply fmul_byte; auto using lxor_byte.
Qed.

Lemma fmul_swap4 a b c d :
  is_byte a -> is_byte b -> is_byte c -> is_byte d ->
  fmul (fmul a b) (fmul c d) = fmul (fmul a c) (fmul b d).
Proof.
  intros Ha Hb Hc Hd.
  rewrite (fmul_assoc a b) by auto using fmul_byte.
  rewrite <- (fmul_assoc b c d) by assumption.
  rewrite (fmul_comm b c) by assumption.
  rewrite (fmul_assoc c b d) by assumption.
  rewrite <- (fmul_assoc a c) by auto using fmul_byte.
  reflexivity.
Qed.

Lemma lxor_nonzero a b : a <> b -> Z.lxor a b <> 0.
Proof. intros Hne H. apply Hne. now apply Z.lxor_eq. Qed.

(** The product of the quotients is the quotient of the products. *)
Lemma basis_is_quotient xi l n d :
  is_byte xi ->
  (forall x, In x l -> is_byte x /\ x <> xi) ->
  is_byte n -> is_byte d -> d <> 0 ->
  fold_left (fun basis xj => fmul basis (fmul xj (finv (Z.lxor xi xj))))
    l (fmul n (finv d))
  = fmul (fold_left fmul l n)
      (finv (fold_left fmul (map (fun xj => Z.lxor xj xi) l) d)).
Proof.
  intros Hxi. revert n d. induction l as [|xj l IH]; intros n d Hl Hn Hd Hnd; [reflexivity|].
  cbn [map fold_left].
  destruct (Hl xj (or_introl eq_refl)) as [Hxj Hne].
  assert (He : is_byte (Z.lxor xj xi)) by auto using lxor_byte.
  assert (Hne' : Z.lxor xj xi <> 0) by now apply lxor_nonzero.
  destruct (finv_spec d Hd Hnd) as (Hid & _ & _).
  destruct (finv_spec _ He Hne') as (Hie & _ & _).
  rewrite <- IH.
  - f_equal. rewrite (Z.lxor_comm xi xj).
    rewrite finv_mul by assumption.
    now apply fmul_swap4.
  - intros x Hx. apply Hl. now right.
  - now apply fmul_byte.
  - now apply fmul_byte.
  - now apply fmul_nonzero.
Qed.

Lemma gf256_div_field n d :
  is_byte n -> is_byte d -> d <> 0 ->
  gf256.div (Num n) (Num d) = Return (Num (fmul n (finv d))).
Proof.
  intros Hn Hd Hne. unfold gf256.div. simpl strict_eq.
  destruct (finv_spec d Hd Hne) as (Hid & _ & _).
  apply Z.eqb_neq in Hne. rewrite Hne.
  destruct (n =? 0) eqn:En.
  - apply Z.eqb_eq in En. subst n. now rewrite fmul_zero by auto.
  - rewrite index_inverseTable_field by assumption.
    now rewrite gf256_mul_field.
Qed.

Lemma GF256_div_field fuel n d :
  (inverse_fuel <= fuel)%nat -> is_byte n -> is_byte d -> d <> 0 ->
  GF256.div fuel (Num n) (Num d) = Return (Num (fmul n (finv d))).
Proof.
  intros Hfuel Hn Hd Hne. unfold GF256.div.
  rewrite (js_mask_byte n Hn), (js_mask_byte d Hd). simpl strict_eq.
  destruct (finv_spec d Hd Hne) as (Hid & _ & _).
  apply Z.eqb_neq in Hne. rewrite Hne.
  destruct (n =? 0) eqn:En.
  - apply Z.eqb_eq in En. subst n. now rewrite fmul_zero by auto.
  - apply Z.eqb_neq in Hne. rewrite GF256_inverse_field by assumption.
    cbn [bind]. now rewrite GF256_mul_field.
Qed.

Lemma test_inner fuel xi l b :
  (inverse_fuel <= fuel)%nat -> is_byte xi ->
  (forall x, In x (map fst l) -> is_byte x /\ x <> xi) -> is_byte b ->
  foldM
    (fun (basis : jsval) (p : jsval * jsval) =>
       let '(xj, _) := p in
       let num := xj in
       let denom := GF256.sub (Num xi) xj in
       if strict_eq denom (Num 0) then Throw (DuplicateX (Num xi) xj)
       else do term <- GF256.div fuel num denom ;; Return (GF256.mul basis term))
    (js_points l) (Num b)
  = Return
      (Num (fold_left (fun basis xj => fmul basis (fmul xj (finv (Z.lxor xi xj))))
              (map fst l) b)).
Proof.
  intros Hfuel Hxi. revert b. induction l as [|[xj yj] l IH]; intros b Hl Hb; [reflexivity|].
  cbn [js_points map foldM fold_left fst snd].
  destruct (Hl xj (or_introl eq_refl)) as [Hxj Hne].
  unfold GF256.sub. rewrite bxor_bytes by assumption.
  assert (He : is_byte (Z.lxor xi xj)) by auto using lxor_byte.
  assert (Hne' : Z.lxor xi xj <> 0) by (apply lxor_nonzero; congruence).
  simpl strict_eq. apply Z.eqb_neq in Hne'. rewrite Hne'. apply Z.eqb_neq in Hne'.
  rewrite GF256_div_field by assumption. cbn [bind].
  destruct (finv_spec _ He Hne') as (Hie & _ & _).
  rewrite GF256_mul_field by auto using fmul_byte.
  apply IH.
  - intros x Hx. apply Hl. now right.
  - auto using fmul_byte.
Qed.

Section Interpolation.

Variable points : list (Z * Z).
Hypothesis Hbytes : points_are_bytes points.
Hypothesis Hdistinct : NoDup (map fst points).

Variables (i : nat) (xi yi : Z).
Hypothesis Hi : nth_error points i = Some (xi, yi).

Let others : list Z := map fst (skip_index i points).
Let denominators : list Z := map (fun xj => Z.lxor xj xi) others.

Lemma point_bytes : is_byte xi /\ is_byte yi.
Proof. apply nth_error_In in Hi. exact (Hbytes _ Hi). Qed.

Lemma others_bytes x : In x others -> is_byte x /\ x <> xi.
Proof.
  unfold others. intros Hin. split.
  - apply in_map_iff in Hin as [p [<- Hp]]. apply in_skip_index in Hp.
    apply Hbytes, Hp.
  - intros ->. revert Hin. rewrite <- skip_index_map.
    apply NoDup_skip_index; [exact Hdistinct|].
    rewrite nth_error_map, Hi. reflexivity.
Qed.

Lemma denominators_bytes x : In x denominators -> is_byte x /\ x <> 0.
Proof.
  unfold denominators. intros Hin. apply in_map_iff in Hin as [xj [<- Hxj]].
  destruct (others_bytes xj Hxj) as [Hb Hne]. destruct point_bytes as [Hxi _].
  split; [now apply lxor_byte|now apply lxor_nonzero].
Qed.

Lemma numerator_byte : is_byte (fprod others).
Proof. apply fold_fmul_byte; [apply others_bytes|apply byte_one]. Qed.

Lemma denominator_byte : is_byte (fprod denominators) /\ fprod denominators <> 0.
Proof.
  split.
  - apply fold_fmul_byte; [apply denominators_bytes|apply byte_one].
  - apply fold_fmul_nonzero; [apply denominators_bytes|apply byte_one|discriminate].
Qed.

Lemma lagrange_term_byte : is_byte (lagrange_term points i xi yi).
Proof.
  unfold lagrange_term. fold others. fold denominators.
  destruct point_bytes as [_ Hyi]. destruct denominator_byte as [Hd Hnd].
  destruct (finv_spec _ Hd Hnd) as (Hinv & _ & _).
  pose proof numerator_byte. auto using fmul_byte.
Qed.

(** The body of the outer loop of the service. *)
Lemma service_step r :
  is_byte r ->
  (if strict_eq (Num yi) (Num 0) then Return (Num r)
   else
     let '(numerator, denominator) :=
       fold_left
         (fun '(numerator, denominator) '(j, (xj, _)) =>
            if (i =? j)%nat then (numerator, denominator)
            else (gf256.mul numerator xj, gf256.mul denominator (bxor xj (Num xi))))
         (indexed (js_points points)) (Num 1, Num 1) in
     do quotient <- gf256.div numerator denominator ;;
     let term := gf256.mul (Num yi) quotient in
     Return (bxor (Num r) term))
  = Return (Num (Z.lxor r (lagrange_term points i xi yi))).
Proof.
  intros Hr. destruct point_bytes as [Hxi Hyi].
  destruct denominator_byte as [Hd Hnd]. pose proof numerator_byte as Hn.
  destruct (finv_spec _ Hd Hnd) as (Hinv & _ & _).
  simpl strict_eq. destruct (yi =? 0) eqn:Ey.
  - apply Z.eqb_eq in Ey. unfold lagrange_term. fold others. fold denominators.
    rewrite (fmul_zero yi) by auto using fmul_byte.
    now rewrite Z.lxor_0_r.
  - unfold indexed.
    rewrite (fold_left_skip i _
               (fun (acc : jsval * jsval) (p : jsval * jsval) =>
                  let '(numerator, denominator) := acc in
                  let '(xj, _) := p in
                  (gf256.mul numerator xj, gf256.mul denominator (bxor xj (Num xi)))));
      [|intros [n d] j [xj yj]; reflexivity].
    change (i <? 0)%nat with false. cbv iota. rewrite Nat.sub_0_r.
    unfold js_points at 1. rewrite skip_index_map. fold (js_points (skip_index i points)).
    rewrite service_inner;
      [|exact Hxi|intros x Hx; now apply others_bytes|apply byte_one|apply byte_one].
    fold others. fold denominators. fold (fprod others). fold (fprod denominators).
    rewrite gf256_div_field by assumption. cbn [bind].
    rewrite gf256_mul_field by auto using fmul_byte.
    rewrite bxor_bytes by auto using fmul_byte.
    reflexivity.
Qed.

(** The body of the outer loop of [test.js]. *)
Lemma test_step fuel r :
  (inverse_fuel <= fuel)%nat -> is_byte r ->
  (do basis <-
     foldM
       (fun basis '(j, (xj, _)) =>
          if (i =? j)%nat then Return basis
          else
            let num := xj in
            let denom := GF256.sub (Num xi) xj in
            if strict_eq denom (Num 0) then Throw (DuplicateX (Num xi) xj)
            else
              do term <- GF256.div fuel num denom ;;
              Return (GF256.mul basis term))
       (indexed (js_points points)) (Num 1) ;;
   let term := GF256.mul (Num yi) basis in
   Return (GF256.add (Num r) term))
  = Return (Num (Z.lxor r (lagrange_term points i xi yi))).
Proof.
  intros Hfuel Hr. destruct point_bytes as [Hxi Hyi].
  destruct denominator_byte as [Hd Hnd]. pose proof numerator_byte as Hn.
  destruct (finv_spec _ Hd Hnd) as (Hinv & _ & _).
  unfold indexed.
  rewrite (foldM_skip i _
             (fun (basis : jsval) (p : jsval * jsval) =>
                let '(xj, _) := p in
                let num := xj in
                let denom := GF256.sub (Num xi) xj in
                if strict_eq denom (Num 0) then Throw (DuplicateX (Num xi) xj)
                else do term <- GF256.div fuel num denom ;; Return (GF256.mul basis term)));
    [|intros b j [xj yj]; reflexivity].
  change (i <? 0)%nat with false. cbv iota. rewrite Nat.sub_0_r.
  unfold js_points at 1. rewrite skip_index_map. fold (js_points (skip_index i points)).
  rewrite test_inner;
    [|exact Hfuel|exact Hxi|intros x Hx; now apply others_bytes|apply byte_one].
  fold others. cbn [bind].
  replace 1 with (fmul 1 (finv 1)) at 1
    by (rewrite finv_1; apply fmul_1_l, byte_one).
  rewrite basis_is_quotient;
    [|exact Hxi|apply others_bytes|apply byte_one|apply byte_one|discriminate].
  fold denominators. fold (fprod others). fold (fprod denominators).
  rewrite GF256_mul_field by auto using fmul_byte.
  unfold GF256.add. rewrite bxor_bytes by auto using fmul_byte.
  reflexivity.
Qed.

End Interpolation.

Lemma service_lagrange points :
  points_are_bytes points -> NoDup (map fst points) ->
  improved_crypto.lagrangeInterpolation (js_points points)
  = Return (Num (lagrange_at_0 points))
  /\ is_byte (lagrange_at_0 points).
Proof.
  intros Hbytes Hdistinct. unfold improved_crypto.lagrangeInterpolation, lagrange_at_0.
  match goal with
  | |- foldM ?g _ _ = _ /\ _ =>
      pose proof
        (foldM_map_bytes
           (fun e : nat * (Z * Z) => (fst e, (Num (fst (snd e)), Num (snd (snd e)))))
           g
           (fun r e => Z.lxor r (lagrange_term points (fst e) (fst (snd e)) (snd (snd e))))
           (indexed points)) as H
  end.
  rewrite <- indexed_js_points in H. apply H; [|apply byte_zero].
  intros r [i [xi yi]] Hin Hr. unfold indexed in Hin.
  apply in_indexed_nth in Hin as [_ Hi]. rewrite Nat.sub_0_r in Hi.
  cbn [fst snd]. split.
  - exact (service_step points Hbytes Hdistinct i xi yi Hi r Hr).
  - apply lxor_byte; [exact Hr|].
    exact (lagrange_term_byte points Hbytes Hdistinct i xi yi Hi).
Qed.

Lemma test_lagrange fuel points :
  points <> [] -> points_are_bytes points -> NoDup (map fst points) ->
  (inverse_fuel <= fuel)%nat ->
  test_js.lagrangeInterpolation fuel (js_points points)
  = Return (Num (lagrange_at_0 points)).
Proof.
  intros Hne Hbytes Hdistinct Hfuel. unfold test_js.lagrangeInterpolation, lagrange_at_0.
  replace (length (js_points points) =? 0)%nat with false
    by (destruct points; [congruence|reflexivity]).
  match goal with
  | |- foldM ?g _ _ = _ =>
      pose proof
        (foldM_map_bytes
           (fun e : nat * (Z * Z) => (fst e, (Num (fst (snd e)), Num (snd (snd e)))))
           g
           (fun r e => Z.lxor r (lagrange_term points (fst e) (fst (snd e)) (snd (snd e))))
           (indexed points)) as H
  end.
  rewrite <- indexed_js_points in H. apply H; [|apply byte_zero].
  intros r [i [xi yi]] Hin Hr. unfold indexed in Hin.
  apply in_indexed_nth in Hin as [_ Hi]. rewrite Nat.sub_0_r in Hi.
  cbn [fst snd]. split.
  - exact (test_step points Hbytes Hdistinct i xi yi Hi fuel r Hfuel Hr).
  - apply lxor_byte; [exact Hr|].
    exact (lagrange_term_byte points Hbytes Hdistinct i xi yi Hi).
Qed.




Import improved_crypto.

(** ** [createShares]: validation *)


(** The pass over the first byte fills the slots 0..n-1 in order, one
    share per index 1..n. *)
Lemma record_first_pass (y : Z -> jsval) n :
  fold_left (fun shares x => record_y shares x (y x)) (map Z.of_nat (seq 1 n)) []
  = map (fun k => {| raw_x := Z.of_nat k; raw_y := [y (Z.of_nat k)] |}) (seq 1 n).
Proof.
  induction n as [|n IH]; [reflexivity|].
  rewrite seq_S, !map_app, fold_left_app, IH. cbn [map fold_left].
  unfold record_y. replace (Z.to_nat (Z.of_nat (1 + n) - 1)) with n by lia.
  assert (E : nth_error
                (map (fun k => {| raw_x := Z.of_nat k; raw_y := [y (Z.of_nat k)] |})
                   (seq 1 n)) n = None)
    by (apply nth_error_None; rewrite length_map, length_seq; lia).
  now rewrite E.
Qed.


Lemma getRandomValues_returns random call len :
  Z.of_nat len <= 65536 ->
  getRandomValues random call len
  = Return (map (fun i => ToUint8 (Num (random call i))) (seq 0 len)).
Proof.
  intros H. unfold getRandomValues.
  destruct (65536 <? Z.of_nat len) eqn:E; [apply Z.ltb_lt in E; lia|reflexivity].
Qed.

Lemma indexed_length {A} (l : list A) : length (indexed l) = length l.
Proof. unfold indexed. rewrite length_combine, length_seq. lia. Qed.

Section CreateShares.

Variable TextEncoder_encode : string -> list Z.
Variable random : nat -> nat -> Z.
Variable uuidv4 : nat -> string.
Variables totalShares threshold : Z.
Hypothesis Hthreshold : 2 <= threshold <= 65537.

(** The body of the loop over the bytes of the secret. *)
Let step (shares : list RawShare) (e : nat * Z) : completion (list RawShare) :=
  let '(byteIndex, secretByte) := e in
  do randoms <- getRandomValues random byteIndex (Z.to_nat threshold - 1) ;;
  let coeffs := ToUint8 (Num secretByte) :: randoms in
  Return
    (fold_left
       (fun shares x => record_y shares x (evaluatePolynomial coeffs (Num x)))
       (map Z.of_nat (seq 1 (Z.to_nat totalShares)))
       shares).


End CreateShares.




(** ** [combineShares]: what is read from the shares *)

Lemma combineShares_unfold dec shares :
  combineShares dec shares
  = rethrow CombineSharesFailed
      (do r <- reconstruct shares ;; dec (fst r) (snd r)).
Proof. reflexivity. Qed.





(** ** [combineShares]: the share format *)

Lemma length_substring n m s :
  String.length (substring n m s) = Nat.min m (String.length s - n).
Proof.
  revert n m. induction s as [|c s IH]; intros n m.
  - destruct n, m; reflexivity.
  - destruct n as [|n].
    + destruct m as [|m]; [reflexivity|]. simpl. now rewrite IH, Nat.sub_0_r.
    + simpl. apply IH.
Qed.

Lemma hexToBytes_odd hex :
  Nat.odd (String.length hex) = true -> hexToBytes hex = Return [].
Proof.
  intros H. unfold hexToBytes.
  assert (E : (String.length hex mod 2 =? 0)%nat = false).
  { apply Nat.eqb_neq. intros Hm.
    apply Nat.Div0.mod_divides in Hm as [k Hk].
    rewrite Hk, Nat.odd_mul in H. discriminate. }
  rewrite E. now rewrite orb_true_r.
Qed.

Lemma hexToBytes_empty : hexToBytes "" = Return [].
Proof. reflexivity. Qed.

Lemma prefix_length p s : String.prefix p s = true -> (String.length p <= String.length s)%nat.
Proof.
  revert s. induction p as [|c p IH]; intros s H; [simpl; lia|].
  destruct s as [|d s]; [discriminate|]. simpl in *.
  destruct (ascii_dec c d); [|discriminate]. apply IH in H. lia.
Qed.

Lemma decodeShare_odd s :
  String.prefix "80" s = true -> Nat.odd (String.length s) = true ->
  decodeShare (Serialized s)
  = Return {| x := parseInt16 (substring_range 2 4 s); y := [] |}.
Proof.
  intros Hp Hodd. unfold decodeShare. rewrite Hp. cbn [negb].
  assert (E : hexToBytes (substring_from 4 s) = Return []).
  { unfold substring_from.
    destruct (Nat.le_gt_cases 4 (String.length s)) as [Hlen|Hlen].
    - apply hexToBytes_odd. rewrite length_substring, Nat.min_id.
      replace (String.length s) with (String.length s - 4 + 4)%nat in Hodd by lia.
      rewrite Nat.odd_add in Hodd. simpl (Nat.odd 4) in Hodd.
      now rewrite xorb_false_r in Hodd.
    - replace (String.length s - 4)%nat with O by lia.
      replace (substring 4 0 s) with "" ; [reflexivity|].
      clear. pose proof (length_substring 4 0 s) as H. simpl in H.
      destruct (substring 4 0 s); [reflexivity|discriminate]. }
  rewrite E. reflexivity.
Qed.

Lemma decodeShare_no_OutOfFuel v : decodeShare v <> OutOfFuel.
Proof.
  destruct v as [s|]; simpl; [|discriminate].
  destruct (negb (String.prefix "80" s)); [discriminate|].
  unfold hexToBytes.
  destruct ((String.length (substring_from 4 s) =? 0)%nat
            || negb (String.length (substring_from 4 s) mod 2 =? 0)%nat);
    [discriminate|].
  destruct (match_dot12 (substring_from 4 s)); discriminate.
Qed.

Lemma mapM_throws {A B} (f : A -> completion B) (l : list A) a e :
  (forall a', f a' <> OutOfFuel) -> In a l -> f a = Throw e ->
  exists e', mapM f l = Throw e'.
Proof.
  intros Hf. induction l as [|a' l IH]; intros Hin Ha; [destruct Hin|].
  cbn [mapM]. destruct Hin as [->|Hin].
  - rewrite Ha. eauto.
  - destruct (f a') as [b|e'|] eqn:E; cbn [bind]; [|eauto|now apply Hf in E].
    destruct (IH Hin Ha) as [e' E']. rewrite E'. eauto.
Qed.

Lemma mapM_first_throw {A B} (f : A -> completion B) (pre post : list A) a e :
  Forall (fun p => exists b, f p = Return b) pre -> f a = Throw e ->
  mapM f (pre ++ a :: post)%list = Throw e.
Proof.
  intros Hpre Ha. induction Hpre as [|p pre [b Hb] _ IH]; cbn [app mapM].
  - now rewrite Ha.
  - rewrite Hb. cbn [bind]. now rewrite IH.
Qed.

(** C6 (amended). A share string that does not start with ["80"] makes
    the decoding fail with the format error, and [combineShares] then
    throws instead of returning a secret; what it throws is that format
    error when every share before the offending one decodes. A string
    that starts with ["80"] and has odd length is not rejected: it
    decodes to a share with an empty [y]. *)
Theorem C6_share_format
    (TextDecoder_decode : string -> list Z -> completion string)
    (shares : list Share) (s : string) :
  In (Serialized s) (map shareValueOf shares) ->
  (String.prefix "80" s = false ->
   decodeShare (Serialized s) = Throw InvalidShareFormat
   /\ (exists e, combineShares TextDecoder_decode shares = Throw (CombineSharesFailed e))
   /\ (forall (pre : list Share) (share : Share) (post : list Share),
         shares = (pre ++ share :: post)%list ->
         shareValueOf share = Serialized s ->
         Forall (fun p => exists d, decodeShare (shareValueOf p) = Return d) pre ->
         combineShares TextDecoder_decode shares
         = Throw (CombineSharesFailed InvalidShareFormat)))
  /\ (String.prefix "80" s = true -> Nat.odd (String.length s) = true ->
      decodeShare (Serialized s)
      = Return {| x := parseInt16 (substring_range 2 4 s); y := [] |}).
Proof.
  intros Hin. split.
  - intros Hp.
    assert (Hd : decodeShare (Serialized s) = Throw InvalidShareFormat)
      by (unfold decodeShare; now rewrite Hp).
    split; [exact Hd|]. split.
    + destruct (mapM_throws decodeShare _ _ _ decodeShare_no_OutOfFuel Hin Hd) as [e E].
      exists e. rewrite combineShares_unfold. unfold reconstruct.
      destruct shares as [|first rest]; [destruct Hin|].
      rewrite E. reflexivity.
    + intros pre share post -> Hs Hpre.
      rewrite combineShares_unfold. unfold reconstruct.
      assert (E : mapM decodeShare (map shareValueOf (pre ++ share :: post)%list)
                  = Throw InvalidShareFormat).
      { rewrite map_app. cbn [map]. rewrite Hs.
        apply mapM_first_throw; [|exact Hd].
        clear -Hpre. induction Hpre; constructor; auto. }
      destruct (pre ++ share :: post)%list as [|first rest] eqn:El;
        [destruct pre; discriminate|].
      rewrite E. reflexivity.
  - apply decodeShare_odd.
Qed.

Lemma C6_witness :
  (decodeShare (Serialized "7f0141") = Throw InvalidShareFormat
   /\ (exists e,
         combineShares example.TextDecoder_decode
           [ShareString "800103"; ShareString "7f0141"]
         = Throw (CombineSharesFailed e))
   /\ (forall (pre : list Share) (share : Share) (post : list Share),
         [ShareString "800103"; ShareString "7f0141"] = (pre ++ share :: post)%list ->
         shareValueOf share = Serialized "7f0141" ->
         Forall (fun p => exists d, decodeShare (shareValueOf p) = Return d) pre ->
         combineShares example.TextDecoder_decode
           [ShareString "800103"; ShareString "7f0141"]
         = Throw (CombineSharesFailed InvalidShareFormat)))
  /\ decodeShare (Serialized "80011")
     = Return {| x := parseInt16 (substring_range 2 4 "80011"); y := [] |}.
Proof.
  split.
  - apply (C6_share_format example.TextDecoder_decode
             [ShareString "800103"; ShareString "7f0141"] "7f0141");
      [simpl; auto|reflexivity].
  - apply (C6_share_format example.TextDecoder_decode [ShareString "80011"] "80011");
      [simpl; auto|reflexivity|reflexivity].
Defined.

(** An odd-length share is accepted: alone it reconstructs the empty
    secret, and next to a well-formed share it still yields a secret. *)
Lemma C6_counterexample :
  Nat.odd (String.length "80011") = true
  /\ decodeShare (Serialized "80011") = Return {| x := Num 1; y := [] |}
  /\ combineShares example.TextDecoder_decode [ShareString "80011"] = Return ""
  /\ combineShares example.TextDecoder_decode [ShareString "800141"; ShareString "80021"]
     = Return "~".
Proof. repeat split; reflexivity. Qed.

(** ** [combineShares]: duplicated points and the round trip *)

(** C3. Two shares with the same x coordinate go undetected when their
    y bytes are 0: the service skips every point whose [y] is 0 before
    it divides, so no division by zero is hit and the byte 0 is handed
    to the decoder; the interpolation of [test.js] rejects the same
    input with its duplicate-point error. *)
Theorem C3_duplicate_x_accepted_by_service
    (TextDecoder_decode : string -> list Z -> completion string) (fuel : nat) :
  combineShares TextDecoder_decode [ShareString "800100"; ShareString "800100"]
  = rethrow CombineSharesFailed (TextDecoder_decode "utf-8" [0])
  /\ test_js.combineShares TextDecoder_decode fuel
       [ShareString "800100"; ShareString "800100"]
     = Throw (CombineSharesFailed (DuplicateX (Num 1) (Num 1))).
Proof. split; reflexivity. Qed.

Example duplicate_x_returns_a_secret :
  combineShares example.TextDecoder_decode [ShareString "800100"; ShareString "800100"]
  = Return (String (ascii_of_nat 0) "").
Proof. reflexivity. Qed.

Example duplicate_x_nonzero_y_divides_by_zero :
  combineShares example.TextDecoder_decode [ShareString "800141"; ShareString "800141"]
  = Throw (CombineSharesFailed DivisionByZero).
Proof. reflexivity. Qed.

Lemma gf256_mul_0_r a : gf256.mul a (Num 0) = Num 0.
Proof.
  unfold gf256.mul.
  assert (H : forall n, exists a', Nat.iter n gf256.mul_body (Num 0, a, Num 0)
                                   = (Num 0, a', Num 0)).
  { induction n as [|n [a' IH]]; [now exists a|].
    rewrite Nat.iter_succ, IH. unfold gf256.mul_body.
    change (band (Num 0) (Num 1)) with (Num 0).
    change (sar (Num 0) (Num 1)) with (Num 0).
    cbn [strict_eq Z.eqb negb]. eauto. }
  destruct (H 8%nat) as [a' ->]. reflexivity.
Qed.

(** The polynomial that [createShares] evaluates takes, at 0, the value
    of its last coefficient. *)
Lemma evaluatePolynomial_at_0 (coeffs : list Z) (c : Z) :
  coeffs <> [] -> is_byte c ->
  evaluatePolynomial (coeffs ++ [c])%list (Num 0) = Num c.
Proof.
  intros Hne Hc. unfold evaluatePolynomial.
  rewrite length_app. cbn [length].
  replace (length coeffs + 1 - 1)%nat with (S (length coeffs - 1))
    by (destruct coeffs; [congruence|simpl; lia]).
  rewrite seq_S, fold_left_app. cbn [fold_left].
  rewrite gf256_mul_0_r.
  replace (1 + (length coeffs - 1))%nat with (length coeffs)
    by (destruct coeffs; [congruence|simpl; lia]).
  assert (E : index (coeffs ++ [c])%list (Num (Z.of_nat (length coeffs))) = Num c).
  { unfold index.
    replace (Z.of_nat (length coeffs) <? 0) with false by (symmetry; apply Z.ltb_ge; lia).
    rewrite Nat2Z.id, nth_error_app2, Nat.sub_diag by lia. reflexivity. }
  rewrite E. change (Num 0) with (Num 0). rewrite bxor_bytes by (auto using byte_zero).
  now rewrite Z.lxor_0_l.
Qed.

(** C1. The round trip fails. The polynomial is evaluated with
    [coeffs[0]], the secret byte, as its leading coefficient, so its
    value at 0, which [combineShares] interpolates, is the last random
    coefficient: with a random source that delivers 0x42, 0x43 (the
    letters B, C) for each byte, the secret "A" comes back as "B" from
    every two of three shares at threshold 2, in either order, and as
    "C" from the first three and from the last three of five shares at
    threshold 3. *)
Theorem C1_round_trip_returns_random_coefficient :
  (exists s1 s2 s3,
     createShares example.TextEncoder_encode example.random example.uuidv4 "A" 3 2
     = Return [s1; s2; s3]
     /\ Forall
          (fun subset => combineShares example.TextDecoder_decode subset = Return "B")
          [[s1; s2]; [s2; s1]; [s1; s3]; [s3; s1]; [s2; s3]; [s3; s2]])
  /\ (exists shares,
        createShares example.TextEncoder_encode example.random example.uuidv4 "A" 5 3
        = Return shares
        /\ combineShares example.TextDecoder_decode (firstn 3 shares) = Return "C"
        /\ combineShares example.TextDecoder_decode (skipn 2 shares) = Return "C")
  /\ (forall (secretByte : Z) (randoms : list Z) (last : Z),
        0 <= last <= 255 ->
        evaluatePolynomial (secretByte :: randoms ++ [last])%list (Num 0) = Num last).
Proof.
  split; [|split].
  - do 3 eexists. split; [vm_compute; reflexivity|].
    repeat constructor; vm_compute; reflexivity.
  - eexists. split; [vm_compute; reflexivity|]. split; vm_compute; reflexivity.
  - intros secretByte randoms last Hlast.
    change (secretByte :: randoms ++ [last])%list
      with ((secretByte :: randoms) ++ [last])%list.
    apply evaluatePolynomial_at_0; [discriminate|exact Hlast].
Qed.

(** [test.js] returns [coeffs[0]] for [x = 0] by a special case, which
    is the constant term its comments describe; its loop, like the one
    of the service, puts [coeffs[0]] in front of the highest power. *)
Example test_js_special_case_at_0 :
  test_js.evaluatePolynomial [0x41; 0x42] (Num 0) = Num 0x41
  /\ evaluatePolynomial [0x41; 0x42] (Num 0) = Num 0x42
  /\ test_js.evaluatePolynomial [0x41; 0x42] (Num 2)
     = bxor (gf256.mul (Num 0x41) (Num 2)) (Num 0x42).
Proof. repeat split; reflexivity. Qed.

Import keystore.

(** ** Key derivation *)

Lemma length_append (s1 s2 : string) :
  String.length (s1 ++ s2) = (String.length s1 + String.length s2)%nat.
Proof. induction s1 as [|c s1 IH]; simpl; [reflexivity|now rewrite IH]. Qed.

Lemma hex2_length : forall b, is_byte b ->
  String.length (padStart2 (toString16 b)) = 2%nat.
Proof.
  assert (H : forall_bytes
                (fun b => (String.length (padStart2 (toString16 b)) =? 2)%nat) = true)
    by (vm_compute; reflexivity).
  intros b Hb. apply Nat.eqb_eq. exact (forall_bytes_elim _ H b Hb).
Qed.

Lemma hex_length (bytes : list Z) :
  (forall b, In b bytes -> is_byte b) ->
  String.length (String.concat "" (map (fun b => padStart2 (toString16 b)) bytes))
  = (2 * length bytes)%nat.
Proof.
  induction bytes as [|b bytes IH]; intros H; [reflexivity|].
  assert (Hb : is_byte b) by (apply H; now left).
  assert (Hrest : forall b', In b' bytes -> is_byte b') by (intros; apply H; now right).
  cbn [map String.concat length].
  destruct bytes as [|b' bytes'].
  - simpl. rewrite hex2_length by exact Hb. reflexivity.
  - change (map (fun b => padStart2 (toString16 b)) (b' :: bytes'))
      with (padStart2 (toString16 b') :: map (fun b => padStart2 (toString16 b)) bytes').
    cbv iota. rewrite !length_append.
    change (padStart2 (toString16 b') :: map (fun b => padStart2 (toString16 b)) bytes')
      with (map (fun b => padStart2 (toString16 b)) (b' :: bytes')).
    rewrite (IH Hrest), hex2_length by exact Hb. simpl. lia.
Qed.

Lemma ToUint8_byte v : is_byte (ToUint8 v).
Proof.
  unfold is_byte. destruct v as [n| |]; simpl; [|lia|lia].
  pose proof (Z.mod_pos_bound n 256). lia.
Qed.

(** C8. For every password and every 16-byte salt the fallback
    derivation returns one record [k], fixed by the password and the
    salt alone: any two runs resolve to it, its key is 64 hexadecimal
    characters (32 bytes) and its salt 32 (16 bytes), and it is also what
    [deriveKeyFromPassword] resolves to on its fallback path, whatever
    the state of the world at the time of the call. *)
Theorem C8_fallback_derivation_is_deterministic
    (CryptoKey : Type) (password : string) (salt : list Z) :
  length salt = 16%nat ->
  (forall b, In b salt -> 0 <= b <= 255) ->
  exists k : DerivedKey CryptoKey,
    (forall run1 run2 : completion (DerivedKey CryptoKey),
       run1 = fallbackDeriveKey password (Some salt) ->
       run2 = fallbackDeriveKey password (Some salt) ->
       run1 = Return k /\ run2 = Return k)
    /\ String.length (key k) = 64%nat
    /\ String.length (keystore.salt k) = 32%nat
    /\ derivedKey k = None
    /\ (forall TextEncoder_encode provider subtle_deriveKey subtle_exportKey random
               (w1 w2 : World),
          provider <> WebCrypto ->
          fst (deriveKeyFromPassword TextEncoder_encode provider CryptoKey
                 subtle_deriveKey subtle_exportKey random password (Some salt) w1)
          = Return k
          /\ fst (deriveKeyFromPassword TextEncoder_encode provider CryptoKey
                    subtle_deriveKey subtle_exportKey random password (Some salt) w2)
             = Return k).
Proof.
  intros Hlen Hbytes. unfold fallbackDeriveKey. eexists.
  split; [intros run1 run2 -> ->; split; reflexivity|].
  split; [|split; [|split]].
  - cbn [key]. rewrite hex_length.
    + now rewrite length_map, length_seq.
    + intros b Hb. apply in_map_iff in Hb as [i [<- _]]. apply ToUint8_byte.
  - cbn [keystore.salt]. rewrite hex_length by exact Hbytes. now rewrite Hlen.
  - reflexivity.
  - intros enc provider sdk sek random w1 w2 Hp.
    unfold deriveKeyFromPassword, fallbackDeriveKey.
    destruct provider; [| |congruence]; split; reflexivity.
Qed.

Lemma C8_witness :
  exists k : DerivedKey unit,
    (forall run1 run2 : completion (DerivedKey unit),
       run1 = fallbackDeriveKey "pw1" (Some example.salt16) ->
       run2 = fallbackDeriveKey "pw1" (Some example.salt16) ->
       run1 = Return k /\ run2 = Return k)
    /\ String.length (key k) = 64%nat
    /\ String.length (keystore.salt k) = 32%nat
    /\ derivedKey k = None
    /\ (forall TextEncoder_encode provider subtle_deriveKey subtle_exportKey random
               (w1 w2 : World),
          provider <> WebCrypto ->
          fst (deriveKeyFromPassword TextEncoder_encode provider unit
                 subtle_deriveKey subtle_exportKey random "pw1" (Some example.salt16) w1)
          = Return k
          /\ fst (deriveKeyFromPassword TextEncoder_encode provider unit
                    subtle_deriveKey subtle_exportKey random "pw1"
                    (Some example.salt16) w2)
             = Return k).
Proof.
  apply (C8_fallback_derivation_is_deterministic unit "pw1" example.salt16).
  - reflexivity.
  - intros b Hb. unfold example.salt16 in Hb.
    repeat (destruct Hb as [<-|Hb]; [lia|]). destruct Hb.
Defined.

(** ** The tiered store *)

Section Store.

Variable toISOString : nat -> string.
Variable idb_outcome : nat -> IDBOutcome.

Lemma saveToIndexedDB_failing key data w :
  idb_outcome (idb_uses w) <> RequestSuccess ->
  exists w',
    saveToIndexedDB toISOString idb_outcome key data w = (Return false, w')
    /\ idb_store w' = idb_store w
    /\ _secureBackupStorage w' = _secureBackupStorage w.
Proof.
  intros H. unfold saveToIndexedDB.
  destruct (idb_outcome (idb_uses w)); try congruence; eexists; split; reflexivity || auto.
Qed.

Lemma saveToSecureStorage_failing key data w :
  idb_outcome (idb_uses w) <> RequestSuccess ->
  exists w',
    saveToSecureStorage toISOString idb_outcome key data w = (Return true, w')
    /\ idb_store w' = idb_store w
    /\ exists table, _secureBackupStorage w' = Some table /\ table !! key = Some data.
Proof.
  intros H. destruct (saveToIndexedDB_failing key data w H) as (w1 & E & Hs & Hb).
  unfold saveToSecureStorage, bindM. rewrite E.
  unfold getSecureBackupStorage. rewrite Hb.
  destruct (_secureBackupStorage w) as [table|]; cbn.
  - eexists. split; [reflexivity|]. split; [exact Hs|].
    eexists. split; [reflexivity|]. apply lookup_insert_eq.
  - eexists. split; [reflexivity|]. split; [exact Hs|].
    eexists. split; [reflexivity|]. apply lookup_insert_eq.
Qed.

(** What [getFromSecureStorage] resolves to: the durable record when
    the read succeeds and finds one, else the entry of the table. *)
Lemma getFromSecureStorage_spec key w :
  fst (getFromSecureStorage idb_outcome key w)
  = Return
      (match idb_outcome (idb_uses w), idb_store w !! key with
       | RequestSuccess, Some entry => Some (data entry)
       | _, _ =>
           match _secureBackupStorage w with
           | Some table => table !! key
           | None => None
           end
       end).
Proof.
  unfold getFromSecureStorage, try_catch, bindM, getFromIndexedDB, getSecureBackupStorage.
  destruct (idb_outcome (idb_uses w)); cbn;
    try (destruct (_secureBackupStorage w) as [table|]; cbn;
         [destruct (table !! key); reflexivity|reflexivity]).
  destruct (idb_store w !! key) as [entry|]; cbn; [reflexivity|].
  destruct (_secureBackupStorage w) as [table|]; cbn;
    [destruct (table !! key); reflexivity|reflexivity].
Qed.


End Store.




(** * Further properties of the code *)

(** ** Hexadecimal text: [bytesToHex] and [hexToBytes] *)

Lemma hex_pair_check_all : forall_bytes hex_pair_check = true.
Proof. vm_compute. reflexivity. Qed.

Lemma hex_pair b :
  is_byte b ->
  exists c d,
    padStart2 (toString16 b) = String c (String d "")
    /\ isLineTerminator c = false /\ isLineTerminator d = false
    /\ parseInt16 (String c (String d "")) = Num b.
Proof.
  intros Hb. pose proof (forall_bytes_elim _ hex_pair_check_all b Hb) as H.
  unfold hex_pair_check in H.
  destruct (padStart2 (toString16 b)) as [|c [|d [|e s]]]; try discriminate.
  apply andb_prop in H as [H H3]. apply andb_prop in H as [H1 H2].
  exists c, d. repeat split.
  - now apply negb_true_iff.
  - now apply negb_true_iff.
  - now apply jsval_eqb_eq.
Qed.

Lemma concat_empty_cons (s : string) (l : list string) :
  String.concat "" (s :: l) = s ++ String.concat "" l.
Proof.
  destruct l as [|s' l]; cbn [String.concat]; [|reflexivity].
  induction s as [|c s IH]; [reflexivity|].
  change (String c s ++ "") with (String c (s ++ "")). now rewrite <- IH.
Qed.

Lemma bytesToHex_cons b bytes :
  bytesToHex (b :: bytes) = padStart2 (toString16 b) ++ bytesToHex bytes.
Proof. unfold bytesToHex. cbn [map]. apply concat_empty_cons. Qed.

Lemma dot12_chunks_bytesToHex bytes :
  (forall b, In b bytes -> is_byte b) ->
  dot12_chunks (bytesToHex bytes) = map (fun b => padStart2 (toString16 b)) bytes.
Proof.
  induction bytes as [|b bytes IH]; intros H; [reflexivity|].
  rewrite bytesToHex_cons. cbn [map].
  destruct (hex_pair b (H b (or_introl eq_refl))) as (c & d & E & Hc & Hd & _).
  rewrite E.
  change (String c (String d "") ++ bytesToHex bytes)
    with (String c (String d (bytesToHex bytes))).
  cbn [dot12_chunks]. rewrite Hc, Hd.
  f_equal. apply IH. intros b' Hb'. apply H. now right.
Qed.

Lemma ToUint8_Num_byte b : is_byte b -> ToUint8 (Num b) = b.
Proof. intros [H1 H2]. simpl. apply Z.mod_small. lia. Qed.

Lemma parse_hex_pairs bytes :
  (forall b, In b bytes -> is_byte b) ->
  map (fun byte => ToUint8 (parseInt16 byte))
    (map (fun b => padStart2 (toString16 b)) bytes) = bytes.
Proof.
  induction bytes as [|b bytes IH]; intros H; [reflexivity|].
  cbn [map]. rewrite IH by (intros b' Hb'; apply H; now right).
  f_equal.
  destruct (hex_pair b (H b (or_introl eq_refl))) as (c & d & E & _ & _ & Ep).
  rewrite E, Ep. apply ToUint8_Num_byte, H. now left.
Qed.

Lemma bytesToHex_length bytes :
  (forall b, In b bytes -> is_byte b) ->
  String.length (bytesToHex bytes) = (2 * length bytes)%nat.
Proof. apply hex_length. Qed.

Lemma hexToBytes_bytesToHex bytes :
  (forall b, In b bytes -> is_byte b) ->
  hexToBytes (bytesToHex bytes) = Return bytes.
Proof.
  intros H. destruct bytes as [|b bytes]; [reflexivity|].
  unfold hexToBytes. rewrite bytesToHex_length by exact H.
  replace ((2 * length (b :: bytes))%nat =? 0)%nat with false
    by (symmetry; apply Nat.eqb_neq; simpl; lia).
  replace ((2 * length (b :: bytes)) mod 2 =? 0)%nat with true
    by (symmetry; apply Nat.eqb_eq; rewrite Nat.mul_comm; apply Nat.Div0.mod_mul).
  cbn [orb negb]. unfold match_dot12.
  rewrite dot12_chunks_bytesToHex by exact H. cbn [map].
  f_equal. exact (parse_hex_pairs (b :: bytes) H).
Qed.

Lemma dot12_chunks_shape n :
  forall s, (String.length s < n)%nat ->
    (dot12_chunks s = [] <-> only_line_terminators s = true)
    /\ (2 * length (dot12_chunks s) <= String.length s + 1)%nat
    /\ (only_line_terminators s = true \/ dot12_chunks s <> []).
Proof.
  induction n as [|n IH]; intros s Hlen; [lia|].
  destruct s as [|c s]; [simpl; split; [tauto|split; [lia|auto]]|].
  cbn [dot12_chunks]. unfold only_line_terminators.
  cbn [list_ascii_of_string forallb]. fold (only_line_terminators s).
  simpl in Hlen.
  destruct (isLineTerminator c) eqn:Ec.
  - destruct (IH s ltac:(lia)) as (H1 & H2 & H3).
    cbn [andb String.length]. split; [exact H1|]. split; [lia|exact H3].
  - cbn [andb]. destruct s as [|d s].
    + split; [split; discriminate|]. split; [simpl; lia|right; discriminate].
    + simpl in Hlen. destruct (IH s ltac:(lia)) as (H1 & H2 & H3).
      destruct (isLineTerminator d);
        (split; [split; discriminate|]; split; [simpl in *; lia|right; discriminate]).
Qed.

Lemma dot12_chunks_nil s :
  dot12_chunks s = [] <-> only_line_terminators s = true.
Proof. exact (proj1 (dot12_chunks_shape (S (String.length s)) s (Nat.lt_succ_diag_r _))). Qed.

Lemma dot12_chunks_count s :
  (2 * length (dot12_chunks s) <= String.length s + 1)%nat.
Proof.
  exact (proj1 (proj2 (dot12_chunks_shape (S (String.length s)) s (Nat.lt_succ_diag_r _)))).
Qed.

Lemma hexToBytes_cases hex :
  if (String.length hex =? 0)%nat || negb (String.length hex mod 2 =? 0)%nat
  then hexToBytes hex = Return []
  else if only_line_terminators hex then hexToBytes hex = Throw TypeError
  else hexToBytes hex
       = Return (map (fun byte => ToUint8 (parseInt16 byte)) (dot12_chunks hex)).
Proof.
  unfold hexToBytes, match_dot12.
  destruct ((String.length hex =? 0)%nat || negb (String.length hex mod 2 =? 0)%nat);
    [reflexivity|].
  destruct (only_line_terminators hex) eqn:E.
  - apply dot12_chunks_nil in E. now rewrite E.
  - destruct (dot12_chunks hex) eqn:Ec; [|reflexivity].
    apply dot12_chunks_nil in Ec. congruence.
Qed.

Lemma test_hexToBytes_of_service (hex : string) :
  test_js.hexToBytes hex = match hexToBytes hex with Return bytes => bytes | _ => [] end.
Proof.
  unfold test_js.hexToBytes, hexToBytes.
  destruct ((String.length hex =? 0)%nat || negb (String.length hex mod 2 =? 0)%nat);
    [reflexivity|].
  destruct (match_dot12 hex); reflexivity.
Qed.

(** X1. [hexToBytes] inverts [bytesToHex]: an array of bytes is read
    back from its hexadecimal text, by the service and by [test.js]. *)
Theorem X1_hexToBytes_inverts_bytesToHex (bytes : list Z) :
  (forall b, In b bytes -> 0 <= b <= 255) ->
  hexToBytes (bytesToHex bytes) = Return bytes
  /\ test_js.hexToBytes (bytesToHex bytes) = bytes.
Proof.
  intros H. pose proof (hexToBytes_bytesToHex bytes H) as E.
  split; [exact E|]. rewrite test_hexToBytes_of_service. now rewrite E.
Qed.

Lemma X1_witness :
  hexToBytes (bytesToHex [0; 10; 171; 255]) = Return [0; 10; 171; 255]
  /\ test_js.hexToBytes (bytesToHex [0; 10; 171; 255]) = [0; 10; 171; 255].
Proof.
  apply (X1_hexToBytes_inverts_bytesToHex [0; 10; 171; 255]).
  intros b Hb. repeat (destruct Hb as [<-|Hb]; [lia|]). destruct Hb.
Defined.

(** X2. How [hexToBytes] fails. The service raises a [TypeError], and
    nothing else, exactly on a non-empty text of even length that
    consists of line terminators only, where [match] finds no chunk; on
    the empty text and on a text of odd length it returns the empty
    array. What it returns are bytes, at most one for two characters.
    [test.js], which guards the missing match, returns what the service
    returns and the empty array where the service throws. *)
Theorem X2_hexToBytes_failure_mode (hex : string) :
  (hexToBytes hex = Throw TypeError
   <-> hex <> "" /\ (String.length hex mod 2 = 0)%nat /\ only_line_terminators hex = true)
  /\ (hex = "" \/ (String.length hex mod 2 = 1)%nat -> hexToBytes hex = Return [])
  /\ (forall e, hexToBytes hex = Throw e -> e = TypeError)
  /\ hexToBytes hex <> OutOfFuel
  /\ (forall bytes,
        hexToBytes hex = Return bytes ->
        (forall b, In b bytes -> 0 <= b <= 255)
        /\ (2 * length bytes <= String.length hex)%nat)
  /\ test_js.hexToBytes hex
     = match hexToBytes hex with Return bytes => bytes | _ => [] end.
Proof.
  pose proof (hexToBytes_cases hex) as H.
  pose proof (test_hexToBytes_of_service hex) as Ht.
  assert (Hempty : hex = "" \/ (String.length hex mod 2 = 1)%nat ->
                   hexToBytes hex = Return []).
  { intros [->|Hodd]; [reflexivity|]. unfold hexToBytes. rewrite Hodd.
    cbn [Nat.eqb negb]. now rewrite orb_true_r. }
  destruct ((String.length hex =? 0)%nat || negb (String.length hex mod 2 =? 0)%nat) eqn:E.
  - rewrite H in *. split; [|split; [exact Hempty|split; [|split; [|split]]]];
      try discriminate; try exact Ht.
    + split; [discriminate|]. intros (Hne & Hev & _).
      apply orb_true_iff in E as [E|E].
      * apply Nat.eqb_eq in E. destruct hex; [congruence|discriminate].
      * apply negb_true_iff, Nat.eqb_neq in E. contradiction.
    + intros bytes [= <-]. split; [intros b []|simpl; lia].
  - apply orb_false_iff in E as [E1 E2].
    apply Nat.eqb_neq in E1. apply negb_false_iff, Nat.eqb_eq in E2.
    destruct (only_line_terminators hex) eqn:El; rewrite H in *.
    + split; [|split; [exact Hempty|split; [|split; [|split]]]];
      try discriminate; try exact Ht.
      * split; [intros _|reflexivity]. split; [|auto]. intros ->. now apply E1.
      * now intros e [= <-].
    + split; [|split; [exact Hempty|split; [|split; [|split]]]];
      try discriminate; try exact Ht.
      * split; [discriminate|]. intros (_ & _ & ?). discriminate.
      * intros bytes [= <-]. split.
        -- intros b Hb. apply in_map_iff in Hb as [chunk [<- _]]. apply ToUint8_byte.
        -- rewrite length_map. pose proof (dot12_chunks_count hex) as Hc.
           apply Nat.Div0.mod_divides in E2 as [k Hk]. lia.
Qed.

(** ** The text of a share *)

Lemma substring_all s : substring 0 (String.length s) s = s.
Proof. induction s as [|c s IH]; simpl; [reflexivity|now rewrite IH]. Qed.

Lemma decodeShare_encoded (k : Z) (ys : list Z) :
  is_byte k -> (forall b, In b ys -> is_byte b) ->
  decodeShare (Serialized ("80" ++ padStart2 (toString16 k) ++ bytesToHex ys))
  = Return {| x := Num k; y := ys |}.
Proof.
  intros Hk Hys.
  destruct (hex_pair k Hk) as (c & d & E & _ & _ & Ep). rewrite E.
  change ("80" ++ String c (String d "") ++ bytesToHex ys)
    with (String "8" (String "0" (String c (String d (bytesToHex ys))))).
  unfold decodeShare.
  change (String.prefix "80" (String "8" (String "0" (String c (String d (bytesToHex ys))))))
    with true.
  cbn [negb].
  change (substring_range 2 4 (String "8" (String "0" (String c (String d (bytesToHex ys))))))
    with (substring 0 2 (String c (String d (bytesToHex ys)))).
  change (substring 0 2 (String c (String d (bytesToHex ys))))
    with (String c (String d (substring 0 0 (bytesToHex ys)))).
  replace (substring 0 0 (bytesToHex ys)) with "" by (destruct (bytesToHex ys); reflexivity).
  rewrite Ep.
  unfold substring_from.
  replace (String.length (String "8" (String "0" (String c (String d (bytesToHex ys))))) - 4)%nat
    with (String.length (bytesToHex ys)) by (cbn [String.length]; lia).
  change (substring 4 (String.length (bytesToHex ys))
            (String "8" (String "0" (String c (String d (bytesToHex ys))))))
    with (substring 0 (String.length (bytesToHex ys)) (bytesToHex ys)).
  rewrite substring_all, hexToBytes_bytesToHex by exact Hys.
  reflexivity.
Qed.

Lemma test_decodeShare_of_service shareValue share :
  decodeShare shareValue = Return share -> test_js.decodeShare shareValue = Return share.
Proof.
  destruct shareValue as [s|]; [|discriminate]. unfold decodeShare, test_js.decodeShare.
  destruct (negb (String.prefix "80" s)); [discriminate|].
  rewrite test_hexToBytes_of_service.
  destruct (hexToBytes (substring_from 4 s)); cbn [bind]; congruence.
Qed.

(** X3. The text [createShares] builds for a share of index [k] at most
    255 (the marker, the index on two digits, the [y] bytes in
    hexadecimal) is decoded by [combineShares], in both files, to the
    index and the bytes it was built from. *)
Theorem X3_share_text_decodes (k : Z) (ys : list Z) :
  0 <= k <= 255 -> (forall b, In b ys -> 0 <= b <= 255) ->
  decodeShare (Serialized ("80" ++ padStart2 (toString16 k) ++ bytesToHex ys))
  = Return {| x := Num k; y := ys |}
  /\ test_js.decodeShare (Serialized ("80" ++ padStart2 (toString16 k) ++ bytesToHex ys))
     = Return {| x := Num k; y := ys |}.
Proof.
  intros Hk Hys. pose proof (decodeShare_encoded k ys Hk Hys) as E.
  split; [exact E|]. apply test_decodeShare_of_service, E.
Qed.

Lemma X3_witness :
  decodeShare (Serialized ("80" ++ padStart2 (toString16 1) ++ bytesToHex [3; 192]))
  = Return {| x := Num 1; y := [3; 192] |}
  /\ test_js.decodeShare
       (Serialized ("80" ++ padStart2 (toString16 1) ++ bytesToHex [3; 192]))
     = Return {| x := Num 1; y := [3; 192] |}.
Proof.
  apply (X3_share_text_decodes 1 [3; 192]); [lia|].
  intros b Hb. repeat (destruct Hb as [<-|Hb]; [lia|]). destruct Hb.
Defined.

Lemma hex_triple_check_all :
  forallb hex_triple_check (map Z.of_nat (seq 256 3840)) = true.
Proof. vm_compute. reflexivity. Qed.

Lemma hex_triple k :
  256 <= k <= 4095 ->
  exists c d e,
    padStart2 (toString16 k) = String c (String d (String e ""))
    /\ parseInt16 (String c (String d "")) = Num (k / 16).
Proof.
  intros Hk. pose proof hex_triple_check_all as H.
  rewrite forallb_forall in H. specialize (H k).
  assert (Hin : In k (map Z.of_nat (seq 256 3840))).
  { apply in_map_iff. exists (Z.to_nat k). split; [lia|]. apply in_seq. lia. }
  apply H in Hin. unfold hex_triple_check in Hin.
  destruct (padStart2 (toString16 k)) as [|c [|d [|e [|? ?]]]]; try discriminate.
  exists c, d, e. split; [reflexivity|]. now apply jsval_eqb_eq.
Qed.

(** X4. An index in 256..4095 takes three digits. [combineShares] still
    reads two: it decodes the text [createShares] builds for such a
    share to the index divided by 16 and, the remaining text having odd
    length, to no [y] byte at all. *)
Theorem X4_share_index_above_255 (k : Z) (ys : list Z) :
  256 <= k <= 4095 -> (forall b, In b ys -> 0 <= b <= 255) ->
  decodeShare (Serialized ("80" ++ padStart2 (toString16 k) ++ bytesToHex ys))
  = Return {| x := Num (k / 16); y := [] |}
  /\ test_js.decodeShare (Serialized ("80" ++ padStart2 (toString16 k) ++ bytesToHex ys))
     = Return {| x := Num (k / 16); y := [] |}.
Proof.
  intros Hk Hys.
  enough (E : decodeShare (Serialized ("80" ++ padStart2 (toString16 k) ++ bytesToHex ys))
              = Return {| x := Num (k / 16); y := [] |})
    by (split; [exact E|apply test_decodeShare_of_service, E]).
  destruct (hex_triple k Hk) as (c & d & e & E & Ep). rewrite E.
  change ("80" ++ String c (String d (String e "")) ++ bytesToHex ys)
    with (String "8" (String "0" (String c (String d (String e (bytesToHex ys)))))).
  rewrite decodeShare_odd.
  - change (substring_range 2 4
              (String "8" (String "0" (String c (String d (String e (bytesToHex ys)))))))
      with (String c (String d (substring 0 0 (String e (bytesToHex ys))))).
    cbn [substring]. now rewrite Ep.
  - reflexivity.
  - cbn [String.length]. rewrite bytesToHex_length by exact Hys.
    apply Nat.odd_spec. exists (length ys + 2)%nat. lia.
Qed.

Lemma X4_witness :
  decodeShare (Serialized ("80" ++ padStart2 (toString16 256) ++ bytesToHex [3; 192]))
  = Return {| x := Num (256 / 16); y := [] |}
  /\ test_js.decodeShare
       (Serialized ("80" ++ padStart2 (toString16 256) ++ bytesToHex [3; 192]))
     = Return {| x := Num (256 / 16); y := [] |}.
Proof.
  apply (X4_share_index_above_255 256 [3; 192]); [lia|].
  intros b Hb. repeat (destruct Hb as [<-|Hb]; [lia|]). destruct Hb.
Defined.

(** ** The field operations: [gf256] of the service and [GF256] of [test.js] *)

(** Multiplication distributes over XOR: the doubling step is linear,
    hence so is the whole loop in its first operand. *)

Lemma xtime_lxor a b : xtime (Z.lxor a b) = Z.lxor (xtime a) (xtime b).
Proof.
  unfold xtime. rewrite Z.shiftl_lxor, Z.lxor_spec.
  assert (E : Z.land (Z.lxor (Z.shiftl a 1) (Z.shiftl b 1)) 255
              = Z.lxor (Z.land (Z.shiftl a 1) 255) (Z.land (Z.shiftl b 1) 255)).
  { apply Z.bits_inj'. intros n Hn.
    rewrite !Z.land_spec, !Z.lxor_spec, !Z.land_spec.
    destruct (Z.testbit (Z.shiftl a 1) n), (Z.testbit (Z.shiftl b 1) n),
      (Z.testbit 255 n); reflexivity. }
  rewrite E.
  set (da := Z.land (Z.shiftl a 1) 255). set (db := Z.land (Z.shiftl b 1) 255).
  destruct (Z.testbit a 7), (Z.testbit b 7); cbn [xorb];
    apply Z.bits_inj'; intros n Hn; rewrite ?Z.lxor_spec;
    destruct (Z.testbit da n), (Z.testbit db n), (Z.testbit 27 n); reflexivity.
Qed.

Lemma byte_mul_iter_lxor n :
  forall p1 p2 a1 a2 b,
    fst (fst (Nat.iter n byte_mul_body (Z.lxor p1 p2, Z.lxor a1 a2, b)))
    = Z.lxor (fst (fst (Nat.iter n byte_mul_body (p1, a1, b))))
        (fst (fst (Nat.iter n byte_mul_body (p2, a2, b)))).
Proof.
  induction n as [|n IH]; intros p1 p2 a1 a2 b; [reflexivity|].
  rewrite !Nat.iter_succ_r. unfold byte_mul_body at 2 4 6.
  rewrite xtime_lxor.
  destruct (Z.odd b).
  - replace (Z.lxor (Z.lxor p1 p2) (Z.lxor a1 a2))
      with (Z.lxor (Z.lxor p1 a1) (Z.lxor p2 a2)); [apply IH|].
    apply Z.bits_inj'. intros k Hk. rewrite !Z.lxor_spec.
    destruct (Z.testbit p1 k), (Z.testbit p2 k), (Z.testbit a1 k), (Z.testbit a2 k);
      reflexivity.
  - apply IH.
Qed.

Lemma byte_mul_fst a b :
  byte_mul a b = fst (fst (Nat.iter 8 byte_mul_body (0, a, b))).
Proof. unfold byte_mul. destruct (Nat.iter 8 byte_mul_body (0, a, b)) as [[p a'] b']. reflexivity. Qed.

Lemma byte_mul_lxor_l a1 a2 b :
  byte_mul (Z.lxor a1 a2) b = Z.lxor (byte_mul a1 b) (byte_mul a2 b).
Proof.
  rewrite !byte_mul_fst. change 0 with (Z.lxor 0 0) at 1. apply byte_mul_iter_lxor.
Qed.

Lemma fmul_lxor_l a1 a2 b : fmul (Z.lxor a1 a2) b = Z.lxor (fmul a1 b) (fmul a2 b).
Proof. rewrite fmul_unseal. apply byte_mul_lxor_l. Qed.

(** X5. On bytes, [gf256.mul] is commutative and associative,
    distributes over XOR (the addition of the field), has 1 as its
    identity and has no zero divisors. *)
Theorem X5_gf256_mul_laws (a b c : Z) :
  0 <= a <= 255 -> 0 <= b <= 255 -> 0 <= c <= 255 ->
  gf256.mul (Num a) (Num b) = gf256.mul (Num b) (Num a)
  /\ gf256.mul (gf256.mul (Num a) (Num b)) (Num c)
     = gf256.mul (Num a) (gf256.mul (Num b) (Num c))
  /\ gf256.mul (bxor (Num a) (Num b)) (Num c)
     = bxor (gf256.mul (Num a) (Num c)) (gf256.mul (Num b) (Num c))
  /\ gf256.mul (Num a) (Num 1) = Num a
  /\ (gf256.mul (Num a) (Num b) = Num 0 -> a = 0 \/ b = 0).
Proof.
  intros Ha Hb Hc.
  assert (H1 : is_byte 1) by apply byte_one.
  split; [|split; [|split; [|split]]].
  - rewrite !gf256_mul_field by assumption. f_equal. now apply fmul_comm.
  - rewrite !gf256_mul_field by (auto using fmul_byte). f_equal. now apply fmul_assoc.
  - rewrite bxor_bytes by assumption.
    rewrite !gf256_mul_field by (auto using lxor_byte).
    rewrite bxor_bytes by (auto using fmul_byte). f_equal. apply fmul_lxor_l.
  - rewrite gf256_mul_field by assumption. f_equal. now apply fmul_1_r.
  - rewrite gf256_mul_field by assumption. intros [= E].
    destruct (Z.eq_dec a 0) as [|Hna]; [now left|].
    destruct (Z.eq_dec b 0) as [|Hnb]; [now right|].
    now apply (fmul_nonzero a b) in E.
Qed.

Lemma X5_witness :
  gf256.mul (Num 87) (Num 131) = gf256.mul (Num 131) (Num 87)
  /\ gf256.mul (gf256.mul (Num 87) (Num 131)) (Num 2)
     = gf256.mul (Num 87) (gf256.mul (Num 131) (Num 2))
  /\ gf256.mul (bxor (Num 87) (Num 131)) (Num 2)
     = bxor (gf256.mul (Num 87) (Num 2)) (gf256.mul (Num 131) (Num 2))
  /\ gf256.mul (Num 87) (Num 1) = Num 87
  /\ (gf256.mul (Num 87) (Num 131) = Num 0 -> 87 = 0 \/ 131 = 0).
Proof. apply (X5_gf256_mul_laws 87 131 2); lia. Defined.

Lemma gf256_mul_undefined_r a : gf256.mul a Undefined = Num 0.
Proof.
  unfold gf256.mul.
  change (Nat.iter 8 gf256.mul_body (Num 0, a, Undefined))
    with (Nat.iter 7 gf256.mul_body (gf256.mul_body (Num 0, a, Undefined))).
  assert (H : forall n a', exists a'', Nat.iter n gf256.mul_body (Num 0, a', Num 0)
                                       = (Num 0, a'', Num 0)).
  { induction n as [|n IH]; intros a'; [now exists a'|].
    rewrite Nat.iter_succ. destruct (IH a') as [a'' ->]. unfold gf256.mul_body.
    change (band (Num 0) (Num 1)) with (Num 0).
    change (sar (Num 0) (Num 1)) with (Num 0).
    cbn [strict_eq Z.eqb negb]. eauto. }
  unfold gf256.mul_body at 2.
  change (band Undefined (Num 1)) with (Num 0).
  change (sar Undefined (Num 1)) with (Num 0).
  cbn [strict_eq Z.eqb negb].
  match goal with |- context [Nat.iter 7 _ (Num 0, ?a', Num 0)] =>
    destruct (H 7%nat a') as [a'' ->] end.
  reflexivity.
Qed.

(** X6. [gf256.div]: a zero divisor throws, whatever the dividend;
    on bytes with a non-zero divisor, division undoes multiplication
    and multiplication undoes division; a divisor outside 0..255 finds
    no entry in the inverse table and the quotient is 0. *)
Theorem X6_gf256_div_spec (a b : Z) :
  (forall v : jsval, gf256.div v (Num 0) = Throw DivisionByZero)
  /\ (0 <= a <= 255 -> 1 <= b <= 255 ->
      gf256.div (gf256.mul (Num a) (Num b)) (Num b) = Return (Num a)
      /\ exists q, 0 <= q <= 255
           /\ gf256.div (Num a) (Num b) = Return (Num q)
           /\ gf256.mul (Num q) (Num b) = Num a)
  /\ (b < 0 \/ 255 < b -> gf256.div (Num a) (Num b) = Return (Num 0)).
Proof.
  split; [|split].
  - intros v. reflexivity.
  - intros Ha Hb.
    assert (Hbb : is_byte b) by (unfold is_byte; lia).
    assert (Hnb : b <> 0) by lia.
    destruct (finv_spec b Hbb Hnb) as (Hib & _ & Einv).
    split.
    + rewrite gf256_mul_field by assumption.
      rewrite gf256_div_field by (auto using fmul_byte). f_equal. f_equal.
      rewrite fmul_assoc, Einv by assumption. now apply fmul_1_r.
    + exists (fmul a (finv b)). split; [now apply fmul_byte|].
      split; [now apply gf256_div_field|].
      rewrite gf256_mul_field by (auto using fmul_byte). f_equal.
      rewrite fmul_assoc, (fmul_comm (finv b) b), Einv by assumption.
      now apply fmul_1_r.
  - intros Hb. unfold gf256.div. simpl strict_eq.
    replace (b =? 0) with false by (symmetry; apply Z.eqb_neq; lia).
    destruct (a =? 0); [reflexivity|]. f_equal.
    assert (E : index gf256.inverseTable (Num b) = Undefined).
    { unfold index. destruct (b <? 0) eqn:Eb; [reflexivity|].
      apply Z.ltb_ge in Eb.
      assert (Hn : nth_error gf256.inverseTable (Z.to_nat b) = None).
      { apply nth_error_None. change (length gf256.inverseTable) with 256%nat. lia. }
      now rewrite Hn. }
    rewrite E. apply gf256_mul_undefined_r.
Qed.

Lemma band_mask (u : jsval) : band u (Num 0xff) = Num (ToInt32 u mod 256).
Proof.
  unfold band. f_equal. change (ToInt32 (Num 255)) with (Z.ones 8).
  rewrite Z.land_ones by lia. reflexivity.
Qed.

Lemma mask_byte z : is_byte (z mod 256).
Proof. unfold is_byte. pose proof (Z.mod_pos_bound z 256). lia. Qed.

Lemma ToInt32_mod_256 n : ToInt32 (Num n) mod 256 = n mod 256.
Proof.
  cbn [ToInt32]. unfold wrap32.
  destruct (2147483648 <=? n mod 4294967296).
  - rewrite Zminus_mod. change (4294967296 mod 256) with 0. rewrite Z.sub_0_r, Z.mod_mod by lia.
    apply Z.mod_mod_divide. exists 16777216. reflexivity.
  - apply Z.mod_mod_divide. exists 16777216. reflexivity.
Qed.

Lemma GF256_mul_masked (u v : jsval) :
  GF256.mul u v = Num (fmul (ToInt32 u mod 256) (ToInt32 v mod 256)).
Proof.
  rewrite <- GF256_mul_field by apply mask_byte.
  unfold GF256.mul. rewrite !band_mask.
  rewrite !ToInt32_mod_256, !Z.mod_mod by lia. reflexivity.
Qed.

(** X7. [GF256.mul] of [test.js] masks its operands: on any two values
    it returns a byte, the product in the field of their low bytes. *)
Theorem X7_GF256_mul_masks_operands (u v : jsval) :
  exists p,
    GF256.mul u v = Num p
    /\ 0 <= p <= 255
    /\ p = reference.product (ToInt32 u mod 256) (ToInt32 v mod 256)
    /\ (forall a b : Z, u = Num a -> v = Num b ->
          p = reference.product (a mod 256) (b mod 256)).
Proof.
  exists (fmul (ToInt32 u mod 256) (ToInt32 v mod 256)).
  split; [apply GF256_mul_masked|]. split; [apply fmul_byte; apply mask_byte|].
  assert (E : fmul (ToInt32 u mod 256) (ToInt32 v mod 256)
              = reference.product (ToInt32 u mod 256) (ToInt32 v mod 256)).
  { rewrite fmul_unseal.
    exact (byte_mul_reference _ _ (mask_byte _) (mask_byte _)). }
  split; [exact E|]. intros a b -> ->. now rewrite E, !ToInt32_mod_256.
Qed.

(** X8. [GF256.inverse] and [GF256.div] of [test.js], given enough fuel
    for the loops of the inverse: 0 has no inverse; every other byte
    has one, a non-zero byte whose product with it is 1; division by a
    non-zero byte undoes multiplication; a divisor whose low byte is 0
    throws. *)
Theorem X8_GF256_inverse_and_div (a b : Z) (fuel : nat) :
  (inverse_fuel <= fuel)%nat ->
  GF256.inverse fuel (Num 0) = Throw NoInverseOfZero
  /\ (1 <= b <= 255 ->
      exists inv, 1 <= inv <= 255
        /\ GF256.inverse fuel (Num b) = Return (Num inv)
        /\ GF256.mul (Num b) (Num inv) = Num 1)
  /\ (0 <= a <= 255 -> 1 <= b <= 255 ->
      GF256.div fuel (GF256.mul (Num a) (Num b)) (Num b) = Return (Num a))
  /\ (forall u v : jsval, ToInt32 v mod 256 = 0 -> GF256.div fuel u v = Throw DivisionByZero).
Proof.
  intros Hfuel. split; [reflexivity|]. split; [|split].
  - intros Hb.
    assert (Hbb : is_byte b) by (unfold is_byte; lia).
    assert (Hnb : b <> 0) by lia.
    destruct (finv_spec b Hbb Hnb) as (Hib & Hnz & Einv).
    exists (finv b). split; [unfold is_byte in Hib; lia|].
    split; [now apply GF256_inverse_field|].
    rewrite GF256_mul_field by assumption. now rewrite Einv.
  - intros Ha Hb.
    assert (Hbb : is_byte b) by (unfold is_byte; lia).
    assert (Hnb : b <> 0) by lia.
    destruct (finv_spec b Hbb Hnb) as (Hib & _ & Einv).
    rewrite GF256_mul_field by assumption.
    rewrite GF256_div_field by (auto using fmul_byte). f_equal. f_equal.
    rewrite fmul_assoc, Einv by assumption. now apply fmul_1_r.
  - intros u v Hv. unfold GF256.div. rewrite !band_mask, Hv. reflexivity.
Qed.

Lemma X8_witness :
  GF256.inverse 9 (Num 0) = Throw NoInverseOfZero
  /\ (1 <= 7 <= 255 ->
      exists inv, 1 <= inv <= 255
        /\ GF256.inverse 9 (Num 7) = Return (Num inv)
        /\ GF256.mul (Num 7) (Num inv) = Num 1)
  /\ (0 <= 21 <= 255 -> 1 <= 7 <= 255 ->
      GF256.div 9 (GF256.mul (Num 21) (Num 7)) (Num 7) = Return (Num 21))
  /\ (forall u v : jsval, ToInt32 v mod 256 = 0 -> GF256.div 9 u v = Throw DivisionByZero).
Proof. apply (X8_GF256_inverse_and_div 21 7 9). unfold inverse_fuel. lia. Defined.

(** *** [GF256.degree] *)

Lemma fold_left_ext_in {A B} (f g : A -> B -> A) (l : list B) :
  (forall a b, In b l -> f a b = g a b) -> forall a, fold_left f l a = fold_left g l a.
Proof.
  induction l as [|b l IH]; intros H a; [reflexivity|].
  cbn [fold_left]. rewrite (H a b) by now left.
  apply IH. intros a' b' Hb'. apply H. now right.
Qed.

Lemma land_pow2 a i :
  0 <= i -> (Z.land a (2 ^ i) =? 0) = negb (Z.testbit a i).
Proof.
  intros Hi. destruct (Z.testbit a i) eqn:E; cbn [negb].
  - apply Z.eqb_neq. intros H. apply (f_equal (fun z => Z.testbit z i)) in H.
    rewrite Z.land_spec, E, Z.pow2_bits_true, Z.bits_0 in H by lia. discriminate.
  - apply Z.eqb_eq. apply Z.bits_inj'. intros n Hn.
    rewrite Z.land_spec, Z.bits_0, Z.pow2_bits_eqb by lia.
    destruct (Z.eqb_spec i n) as [->|]; [now rewrite E|apply andb_false_r].
Qed.

Lemma degree_test a i :
  0 <= a < 2147483648 -> 0 <= i <= 31 ->
  ToBoolean (band (Num a) (shl (Num 1) (Num i))) = Z.testbit a i.
Proof.
  intros Ha Hi. unfold band, shl, ToBoolean. cbn [ToInt32].
  rewrite (wrap32_small a) by lia. rewrite (wrap32_small 1) by lia.
  rewrite (wrap32_small i) by lia. rewrite (Z.mod_small i 32) by lia.
  rewrite Z.shiftl_1_l.
  destruct (Z.eq_dec i 31) as [->|Hne].
  - change (wrap32 (wrap32 (2 ^ 31))) with (- 2 ^ 31).
    assert (Hb : Z.testbit a 31 = false).
    { destruct (Z.eq_dec a 0) as [->|Hna]; [apply Z.bits_0|].
      apply Z.bits_above_log2; [lia|]. apply Z.log2_lt_pow2; lia. }
    rewrite Hb. apply negb_false_iff, Z.eqb_eq.
    apply Z.bits_inj'. intros n Hn. rewrite Z.land_spec, Z.bits_0.
    destruct (Z.lt_ge_cases n 31) as [Hlt|Hge].
    + replace (- 2 ^ 31) with (- 1 * 2 ^ 31) by lia.
      rewrite Z.mul_pow2_bits_low by lia. apply andb_false_r.
    + destruct (Z.eq_dec a 0) as [->|Hna]; [now rewrite Z.bits_0|].
      rewrite Z.bits_above_log2; [reflexivity|lia|].
      assert (Z.log2 a < 31) by (apply Z.log2_lt_pow2; lia). lia.
  - assert (Hp : 2 ^ i < 2 ^ 31) by (apply Z.pow_lt_mono_r; lia).
    assert (Hp0 : 0 < 2 ^ i) by (apply Z.pow_pos_nonneg; lia).
    rewrite !(wrap32_small (2 ^ i)) by lia.
    rewrite land_pow2 by lia. apply negb_involutive.
Qed.

Lemma highest_bit n :
  forall a, 0 <= a < 2 ^ Z.of_nat n ->
    fold_left (fun d i => if Z.testbit a i then Num i else d)
      (map Z.of_nat (seq 0 n)) (Num (-1))
    = Num (if a =? 0 then -1 else Z.log2 a).
Proof.
  induction n as [|n IH]; intros a Ha.
  - change (2 ^ Z.of_nat 0) with 1 in Ha. replace a with 0 by lia. reflexivity.
  - rewrite seq_S, map_app, fold_left_app. cbn [Nat.add map fold_left].
    rewrite Nat2Z.inj_succ, Z.pow_succ_r in Ha by lia.
    destruct (Z.lt_ge_cases a (2 ^ Z.of_nat n)) as [Hlt|Hge].
    + assert (Hb : Z.testbit a (Z.of_nat n) = false).
      { destruct (Z.eq_dec a 0) as [->|Hna]; [apply Z.bits_0|].
        apply Z.bits_above_log2; [lia|]. apply Z.log2_lt_pow2; lia. }
      rewrite Hb. apply IH. lia.
    + assert (Hl : Z.log2 a = Z.of_nat n).
      { apply Z.log2_unique; [lia|]. rewrite Z.pow_succ_r by lia. lia. }
      assert (Hb : Z.testbit a (Z.of_nat n) = true).
      { rewrite <- Hl. apply Z.bit_log2. lia. }
      rewrite Hb, Hl.
      assert (0 < 2 ^ Z.of_nat n) by (apply Z.pow_pos_nonneg; lia).
      replace (a =? 0) with false by (symmetry; apply Z.eqb_neq; lia). reflexivity.
Qed.

(** X9. [GF256.degree] of a non-negative 32-bit integer is the position
    of its highest set bit, and -1 for 0. *)
Theorem X9_degree_is_log2 (a : Z) :
  0 <= a < 2147483648 ->
  GF256.degree (Num a) = Num (if a =? 0 then -1 else Z.log2 a).
Proof.
  intros Ha. unfold GF256.degree.
  rewrite (fold_left_ext_in _ (fun d i => if Z.testbit a i then Num i else d)).
  - apply (highest_bit 32). change (2 ^ Z.of_nat 32) with 4294967296. lia.
  - intros d i Hi. apply in_map_iff in Hi as [k [<- Hk]]. apply in_seq in Hk.
    rewrite degree_test by lia. reflexivity.
Qed.

Lemma X9_witness : GF256.degree (Num 0x11b) = Num (if 0x11b =? 0 then -1 else Z.log2 0x11b).
Proof. apply (X9_degree_is_log2 0x11b). lia. Defined.

(** ** Lagrange interpolation over a field

    The facts about interpolation are proved once, over any field: the
    basis polynomials sum to 1, and the interpolation sum of the values
    of a polynomial of low enough degree is the value of the polynomial
    at 0. *)

Section FieldLagrange.

Local Close Scope string_scope.
Local Close Scope Z_scope.
Import field_poly.
Variable F : Type.
Variables (zero one : F) (add mul sub : F -> F -> F) (opp : F -> F)
  (div : F -> F -> F) (inv : F -> F).
Hypothesis Fth : field_theory zero one add mul sub opp div inv eq.
Add Field Ffield : Fth.

Notation "0" := zero.
Notation "1" := one.
Infix "+" := add.
Infix "*" := mul.
Infix "-" := sub.
Infix "/" := div.

Let hornerF := horner_from F add mul.
Let weightF := weight F one mul sub inv.
Let lsum := lagrange_sum F zero one add mul sub inv.

Lemma sub_nonzero a b : a <> b -> a - b <> 0.
Proof. intros Hne H. apply Hne. transitivity ((a - b) + b); [ring|]. rewrite H. ring. Qed.

Lemma weight_from others x acc :
  fold_left (fun acc xj => acc * (xj * inv (xj - x))) others acc
  = acc * weightF others x.
Proof.
  unfold weightF, weight. revert acc. induction others as [|p others IH]; intros acc.
  - simpl. ring.
  - cbn [fold_left]. rewrite IH, (IH (1 * _)). ring.
Qed.

Lemma weight_cons p others x :
  weightF (p :: others) x = (p * inv (p - x)) * weightF others x.
Proof.
  unfold weightF at 1, weight. cbn [fold_left]. rewrite weight_from. ring.
Qed.

Lemma weight_app l1 l2 x : weightF (l1 ++ l2) x = weightF l1 x * weightF l2 x.
Proof.
  unfold weightF at 1, weight. rewrite fold_left_app.
  fold (weight F one mul sub inv l1 x). rewrite weight_from. reflexivity.
Qed.

Lemma lsum_ext pre xs g h :
  (forall x, In x xs -> g x = h x) -> lsum pre xs g = lsum pre xs h.
Proof.
  revert pre. induction xs as [|x xs IH]; intros pre H; [reflexivity|].
  cbn [lsum lagrange_sum]. fold lsum. rewrite (H x) by now left.
  rewrite (IH (pre ++ [x])); [reflexivity|]. intros y Hy. apply H. now right.
Qed.

Lemma lsum_add pre xs g h :
  lsum pre xs (fun x => g x + h x) = lsum pre xs g + lsum pre xs h.
Proof.
  revert pre. induction xs as [|x xs IH]; intros pre.
  - cbn. ring.
  - cbn [lsum lagrange_sum]. fold lsum. rewrite IH. ring.
Qed.

Lemma lsum_scale c pre xs g :
  lsum pre xs (fun x => c * g x) = c * lsum pre xs g.
Proof.
  revert pre. induction xs as [|x xs IH]; intros pre.
  - cbn. ring.
  - cbn [lsum lagrange_sum]. fold lsum. rewrite IH. ring.
Qed.

Lemma lsum_cons_pre p pre xs g :
  lsum (p :: pre) xs g = lsum pre xs (fun x => (p * inv (p - x)) * g x).
Proof.
  revert pre. induction xs as [|x xs IH]; intros pre; [reflexivity|].
  cbn [lsum lagrange_sum]. fold lsum.
  change ((p :: pre) ++ xs) with (p :: (pre ++ xs)).
  fold (weightF (p :: pre ++ xs) x). fold (weightF (pre ++ xs) x).
  rewrite weight_cons.
  change ((p :: pre) ++ [x]) with (p :: (pre ++ [x])). rewrite IH. ring.
Qed.

Lemma lsum_head a xs g :
  lsum [] (a :: xs) g
  = g a * weightF xs a + lsum [] xs (fun x => (a * inv (a - x)) * g x).
Proof.
  cbn [lsum lagrange_sum app]. fold lsum. fold (weightF xs a).
  now rewrite lsum_cons_pre.
Qed.

(** The basis polynomials sum to 1. *)
Lemma lsum_one xs :
  forall a, NoDup (a :: xs) -> lsum [] (a :: xs) (fun _ => 1) = 1.
Proof.
  induction xs as [|b xs IH]; intros a Hnd.
  - cbn. ring.
  - apply NoDup_cons in Hnd as [Ha Hnd].
    pose proof Hnd as Hnd'. apply NoDup_cons in Hnd' as [Hb Hxs].
    assert (Hab : a <> b) by (intros ->; apply Ha; left).
    assert (Haxs : NoDup (a :: xs)).
    { apply NoDup_cons. split; [|exact Hxs]. intros H. apply Ha. now right. }
    pose proof (IH a Haxs) as Ea. pose proof (IH b Hnd) as Eb.
    rewrite lsum_head in Ea, Eb.
    rewrite lsum_head, weight_cons, lsum_head.
    set (Wa := weightF xs a) in *. set (Wb := weightF xs b) in *.
    set (Sa := lsum [] xs (fun x => a * inv (a - x) * 1)) in *.
    set (Sb := lsum [] xs (fun x => b * inv (b - x) * 1)) in *.
    assert (Hd : b - a <> 0) by (apply sub_nonzero; congruence).
    assert (Hd' : a - b <> 0) by (apply sub_nonzero; congruence).
    assert (Ekey : (b - a) * lsum [] xs (fun x => b * inv (b - x) * (a * inv (a - x) * 1))
                   = b * Sa - a * Sb).
    { unfold Sa, Sb. rewrite <- !lsum_scale.
      transitivity (lsum [] xs (fun x => b * (a * inv (a - x) * 1)
                                         + opp a * (b * inv (b - x) * 1))).
      - apply lsum_ext. intros x Hx.
        assert (a - x <> 0).
        { apply sub_nonzero. intros ->. apply Ha. right. apply list_elem_of_In, Hx. }
        assert (b - x <> 0).
        { apply sub_nonzero. intros ->. apply Hb. apply list_elem_of_In, Hx. }
        field. auto.
      - rewrite lsum_add, !lsum_scale. ring. }
    transitivity (((b - a) * (1 * (b * inv (b - a) * Wa)
                   + (a * inv (a - b) * 1 * Wb
                      + lsum [] xs (fun x => b * inv (b - x) * (a * inv (a - x) * 1)))))
                  / (b - a)); [field; auto|].
    transitivity ((b * (1 * Wa + Sa) - a * (1 * Wb + Sb)) / (b - a)).
    + f_equal.
      transitivity (b * Wa - a * Wb
                    + (b - a) * lsum [] xs (fun x => b * inv (b - x) * (a * inv (a - x) * 1))).
      * field. auto.
      * rewrite Ekey. ring.
    + rewrite Ea, Eb. field. auto.
Qed.

Lemma horner_from_start acc coeffs x :
  hornerF (0 * x + acc) coeffs x = hornerF acc coeffs x.
Proof. f_equal. ring. Qed.

(** Division of a polynomial by [z - a], with the value at [a] as remainder. *)
Lemma synthetic_division a z coeffs :
  forall acc r,
    hornerF ((z - a) * r + acc) coeffs z
    = (z - a) * hornerF r (synthetic F add mul acc coeffs a) z + hornerF acc coeffs a.
Proof.
  unfold hornerF, horner_from.
  induction coeffs as [|c coeffs IH]; intros acc r; [reflexivity|].
  cbn [fold_left synthetic].
  replace (((z - a) * r + acc) * z + c) with ((z - a) * (r * z + acc) + (acc * a + c)) by ring.
  apply IH.
Qed.

Lemma synthetic_length acc coeffs a :
  length (synthetic F add mul acc coeffs a) = length coeffs.
Proof. revert acc. induction coeffs as [|c coeffs IH]; intros acc; simpl; [|rewrite IH]; reflexivity. Qed.

Lemma lsum_zero pre xs : lsum pre xs (fun _ => 0) = 0.
Proof.
  revert pre. induction xs as [|x xs IH]; intros pre; [reflexivity|].
  cbn [lsum lagrange_sum]. fold lsum. rewrite IH. ring.
Qed.

(** Interpolating at 0 the values of a polynomial with at most as many
    coefficients as there are points gives its value at 0. *)
Theorem lagrange_sum_horner xs :
  NoDup xs ->
  forall coeffs, (length coeffs <= length xs)%nat ->
    lsum [] xs (hornerF 0 coeffs) = hornerF 0 coeffs 0.
Proof.
  induction xs as [|a xs IH]; intros Hnd coeffs Hlen.
  - destruct coeffs; [reflexivity|simpl in Hlen; lia].
  - destruct coeffs as [|c coeffs].
    + unfold hornerF, horner_from. cbn [fold_left]. apply lsum_zero.
    + pose proof Hnd as Hnd'. apply NoDup_cons in Hnd' as [Ha Hxs].
      set (q := synthetic F add mul c coeffs a).
      assert (Hq : forall z, hornerF 0 (c :: coeffs) z
                             = (z - a) * hornerF 0 q z + hornerF 0 (c :: coeffs) a).
      { intros z. unfold hornerF at 1 3, horner_from. cbn [fold_left].
        fold (horner_from F add mul (0 * z + c) coeffs z).
        fold (horner_from F add mul (0 * a + c) coeffs a).
        fold hornerF. rewrite !horner_from_start.
        replace c with ((z - a) * 0 + c) at 1 by ring.
        apply synthetic_division. }
      rewrite lsum_head.
      pose proof (lsum_one xs a Hnd) as E1. rewrite lsum_head in E1.
      set (fa := hornerF 0 (c :: coeffs) a) in *.
      transitivity (fa * (1 * weightF xs a + lsum [] xs (fun x => a * inv (a - x) * 1))
                    + (0 - a) * lsum [] xs (hornerF 0 q)).
      * rewrite <- !lsum_scale.
        transitivity (fa * weightF xs a
                      + lsum [] xs (fun x => fa * (a * inv (a - x) * 1)
                                             + (0 - a) * hornerF 0 q x)).
        -- f_equal. apply lsum_ext. intros x Hx.
           assert (a - x <> 0).
           { apply sub_nonzero. intros ->. apply Ha. apply list_elem_of_In, Hx. }
           rewrite (Hq x). fold fa. field. auto.
        -- rewrite lsum_add, !lsum_scale. ring.
      * rewrite E1, IH; [|exact Hxs|].
        -- rewrite (Hq 0). fold fa. ring.
        -- unfold q. rewrite synthetic_length. simpl in Hlen. lia.
Qed.

Lemma horner_from_at_0 coeffs : forall acc, hornerF acc coeffs 0 = List.last coeffs acc.
Proof.
  unfold hornerF, horner_from.
  induction coeffs as [|c coeffs IH]; intros acc; [reflexivity|].
  cbn [fold_left]. rewrite IH.
  replace (acc * 0 + c) with c by ring.
  destruct coeffs as [|c' coeffs]; [reflexivity|].
  clear. revert c'. induction coeffs as [|c'' coeffs IH]; intros c'; [reflexivity|].
  exact (IH c'').
Qed.

End FieldLagrange.

(** *** The bytes form a field *)
Section ByteField.

Import byte_field.

Lemma val_byte (a : B) : is_byte (val a).
Proof. destruct a as [z Hz]. apply is_byteb_spec, Is_true_true, Hz. Qed.

Lemma val_of_Z z : is_byte z -> val (of_Z z) = z.
Proof. intros [H1 H2]. simpl. apply Z.mod_small. lia. Qed.

Lemma val_inj (a b : B) : val a = val b -> a = b.
Proof. intros H. apply (sig_eq_pi _). exact H. Qed.

Lemma of_Z_val (a : B) : of_Z (val a) = a.
Proof. apply val_inj, val_of_Z, val_byte. Qed.

Lemma val_add a b : val (add a b) = Z.lxor (val a) (val b).
Proof. apply val_of_Z, lxor_byte; apply val_byte. Qed.

Lemma val_mul a b : val (mul a b) = fmul (val a) (val b).
Proof. apply val_of_Z, fmul_byte; apply val_byte. Qed.

Lemma finv_byte a : is_byte a -> is_byte (finv a).
Proof.
  intros Ha. destruct (Z.eq_dec a 0) as [->|Hne].
  - rewrite finv_unseal. change (byte_inv 0) with 0. apply byte_zero.
  - now destruct (finv_spec a Ha Hne).
Qed.

Lemma val_inv a : val (inv a) = finv (val a).
Proof. apply val_of_Z, finv_byte, val_byte. Qed.

Lemma val_zero : val zero = 0.
Proof. reflexivity. Qed.

Lemma val_one : val one = 1.
Proof. reflexivity. Qed.

Lemma byte_field_theory : field_theory zero one add mul add opp div inv eq.
Proof.
  constructor; [constructor| | |].
  - intros x. apply val_inj. rewrite val_add, val_zero. apply Z.lxor_0_l.
  - intros x y. apply val_inj. rewrite !val_add. apply Z.lxor_comm.
  - intros x y z. apply val_inj. rewrite !val_add. symmetry. apply Z.lxor_assoc.
  - intros x. apply val_inj. rewrite val_mul, val_one. apply fmul_1_l, val_byte.
  - intros x y. apply val_inj. rewrite !val_mul. apply fmul_comm; apply val_byte.
  - intros x y z. apply val_inj. rewrite !val_mul. symmetry.
    apply fmul_assoc; apply val_byte.
  - intros x y z. apply val_inj. rewrite val_add, !val_mul, val_add. apply fmul_lxor_l.
  - reflexivity.
  - intros x. apply val_inj. rewrite val_add, val_zero. apply Z.lxor_nilpotent.
  - intros H. apply (f_equal val) in H. discriminate.
  - reflexivity.
  - intros p Hp. apply val_inj. rewrite val_mul, val_inv, val_one.
    assert (Hne : val p <> 0).
    { intros E. apply Hp. apply val_inj. now rewrite E. }
    rewrite fmul_comm by (apply finv_byte, val_byte || apply val_byte).
    now destruct (finv_spec (val p) (val_byte p) Hne) as (_ & _ & ?).
Qed.

(** *** [evaluatePolynomial] is Horner's rule, the first coefficient leading *)

Lemma index_app_middle (pre : list Z) c rest :
  index (pre ++ c :: rest)%list (Num (Z.of_nat (length pre))) = Num c.
Proof.
  unfold index.
  replace (Z.of_nat (length pre) <? 0) with false by (symmetry; apply Z.ltb_ge; lia).
  rewrite Nat2Z.id, nth_error_app2, Nat.sub_diag by lia. reflexivity.
Qed.

Lemma evaluatePolynomial_loop (x : Z) (coeffs : list Z) :
  is_byte x -> (forall c, In c coeffs -> is_byte c) ->
  forall rest pre r,
    coeffs = (pre ++ rest)%list -> is_byte r ->
    fold_left
      (fun result i => bxor (gf256.mul result (Num x)) (index coeffs (Num (Z.of_nat i))))
      (seq (length pre) (length rest)) (Num r)
    = Num (fold_left (fun r c => Z.lxor (fmul r x) c) rest r)
    /\ is_byte (fold_left (fun r c => Z.lxor (fmul r x) c) rest r).
Proof.
  intros Hx Hc. induction rest as [|c rest IH]; intros pre r E Hr; [simpl; auto|].
  cbn [length seq fold_left].
  assert (Hcb : is_byte c) by (apply Hc; rewrite E; apply in_or_app; right; now left).
  rewrite gf256_mul_field by assumption.
  rewrite E at 1. rewrite index_app_middle.
  rewrite bxor_bytes by (auto using fmul_byte).
  specialize (IH (pre ++ [c])%list (Z.lxor (fmul r x) c)).
  rewrite length_app in IH. cbn [length] in IH. rewrite Nat.add_1_r in IH.
  apply IH.
  - rewrite E, <- app_assoc. reflexivity.
  - apply lxor_byte; auto using fmul_byte.
Qed.

Lemma evaluatePolynomial_horner (c0 : Z) (rest : list Z) (x : Z) :
  is_byte x -> (forall c, In c (c0 :: rest) -> is_byte c) ->
  evaluatePolynomial (c0 :: rest) (Num x)
  = Num (fold_left (fun r c => Z.lxor (fmul r x) c) rest c0)
  /\ is_byte (fold_left (fun r c => Z.lxor (fmul r x) c) rest c0).
Proof.
  intros Hx Hc. unfold evaluatePolynomial.
  change (index (c0 :: rest) (Num 0)) with (Num c0).
  cbn [length]. rewrite Nat.sub_succ, Nat.sub_0_r.
  apply (evaluatePolynomial_loop x (c0 :: rest) Hx Hc rest [c0] c0); [reflexivity|].
  apply Hc. now left.
Qed.

Lemma val_horner_from (x a : B) (cs : list B) :
  fold_left (fun r c => Z.lxor (fmul r (val x)) c) (map val cs) (val a)
  = val (field_poly.horner_from B add mul a cs x).
Proof.
  unfold field_poly.horner_from. revert a.
  induction cs as [|c cs IH]; intros a; [reflexivity|].
  cbn [map fold_left]. rewrite <- IH. f_equal. now rewrite val_add, val_mul.
Qed.

(** *** The interpolation of the service is the Lagrange sum *)

Lemma val_weight_from (x b : B) (others : list B) :
  fold_left (fun basis xj => fmul basis (fmul xj (finv (Z.lxor (val x) xj))))
    (map val others) (val b)
  = val (fold_left (fun acc xj => mul acc (mul xj (inv (add xj x)))) others b).
Proof.
  revert b. induction others as [|p others IH]; intros b; [reflexivity|].
  cbn [map fold_left]. rewrite <- IH. f_equal.
  now rewrite !val_mul, val_inv, val_add, (Z.lxor_comm (val p)).
Qed.

Section Sum.

Variable g : B -> B.
Variable xs : list B.
Hypothesis Hdistinct : NoDup xs.

Let encode (x : B) : Z * Z := (val x, val (g x)).
Let points : list (Z * Z) := map encode xs.

Lemma points_bytes : points_are_bytes points.
Proof.
  intros p Hp. apply in_map_iff in Hp as [x [<- _]]. split; apply val_byte.
Qed.

Lemma points_distinct : NoDup (map fst points).
Proof.
  unfold points. rewrite map_map. cbn [encode fst].
  apply NoDup_fmap_2; [|exact Hdistinct]. intros a b. apply val_inj.
Qed.

Lemma lagrange_term_val pre x post :
  xs = (pre ++ x :: post)%list ->
  lagrange_term points (length pre) (val x) (val (g x))
  = val (mul (g x) (field_poly.weight B one mul add inv (pre ++ post) x)).
Proof.
  intros E. unfold lagrange_term.
  assert (Hskip : map fst (skip_index (length pre) points) = map val (pre ++ post)%list).
  { unfold points. rewrite E, skip_index_map, map_map. cbn [encode fst].
    f_equal. unfold skip_index.
    rewrite firstn_app, Nat.sub_diag, firstn_all, firstn_O, app_nil_r.
    rewrite skipn_app, skipn_all2 by lia.
    replace (S (length pre) - length pre)%nat with 1%nat by lia. reflexivity. }
  rewrite Hskip.
  assert (Hothers : forall z, In z (map val (pre ++ post)%list) -> is_byte z /\ z <> val x).
  { intros z Hz. apply in_map_iff in Hz as [b [<- Hb]]. split; [apply val_byte|].
    intros Ev. apply val_inj in Ev. subst b.
    rewrite E in Hdistinct. apply NoDup_app in Hdistinct as (_ & Hpre & Hpost).
    apply NoDup_cons in Hpost as [Hpost _].
    apply in_app_or in Hb as [Hb|Hb].
    - apply (Hpre x); [now apply list_elem_of_In|left].
    - apply Hpost. now apply list_elem_of_In. }
  fold (fprod (map val (pre ++ post)%list)).
  unfold fprod.
  rewrite <- (basis_is_quotient (val x) (map val (pre ++ post)%list) 1 1);
    [|apply val_byte|exact Hothers|apply byte_one|apply byte_one|discriminate].
  rewrite finv_1, fmul_1_l by apply byte_one.
  change 1 with (val one). rewrite val_weight_from, val_mul. reflexivity.
Qed.

Lemma lagrange_fold_val :
  forall post pre acc,
    xs = (pre ++ post)%list ->
    fold_left
      (fun acc e => Z.lxor acc (lagrange_term points (fst e) (fst (snd e)) (snd (snd e))))
      (combine (seq (length pre) (length post)) (map encode post)) acc
    = Z.lxor acc (val (field_poly.lagrange_sum B zero one add mul add inv pre post g)).
Proof.
  induction post as [|x post IH]; intros pre acc E.
  - simpl. now rewrite Z.lxor_0_r.
  - cbn [length seq map combine fold_left fst snd encode field_poly.lagrange_sum].
    rewrite (lagrange_term_val pre x post E).
    specialize (IH (pre ++ [x])%list). rewrite length_app in IH. cbn [length] in IH.
    rewrite Nat.add_1_r in IH. rewrite IH by (rewrite E, <- app_assoc; reflexivity).
    rewrite val_add, Z.lxor_assoc. reflexivity.
Qed.

Lemma lagrange_at_0_val :
  lagrange_at_0 points
  = val (field_poly.lagrange_sum B zero one add mul add inv [] xs g).
Proof.
  unfold lagrange_at_0, indexed.
  pose proof (lagrange_fold_val xs [] 0 eq_refl) as H.
  change (length (@nil B)) with O in H. fold points in H.
  replace (length points) with (length xs) by (unfold points; now rewrite length_map).
  rewrite H. apply Z.lxor_0_l.
Qed.

End Sum.

(** *** Interpolating the values of a polynomial *)

Lemma map_val_of_Z (l : list Z) :
  (forall z, In z l -> is_byte z) -> map val (map of_Z l) = l.
Proof.
  intros H. rewrite map_map. rewrite <- (map_id l) at 2.
  apply map_ext_in. intros z Hz. apply val_of_Z, H, Hz.
Qed.

Lemma last_cons_default {A} (a : A) l d : List.last (a :: l) d = List.last l a.
Proof.
  revert a d. induction l as [|b l IH]; intros a d; [reflexivity|].
  change (List.last (a :: b :: l) d) with (List.last (b :: l) d).
  now rewrite (IH b d), (IH b a).
Qed.

Lemma val_last (l : list Z) (d : Z) :
  (forall z, In z l -> is_byte z) -> is_byte d ->
  val (List.last (map of_Z l) (of_Z d)) = List.last l d.
Proof.
  revert d. induction l as [|a l IH]; intros d Hl Hd; [now apply val_of_Z|].
  cbn [map]. rewrite !last_cons_default. apply IH.
  - intros z Hz. apply Hl. now right.
  - apply Hl. now left.
Qed.

Lemma lagrange_at_0_of_polynomial (c0 : Z) (rest xs : list Z) :
  (forall c, In c (c0 :: rest) -> is_byte c) ->
  (forall x, In x xs -> is_byte x) ->
  NoDup xs ->
  (length (c0 :: rest) <= length xs)%nat ->
  lagrange_at_0
    (map (fun x => (x, fold_left (fun r c => Z.lxor (fmul r x) c) rest c0)) xs)
  = List.last rest c0.
Proof.
  intros Hc Hx Hnd Hlen.
  set (xs' := map of_Z xs). set (rest' := map of_Z rest). set (c0' := of_Z c0).
  set (g := field_poly.horner_from B add mul zero (c0' :: rest')).
  assert (Hc0 : val c0' = c0) by (apply val_of_Z, Hc; now left).
  assert (Hrest : map val rest' = rest)
    by (apply map_val_of_Z; intros z Hz; apply Hc; now right).
  assert (Hg : forall x, val (g x) = fold_left (fun r c => Z.lxor (fmul r (val x)) c) rest c0).
  { intros x. unfold g, field_poly.horner_from. cbn [fold_left].
    fold (field_poly.horner_from B add mul (add (mul zero x) c0') rest' x).
    rewrite <- val_horner_from, Hrest. f_equal.
    rewrite val_add, val_mul, val_zero, Hc0.
    rewrite fmul_zero by (auto using byte_zero, val_byte). apply Z.lxor_0_l. }
  assert (Hpoints : map (fun x => (x, fold_left (fun r c => Z.lxor (fmul r x) c) rest c0)) xs
                    = map (fun x : B => (val x, val (g x))) xs').
  { unfold xs'. rewrite map_map. apply map_ext_in. intros x Hin.
    rewrite Hg, val_of_Z by (apply Hx, Hin). reflexivity. }
  assert (Hnd' : NoDup xs').
  { apply NoDup_fmap_2_strong; [|exact Hnd].
    intros a b Ha Hb E. apply (f_equal val) in E.
    rewrite !val_of_Z in E by (apply Hx; now apply list_elem_of_In). exact E. }
  rewrite Hpoints, (lagrange_at_0_val g xs' Hnd').
  unfold g.
  rewrite (lagrange_sum_horner B zero one add mul add opp div inv byte_field_theory xs' Hnd'
             (c0' :: rest'))
    by (unfold xs', rest'; cbn [length] in *; rewrite !length_map; exact Hlen).
  rewrite (horner_from_at_0 B zero one add mul add opp div inv byte_field_theory).
  rewrite last_cons_default. unfold rest', c0'. apply val_last.
  - intros z Hz. apply Hc. now right.
  - apply Hc. now left.
Qed.

Lemma lagrange_recovers_last_coefficient (coeffs xs : list Z) (fuel : nat) :
  coeffs <> [] ->
  (forall c, In c coeffs -> 0 <= c <= 255) ->
  (forall x, In x xs -> 0 <= x <= 255) ->
  NoDup xs ->
  (length coeffs <= length xs)%nat ->
  (inverse_fuel <= fuel)%nat ->
  improved_crypto.lagrangeInterpolation
    (map (fun x => (Num x, evaluatePolynomial coeffs (Num x))) xs)
  = Return (Num (List.last coeffs 0))
  /\ test_js.lagrangeInterpolation fuel
       (map (fun x => (Num x, evaluatePolynomial coeffs (Num x))) xs)
     = Return (Num (List.last coeffs 0)).
Proof.
  intros Hne Hc Hx Hnd Hlen Hfuel.
  destruct coeffs as [|c0 rest]; [congruence|].
  set (zh := fun x => fold_left (fun r c => Z.lxor (fmul r x) c) rest c0).
  assert (Hpts : map (fun x => (Num x, evaluatePolynomial (c0 :: rest) (Num x))) xs
                 = js_points (map (fun x => (x, zh x)) xs)).
  { unfold js_points. rewrite map_map. apply map_ext_in. intros x Hin. cbn [fst snd].
    now rewrite (proj1 (evaluatePolynomial_horner c0 rest x (Hx x Hin) Hc)). }
  assert (Hb : points_are_bytes (map (fun x => (x, zh x)) xs)).
  { intros p Hp. apply in_map_iff in Hp as [x [<- Hin]]. cbn [fst snd].
    split; [apply Hx, Hin|].
    exact (proj2 (evaluatePolynomial_horner c0 rest x (Hx x Hin) Hc)). }
  assert (Hd : NoDup (map fst (map (fun x => (x, zh x)) xs))).
  { rewrite map_map. cbn [fst]. now rewrite map_id. }
  assert (Hv : lagrange_at_0 (map (fun x => (x, zh x)) xs) = List.last (c0 :: rest) 0).
  { unfold zh. rewrite lagrange_at_0_of_polynomial by assumption.
    symmetry. apply last_cons_default. }
  rewrite Hpts. split.
  - rewrite (proj1 (service_lagrange _ Hb Hd)), Hv. reflexivity.
  - rewrite test_lagrange, Hv; try assumption; [reflexivity|].
    destruct xs; [simpl in Hlen; lia|discriminate].
Qed.

End ByteField.

(** X10. Take the values [evaluatePolynomial] gives a polynomial at
    pairwise distinct byte abscissas, at least as many as it has
    coefficients. Interpolating them at 0, by the service or by
    [test.js], returns the last coefficient of the list: the constant
    term, since [evaluatePolynomial] of the service reads its list from
    the leading coefficient down. *)
Theorem X10_interpolation_recovers_last_coefficient
    (coeffs xs : list Z) (fuel : nat) :
  coeffs <> [] ->
  (forall c, In c coeffs -> 0 <= c <= 255) ->
  (forall x, In x xs -> 0 <= x <= 255) ->
  NoDup xs ->
  (length coeffs <= length xs)%nat ->
  (inverse_fuel <= fuel)%nat ->
  improved_crypto.lagrangeInterpolation
    (map (fun x => (Num x, evaluatePolynomial coeffs (Num x))) xs)
  = Return (Num (List.last coeffs 0))
  /\ test_js.lagrangeInterpolation fuel
       (map (fun x => (Num x, evaluatePolynomial coeffs (Num x))) xs)
     = Return (Num (List.last coeffs 0)).
Proof. exact (lagrange_recovers_last_coefficient coeffs xs fuel). Qed.

Lemma X10_witness :
  improved_crypto.lagrangeInterpolation
    (map (fun x => (Num x, evaluatePolynomial [65; 66; 67] (Num x))) [1; 2; 3])
  = Return (Num (List.last [65; 66; 67] 0))
  /\ test_js.lagrangeInterpolation 9
       (map (fun x => (Num x, evaluatePolynomial [65; 66; 67] (Num x))) [1; 2; 3])
     = Return (Num (List.last [65; 66; 67] 0)).
Proof.
  apply (X10_interpolation_recovers_last_coefficient [65; 66; 67] [1; 2; 3] 9).
  - discriminate.
  - intros c Hc. repeat (destruct Hc as [<-|Hc]; [lia|]). destruct Hc.
  - intros x Hx. repeat (destruct Hx as [<-|Hx]; [lia|]). destruct Hx.
  - repeat constructor; rewrite ?list_elem_of_In; simpl; intuition lia.
  - simpl. lia.
  - unfold inverse_fuel. lia.
Defined.

(** ** What [createShares] returns *)

Lemma record_later_pass (y : Z -> jsval) :
  forall rest done,
    fold_left (fun shares x => record_y shares x (y x))
      (map Z.of_nat (seq (S (length done)) (length rest))) (done ++ rest)%list
    = (done ++ push_y y (length done) rest)%list.
Proof.
  induction rest as [|share rest IH]; intros done; [reflexivity|].
  cbn [length seq map fold_left push_y].
  unfold record_y at 2.
  replace (Z.to_nat (Z.of_nat (S (length done)) - 1)) with (length done) by lia.
  rewrite nth_error_app2, Nat.sub_diag by lia. cbn [nth_error].
  rewrite insert_app_r_alt, Nat.sub_diag by lia. cbn [insert list_insert].
  specialize (IH (done ++ [{| raw_x := raw_x share;
                               raw_y := raw_y share ++ [y (Z.of_nat (S (length done)))] |}])%list).
  rewrite length_app, Nat.add_1_r, <- !app_assoc in IH. exact IH.
Qed.

Lemma push_y_map (y : Z -> jsval) (ys : Z -> list jsval) n s :
  push_y y s (map (fun k => {| raw_x := Z.of_nat k; raw_y := ys (Z.of_nat k) |}) (seq (S s) n))
  = map (fun k => {| raw_x := Z.of_nat k; raw_y := ys (Z.of_nat k) ++ [y (Z.of_nat k)] |})
      (seq (S s) n).
Proof.
  revert s. induction n as [|n IH]; intros s; [reflexivity|].
  cbn [seq map push_y raw_x raw_y]. now rewrite IH.
Qed.

Section CreateSharesOutput.

Variable TextEncoder_encode : string -> list Z.
Variable random : nat -> nat -> Z.
Variable uuidv4 : nat -> string.
Variables totalShares threshold : Z.
Hypothesis Hthreshold : 2 <= threshold <= 65537.

Let step (shares : list RawShare) (e : nat * Z) : completion (list RawShare) :=
  let '(byteIndex, secretByte) := e in
  do randoms <- getRandomValues random byteIndex (Z.to_nat threshold - 1) ;;
  let coeffs := ToUint8 (Num secretByte) :: randoms in
  Return
    (fold_left
       (fun shares x => record_y shares x (evaluatePolynomial coeffs (Num x)))
       (map Z.of_nat (seq 1 (Z.to_nat totalShares)))
       shares).

Let raw_shares (done : list (nat * Z)) : list RawShare :=
  match done with
  | [] => []
  | _ =>
      map (fun k =>
             {| raw_x := Z.of_nat k;
                raw_y := map (fun e => evaluatePolynomial (coefficients random threshold e)
                                         (Num (Z.of_nat k))) done |})
        (seq 1 (Z.to_nat totalShares))
  end.

Lemma split_loop_output (todo : list (nat * Z)) :
  forall done, foldM step todo (raw_shares done) = Return (raw_shares (done ++ todo)%list).
Proof.
  induction todo as [|[byteIndex secretByte] todo IH]; intros done.
  - now rewrite app_nil_r.
  - cbn [foldM]. unfold step at 1.
    rewrite getRandomValues_returns by lia. cbn [bind].
    fold (coefficients random threshold (byteIndex, secretByte)).
    replace (done ++ (byteIndex, secretByte) :: todo)%list
      with ((done ++ [(byteIndex, secretByte)]) ++ todo)%list by now rewrite <- app_assoc.
    rewrite <- IH. f_equal.
    destruct done as [|d done].
    + cbn [raw_shares app]. apply record_first_pass.
    + set (ys := fun k : Z =>
                   map (fun e => evaluatePolynomial (coefficients random threshold e) (Num k))
                     (d :: done)).
      set (y := fun k : Z =>
                  evaluatePolynomial (coefficients random threshold (byteIndex, secretByte))
                    (Num k)).
      change (raw_shares (d :: done))
        with (map (fun k => {| raw_x := Z.of_nat k; raw_y := ys (Z.of_nat k) |})
                (seq 1 (Z.to_nat totalShares))).
      pose proof (record_later_pass y
                    (map (fun k => {| raw_x := Z.of_nat k; raw_y := ys (Z.of_nat k) |})
                       (seq 1 (Z.to_nat totalShares))) []) as H.
      rewrite length_map, length_seq in H. cbn [length app] in H.
      match goal with
      | |- fold_left ?f ?l ?s = _ =>
          change (fold_left f l s)
            with (fold_left (fun shares x => record_y shares x (y x)) l s)
      end.
      rewrite H, push_y_map.
      change ((d :: done) ++ [(byteIndex, secretByte)])%list
        with (d :: (done ++ [(byteIndex, secretByte)]))%list.
      cbn [raw_shares]. apply map_ext. intros k. f_equal.
      unfold ys, y. change (d :: (done ++ [(byteIndex, secretByte)]))%list
        with ((d :: done) ++ [(byteIndex, secretByte)])%list.
      now rewrite map_app.
Qed.

End CreateSharesOutput.

Lemma indexed_map_seq {A} (f : nat -> A) n :
  indexed (map f (seq 1 n)) = map (fun i => (i, f (S i))) (seq 0 n).
Proof.
  unfold indexed. rewrite length_map, length_seq.
  assert (H : forall s, combine (seq s n) (map f (seq (S s) n))
                        = map (fun i => (i, f (S i))) (seq s n)).
  { induction n as [|n IH]; intros s; [reflexivity|].
    cbn [seq map combine]. now rewrite IH. }
  apply H.
Qed.

Lemma createShares_output
    (TextEncoder_encode : string -> list Z) (random : nat -> nat -> Z)
    (uuidv4 : nat -> string) (secret : string) (totalShares threshold : Z) :
  2 <= threshold <= totalShares -> threshold <= 65537 ->
  createShares TextEncoder_encode random uuidv4 secret totalShares threshold
  = Return
      (match TextEncoder_encode secret with
       | [] => []
       | _ =>
           map (expected_share random uuidv4 threshold (TextEncoder_encode secret))
             (seq 0 (Z.to_nat totalShares))
       end).
Proof.
  intros [H1 H2] H3. unfold createShares.
  replace (threshold <? 2) with false by (symmetry; apply Z.ltb_ge; lia).
  replace (totalShares <? threshold) with false by (symmetry; apply Z.ltb_ge; lia).
  cbv zeta. unfold rethrow.
  pose proof (split_loop_output random totalShares threshold (conj H1 H3)
                (indexed (TextEncoder_encode secret)) []) as E.
  cbn [app] in E.
  match goal with
  | |- context [foldM ?f ?l ?a] =>
      match type of E with
      | foldM ?g _ _ = _ => change (foldM f l a) with (foldM g l a)
      end
  end.
  rewrite E. cbn [bind]. f_equal.
  destruct (TextEncoder_encode secret) as [|b bytes] eqn:Eb; [reflexivity|].
  set (l := indexed (b :: bytes)).
  assert (Hl : l <> []) by (unfold l, indexed; discriminate).
  destruct l as [|e l'] eqn:El; [congruence|].
  rewrite indexed_map_seq, map_map. apply map_ext. intros i.
  unfold expected_share, share_bytes. cbn [raw_x raw_y].
  fold l. rewrite El. rewrite map_map. reflexivity.
Qed.

(** X11. For [2 <= threshold <= totalShares] (and a threshold of at most
    65537, so that [getRandomValues] accepts the request) [createShares]
    returns, for a non-empty secret, one share per index 1..[totalShares]
    in order: its text is the marker, the index in hexadecimal and, for
    every byte of the secret, the value at the index of the polynomial
    whose coefficients are that byte followed by the [threshold - 1]
    random bytes drawn for it. An empty secret gives no share. *)
Theorem X11_createShares_output
    (TextEncoder_encode : string -> list Z) (random : nat -> nat -> Z)
    (uuidv4 : nat -> string) (secret : string) (totalShares threshold : Z) :
  2 <= threshold <= totalShares -> threshold <= 65537 ->
  createShares TextEncoder_encode random uuidv4 secret totalShares threshold
  = Return
      (match TextEncoder_encode secret with
       | [] => []
       | _ =>
           map (expected_share random uuidv4 threshold (TextEncoder_encode secret))
             (seq 0 (Z.to_nat totalShares))
       end).
Proof.
  exact (createShares_output TextEncoder_encode random uuidv4 secret totalShares threshold).
Qed.

Lemma X11_witness :
  createShares example.TextEncoder_encode example.random example.uuidv4 "A" 3 2
  = Return
      (match example.TextEncoder_encode "A" with
       | [] => []
       | _ =>
           map (expected_share example.random example.uuidv4 2
                  (example.TextEncoder_encode "A"))
             (seq 0 (Z.to_nat 3))
       end).
Proof. apply X11_createShares_output; lia. Defined.

(** ** Sharing a secret and combining the shares *)

Lemma mapM_all_return {A B} (f : A -> completion B) (g : A -> B) (l : list A) :
  (forall a, In a l -> f a = Return (g a)) -> mapM f l = Return (map g l).
Proof.
  induction l as [|a l IH]; intros H; [reflexivity|].
  cbn [mapM map]. rewrite (H a) by now left. cbn [bind].
  rewrite IH by (intros a' Ha'; apply H; now right). reflexivity.
Qed.

Lemma mapM_map_return {A B C} (f : B -> completion C) (h : A -> B) (g : A -> C)
    (l : list A) :
  (forall a, In a l -> f (h a) = Return (g a)) -> mapM f (map h l) = Return (map g l).
Proof.
  intros H. rewrite <- (map_map h (fun b => b)), map_id.
  induction l as [|a l IH]; [reflexivity|].
  cbn [mapM map]. rewrite (H a) by now left. cbn [bind].
  rewrite IH by (intros a' Ha'; apply H; now right). reflexivity.
Qed.

Lemma nth_error_indexed {A} (l : list A) b v :
  nth_error l b = Some v -> nth_error (indexed l) b = Some (b, v).
Proof.
  unfold indexed.
  assert (H : forall s, nth_error l b = Some v ->
                        nth_error (combine (seq s (length l)) l) b = Some ((s + b)%nat, v)).
  { revert b. induction l as [|a l IH]; intros b s Hb; [destruct b; discriminate|].
    destruct b as [|b]; cbn [length seq combine nth_error] in *.
    - inversion Hb. now rewrite Nat.add_0_r.
    - rewrite (IH b (S s) Hb). f_equal. f_equal. lia. }
  exact (H 0%nat).
Qed.

Section RoundTrip.

Variable TextEncoder_encode : string -> list Z.
Variable TextDecoder_decode : string -> list Z -> completion string.
Variable random : nat -> nat -> Z.
Variable uuidv4 : nat -> string.
Variable secret : string.
Variables totalShares threshold : Z.
Hypothesis Hthreshold : 2 <= threshold <= totalShares.
Hypothesis Htotal : totalShares <= 255.

Let secretBytes := TextEncoder_encode secret.
Let expected := expected_share random uuidv4 threshold secretBytes.
Let ybytes := share_bytes random threshold secretBytes.

Lemma coefficients_bytes e c : In c (coefficients random threshold e) -> is_byte c.
Proof.
  unfold coefficients. intros [<-|H]; [apply ToUint8_byte|].
  apply in_map_iff in H as [i [<- _]]. apply ToUint8_byte.
Qed.

Lemma coefficients_length e :
  length (coefficients random threshold e) = Z.to_nat threshold.
Proof. unfold coefficients. cbn [length]. rewrite length_map, length_seq. lia. Qed.

Lemma coefficients_last e :
  List.last (coefficients random threshold e) 0
  = ToUint8 (Num (random (fst e) (Z.to_nat threshold - 2))).
Proof.
  unfold coefficients. rewrite last_cons_default.
  replace (Z.to_nat threshold - 1)%nat with (S (Z.to_nat threshold - 2)) by lia.
  rewrite seq_S, map_app. cbn [map]. rewrite last_last. reflexivity.
Qed.

Lemma evaluatePolynomial_byte e k :
  is_byte k ->
  Num (ToUint8 (evaluatePolynomial (coefficients random threshold e) (Num k)))
  = evaluatePolynomial (coefficients random threshold e) (Num k).
Proof.
  intros Hk. unfold coefficients at 2. pose proof (coefficients_bytes e) as Hc.
  unfold coefficients in Hc |- *.
  destruct (evaluatePolynomial_horner _ _ k Hk Hc) as [E Hb].
  rewrite E. now rewrite ToUint8_Num_byte.
Qed.

Lemma ybytes_bytes k b : In b (ybytes k) -> is_byte b.
Proof.
  unfold ybytes, share_bytes. intros H. apply in_map_iff in H as [e [<- _]].
  apply ToUint8_byte.
Qed.

Lemma ybytes_length k : length (ybytes k) = length secretBytes.
Proof. unfold ybytes, share_bytes. now rewrite length_map, indexed_length. Qed.

Lemma decode_expected i :
  (i < Z.to_nat totalShares)%nat ->
  decodeShare (shareValueOf (expected i))
  = Return {| x := Num (Z.of_nat (S i)); y := ybytes (Z.of_nat (S i)) |}.
Proof.
  intros Hi. unfold expected, expected_share.
  change (shareValueOf (ShareObject ?id ("80" ++ ?v) ?enc)) with (Serialized ("80" ++ v)).
  apply decodeShare_encoded; [unfold is_byte; lia|apply ybytes_bytes].
Qed.

Lemma point_of_share b v k :
  nth_error secretBytes b = Some v -> is_byte k ->
  index (ybytes k) (Num (Z.of_nat b))
  = evaluatePolynomial (coefficients random threshold (b, v)) (Num k).
Proof.
  intros Hb Hk. unfold index.
  replace (Z.of_nat b <? 0) with false by (symmetry; apply Z.ltb_ge; lia).
  rewrite Nat2Z.id. unfold ybytes, share_bytes.
  rewrite nth_error_map, (nth_error_indexed _ _ _ Hb). cbn [option_map].
  now apply evaluatePolynomial_byte.
Qed.

Lemma reconstruct_expected (idxs : list nat) :
  NoDup idxs ->
  (forall i, In i idxs -> (i < Z.to_nat totalShares)%nat) ->
  (Z.to_nat threshold <= length idxs)%nat ->
  reconstruct (map expected idxs)
  = Return ("utf-8",
            map (fun b => ToUint8 (Num (random b (Z.to_nat threshold - 2))))
              (seq 0 (length secretBytes))).
Proof.
  intros Hnd Hlt Hlen.
  destruct idxs as [|i0 idxs'] eqn:Ei; [simpl in Hlen; lia|]. rewrite <- Ei in *.
  assert (Hdec : mapM decodeShare (map shareValueOf (map expected idxs))
                 = Return (map (fun i => {| x := Num (Z.of_nat (S i));
                                            y := ybytes (Z.of_nat (S i)) |}) idxs)).
  { rewrite map_map.
    apply (mapM_map_return decodeShare (fun i => shareValueOf (expected i))).
    intros i Hi. apply decode_expected, Hlt, Hi. }
  unfold reconstruct. rewrite Hdec. rewrite Ei at 1. cbn [map]. cbn [bind].
  rewrite Ei at 1. cbn [map hd y]. rewrite ybytes_length.
  change (encodingOf (expected i0)) with "utf-8".
  rewrite (mapM_all_return _
             (fun b => ToUint8 (Num (random b (Z.to_nat threshold - 2))))).
  - reflexivity.
  - intros b Hb. apply in_seq in Hb as [_ Hb]. cbn [Nat.add] in Hb.
    destruct (nth_error secretBytes b) as [v|] eqn:Ev;
      [|apply nth_error_None in Ev; lia].
    rewrite map_map. cbn [x y].
    assert (Hpts : map (fun i => (Num (Z.of_nat (S i)),
                                  index (ybytes (Z.of_nat (S i))) (Num (Z.of_nat b)))) idxs
                   = map (fun k => (Num k,
                                    evaluatePolynomial (coefficients random threshold (b, v))
                                      (Num k)))
                       (map (fun i => Z.of_nat (S i)) idxs)).
    { rewrite map_map. apply map_ext_in. intros i Hi.
      rewrite (point_of_share b v) by (exact Ev || (apply Hlt in Hi; unfold is_byte; lia)).
      reflexivity. }
    rewrite Hpts.
    destruct (lagrange_recovers_last_coefficient
                (coefficients random threshold (b, v))
                (map (fun i => Z.of_nat (S i)) idxs) inverse_fuel) as [E _].
    + discriminate.
    + apply coefficients_bytes.
    + intros k Hk. apply in_map_iff in Hk as [i [<- Hi]]. apply Hlt in Hi. lia.
    + apply NoDup_fmap_2; [|exact Hnd]. intros i j E. lia.
    + rewrite coefficients_length, length_map. exact Hlen.
    + apply Nat.le_refl.
    + rewrite E. cbn [bind]. rewrite coefficients_last. cbn [fst].
      now rewrite ToUint8_Num_byte by apply ToUint8_byte.
Qed.

Lemma test_decode_expected i :
  (i < Z.to_nat totalShares)%nat ->
  test_js.decodeShare (shareValueOf (expected i))
  = Return {| x := Num (Z.of_nat (S i)); y := ybytes (Z.of_nat (S i)) |}.
Proof.
  intros Hi. pose proof (decode_expected i Hi) as H.
  destruct (shareValueOf (expected i)) as [s|]; [|discriminate].
  unfold decodeShare in H. unfold test_js.decodeShare.
  destruct (negb (String.prefix "80" s)); [discriminate|].
  rewrite test_hexToBytes_of_service.
  destruct (hexToBytes (substring_from 4 s)); cbn [bind] in H; try discriminate.
  exact H.
Qed.

Lemma test_combine_expected (fuel : nat) (idxs : list nat) :
  (inverse_fuel <= fuel)%nat ->
  NoDup idxs ->
  (forall i, In i idxs -> (i < Z.to_nat totalShares)%nat) ->
  (Z.to_nat threshold <= length idxs)%nat ->
  let bytes := map (fun b => ToUint8 (Num (random b (Z.to_nat threshold - 2))))
                 (seq 0 (length secretBytes)) in
  test_js.combineShares TextDecoder_decode fuel (map expected idxs)
  = rethrow CombineSharesFailed
      (match TextDecoder_decode "utf-8" bytes with
       | Throw decodeError => Throw (DecodeFailed decodeError (bytesToHex bytes))
       | decoded => decoded
       end).
Proof.
  intros Hfuel Hnd Hlt Hlen bytes.
  destruct idxs as [|i0 idxs'] eqn:Ei; [simpl in Hlen; lia|]. rewrite <- Ei in *.
  assert (Hdec : mapM test_js.decodeShare (map shareValueOf (map expected idxs))
                 = Return (map (fun i => {| x := Num (Z.of_nat (S i));
                                            y := ybytes (Z.of_nat (S i)) |}) idxs)).
  { rewrite map_map.
    apply (mapM_map_return test_js.decodeShare (fun i => shareValueOf (expected i))).
    intros i Hi. apply test_decode_expected, Hlt, Hi. }
  unfold test_js.combineShares. f_equal. rewrite Hdec. rewrite Ei at 1. cbn [map bind].
  rewrite length_map. rewrite Ei at 1. cbn [length Nat.eqb].
  rewrite map_map. cbn [y].
  replace (forallb _ _) with true.
  2:{ symmetry. apply forallb_forall. intros len Hin.
      apply in_map_iff in Hin as [i [<- _]]. rewrite Ei. cbn [map hd].
      rewrite !ybytes_length. apply Nat.eqb_refl. }
  cbn [negb]. rewrite Ei at 1. cbn [map hd y]. rewrite ybytes_length.
  change (encodingOf (expected i0)) with "utf-8".
  rewrite (mapM_all_return _
             (fun b => ToUint8 (Num (random b (Z.to_nat threshold - 2))))).
  - cbn [bind]. reflexivity.
  - intros b Hb. apply in_seq in Hb as [_ Hb]. cbn [Nat.add] in Hb.
    destruct (nth_error secretBytes b) as [v|] eqn:Ev;
      [|apply nth_error_None in Ev; lia].
    rewrite map_map. cbn [x y].
    assert (Hpts : map (fun i => (Num (Z.of_nat (S i)),
                                  index (ybytes (Z.of_nat (S i))) (Num (Z.of_nat b)))) idxs
                   = map (fun k => (Num k,
                                    evaluatePolynomial (coefficients random threshold (b, v))
                                      (Num k)))
                       (map (fun i => Z.of_nat (S i)) idxs)).
    { rewrite map_map. apply map_ext_in. intros i Hi.
      rewrite (point_of_share b v) by (exact Ev || (apply Hlt in Hi; unfold is_byte; lia)).
      reflexivity. }
    rewrite Hpts.
    destruct (lagrange_recovers_last_coefficient
                (coefficients random threshold (b, v))
                (map (fun i => Z.of_nat (S i)) idxs) fuel) as [_ E].
    + discriminate.
    + apply coefficients_bytes.
    + intros k Hk. apply in_map_iff in Hk as [i [<- Hi]]. apply Hlt in Hi. lia.
    + apply NoDup_fmap_2; [|exact Hnd]. intros i j E. lia.
    + rewrite coefficients_length, length_map. exact Hlen.
    + exact Hfuel.
    + rewrite E. cbn [bind]. rewrite coefficients_last. cbn [fst].
      now rewrite ToUint8_Num_byte by apply ToUint8_byte.
Qed.

Lemma chosen_expected (idxs : list nat) :
  (forall i, In i idxs -> (i < Z.to_nat totalShares)%nat) ->
  map (fun i => nth i (map expected (seq 0 (Z.to_nat totalShares))) (ShareString "")) idxs
  = map expected idxs.
Proof.
  intros Hlt. apply map_ext_in. intros i Hi. apply Hlt in Hi.
  rewrite (nth_indep _ _ (expected 0%nat)) by (now rewrite length_map, length_seq).
  rewrite map_nth, seq_nth by exact Hi. reflexivity.
Qed.

End RoundTrip.

(** X12. Share a non-empty secret among at most 255 holders and combine
    any [threshold] or more of the shares returned, taken at pairwise
    distinct positions. [combineShares] then decodes, for every byte of
    the secret, the last of the random coefficients drawn for that byte:
    the bytes of the secret itself do not enter the result. *)
Theorem X12_round_trip_returns_last_coefficients
    (TextEncoder_encode : string -> list Z)
    (TextDecoder_decode : string -> list Z -> completion string)
    (random : nat -> nat -> Z) (uuidv4 : nat -> string)
    (secret : string) (totalShares threshold : Z) (idxs : list nat) :
  2 <= threshold <= totalShares -> totalShares <= 255 ->
  TextEncoder_encode secret <> [] ->
  NoDup idxs ->
  (forall i, In i idxs -> (i < Z.to_nat totalShares)%nat) ->
  (Z.to_nat threshold <= length idxs)%nat ->
  exists shares,
    createShares TextEncoder_encode random uuidv4 secret totalShares threshold
    = Return shares
    /\ length shares = Z.to_nat totalShares
    /\ combineShares TextDecoder_decode
         (map (fun i => nth i shares (ShareString "")) idxs)
       = rethrow CombineSharesFailed
           (TextDecoder_decode "utf-8"
              (map (fun b => ToUint8 (Num (random b (Z.to_nat threshold - 2)%nat)))
                 (seq 0 (length (TextEncoder_encode secret))))).
Proof.
  intros Ht Hn Hne Hnd Hlt Hlen.
  eexists. split; [|split].
  - rewrite createShares_output by lia.
    destruct (TextEncoder_encode secret) eqn:E; [congruence|]. rewrite <- E. reflexivity.
  - now rewrite length_map, length_seq.
  - rewrite (chosen_expected TextEncoder_encode random uuidv4 secret totalShares threshold)
      by exact Hlt.
    rewrite combineShares_unfold.
    rewrite (reconstruct_expected TextEncoder_encode random uuidv4 secret totalShares
               threshold Ht Hn idxs Hnd Hlt Hlen).
    reflexivity.
Qed.

Lemma X12_witness :
  exists shares,
    createShares example.TextEncoder_encode example.random example.uuidv4 "A" 3 2
    = Return shares
    /\ length shares = Z.to_nat 3
    /\ combineShares example.TextDecoder_decode
         (map (fun i => nth i shares (ShareString "")) [0; 2]%nat)
       = rethrow CombineSharesFailed
           (example.TextDecoder_decode "utf-8"
              (map (fun b => ToUint8 (Num (example.random b (Z.to_nat 2 - 2)%nat)))
                 (seq 0 (length (example.TextEncoder_encode "A"))))).
Proof.
  apply (X12_round_trip_returns_last_coefficients example.TextEncoder_encode
           example.TextDecoder_decode example.random example.uuidv4 "A" 3 2 [0; 2]%nat).
  - lia.
  - lia.
  - discriminate.
  - repeat constructor; rewrite ?list_elem_of_In; simpl; intuition lia.
  - intros i Hi. repeat (destruct Hi as [<-|Hi]; [simpl; lia|]). destruct Hi.
  - simpl. lia.
Defined.

(** ** [test.js] against the service *)

Lemma test_evaluatePolynomial_loop (x : Z) (coeffs : list Z) :
  is_byte x -> (forall c, In c coeffs -> is_byte c) ->
  forall rest pre r,
    coeffs = (pre ++ rest)%list -> is_byte r ->
    fold_left
      (fun result i =>
         GF256.add (GF256.mul result (Num x)) (index coeffs (Num (Z.of_nat i))))
      (seq (length pre) (length rest)) (Num r)
    = Num (fold_left (fun r c => Z.lxor (fmul r x) c) rest r).
Proof.
  intros Hx Hc. induction rest as [|c rest IH]; intros pre r E Hr; [reflexivity|].
  cbn [length seq fold_left].
  assert (Hcb : is_byte c) by (apply Hc; rewrite E; apply in_or_app; right; now left).
  rewrite GF256_mul_field by assumption.
  rewrite E at 1. rewrite index_app_middle.
  unfold GF256.add at 1. rewrite bxor_bytes by (auto using fmul_byte).
  specialize (IH (pre ++ [c])%list (Z.lxor (fmul r x) c)).
  rewrite length_app in IH. cbn [length] in IH. rewrite Nat.add_1_r in IH.
  apply IH.
  - rewrite E, <- app_assoc. reflexivity.
  - apply lxor_byte; auto using fmul_byte.
Qed.

Lemma evaluatePolynomial_agree (coeffs : list Z) (x : Z) :
  (forall c, In c coeffs -> 0 <= c <= 255) -> 0 <= x <= 255 ->
  (x <> 0 ->
   test_js.evaluatePolynomial coeffs (Num x) = evaluatePolynomial coeffs (Num x))
  /\ (coeffs <> [] ->
      test_js.evaluatePolynomial coeffs (Num 0) = Num (hd 0 coeffs)
      /\ evaluatePolynomial coeffs (Num 0) = Num (List.last coeffs 0)).
Proof.
  intros Hc Hx. split.
  - intros Hne. unfold test_js.evaluatePolynomial. simpl strict_eq.
    apply Z.eqb_neq in Hne. rewrite Hne.
    destruct coeffs as [|c0 rest]; [reflexivity|].
    rewrite (proj1 (evaluatePolynomial_horner c0 rest x Hx Hc)).
    change (index (c0 :: rest) (Num 0)) with (Num c0).
    cbn [length]. rewrite Nat.sub_succ, Nat.sub_0_r.
    apply (test_evaluatePolynomial_loop x (c0 :: rest) Hx Hc rest [c0] c0); [reflexivity|].
    apply Hc. now left.
  - intros Hne. destruct coeffs as [|c0 rest]; [congruence|]. split; [reflexivity|].
    rewrite (proj1 (evaluatePolynomial_horner c0 rest 0 byte_zero Hc)). f_equal.
    rewrite last_cons_default.
    assert (H : forall l r, (forall c, In c l -> is_byte c) -> is_byte r ->
                  fold_left (fun r c => Z.lxor (fmul r 0) c) l r = List.last l r).
    { induction l as [|c l IH]; intros r Hl Hr; [reflexivity|].
      cbn [fold_left]. rewrite fmul_zero by (auto using byte_zero).
      rewrite Z.lxor_0_l, last_cons_default. apply IH.
      - intros c' Hc'. apply Hl. now right.
      - apply Hl. now left. }
    apply H; [intros c Hin; apply Hc; now right|apply Hc; now left].
Qed.

(** X13. On byte coefficients and a byte [x], the two
    [evaluatePolynomial]s return the same value unless [x] is 0. At 0
    they part: [test.js] returns the first coefficient of the list, the
    service the last. *)
Theorem X13_evaluatePolynomial_agree (coeffs : list Z) (x : Z) :
  (forall c, In c coeffs -> 0 <= c <= 255) -> 0 <= x <= 255 ->
  (x <> 0 ->
   test_js.evaluatePolynomial coeffs (Num x) = evaluatePolynomial coeffs (Num x))
  /\ (coeffs <> [] ->
      test_js.evaluatePolynomial coeffs (Num 0) = Num (hd 0 coeffs)
      /\ evaluatePolynomial coeffs (Num 0) = Num (List.last coeffs 0)).
Proof. exact (evaluatePolynomial_agree coeffs x). Qed.

Lemma X13_witness :
  (2 <> 0 ->
   test_js.evaluatePolynomial [65; 66; 67] (Num 2) = evaluatePolynomial [65; 66; 67] (Num 2))
  /\ ([65; 66; 67] <> [] ->
      test_js.evaluatePolynomial [65; 66; 67] (Num 0) = Num (hd 0 [65; 66; 67])
      /\ evaluatePolynomial [65; 66; 67] (Num 0) = Num (List.last [65; 66; 67] 0)).
Proof.
  apply (X13_evaluatePolynomial_agree [65; 66; 67] 2); [|lia].
  intros c Hc. repeat (destruct Hc as [<-|Hc]; [lia|]). destruct Hc.
Defined.

Lemma foldM_ext_in {A B} (f g : A -> B -> completion A) (l : list B) :
  (forall a b, In b l -> f a b = g a b) -> forall a, foldM f l a = foldM g l a.
Proof.
  induction l as [|b l IH]; intros H a; [reflexivity|].
  cbn [foldM]. rewrite (H a b) by now left.
  destruct (g a b); cbn [bind]; try reflexivity.
  apply IH. intros a' b' Hb'. apply H. now right.
Qed.

Lemma test_createShares_agrees
    (TextEncoder_encode : string -> list Z) (random : nat -> nat -> Z)
    (uuidv4 : nat -> string) (secret : string) (totalShares threshold : Z) :
  totalShares <= 255 ->
  test_js.createShares TextEncoder_encode random uuidv4 secret totalShares threshold
  = createShares TextEncoder_encode random uuidv4 secret totalShares threshold.
Proof.
  intros Hn. unfold test_js.createShares, createShares. f_equal.
  destruct (threshold <? 2); [reflexivity|].
  destruct (totalShares <? threshold); [reflexivity|]. cbv zeta.
  f_equal. apply foldM_ext_in. intros shares [byteIndex secretByte] _.
  unfold getRandomValues.
  destruct (65536 <? Z.of_nat (Z.to_nat threshold - 1)); [reflexivity|]. cbn [bind].
  f_equal. apply fold_left_ext_in. intros shares' x Hin. f_equal.
  apply in_map_iff in Hin as [k [<- Hk]]. apply in_seq in Hk.
  apply evaluatePolynomial_agree; [|lia|lia].
  intros c [<-|Hc]; [apply ToUint8_byte|].
  apply in_map_iff in Hc as [i [<- _]]. apply ToUint8_byte.
Qed.

(** X14. For at most 255 shares, [createShares] of [test.js] returns
    what [createShares] of the service returns, errors included: the
    polynomials are evaluated at the non-zero bytes 1..[totalShares]
    only, where the two [evaluatePolynomial]s agree. *)
Theorem X14_test_createShares_agrees
    (TextEncoder_encode : string -> list Z) (random : nat -> nat -> Z)
    (uuidv4 : nat -> string) (secret : string) (totalShares threshold : Z) :
  totalShares <= 255 ->
  test_js.createShares TextEncoder_encode random uuidv4 secret totalShares threshold
  = createShares TextEncoder_encode random uuidv4 secret totalShares threshold.
Proof.
  exact (test_createShares_agrees TextEncoder_encode random uuidv4 secret totalShares
           threshold).
Qed.

Lemma X14_witness :
  test_js.createShares example.TextEncoder_encode example.random example.uuidv4 "A" 3 2
  = createShares example.TextEncoder_encode example.random example.uuidv4 "A" 3 2.
Proof. apply X14_test_createShares_agrees. lia. Defined.

(** X15. The round trip of [test.js]: sharing a non-empty secret among
    at most 255 holders and combining [threshold] or more of the shares,
    taken at pairwise distinct positions, decodes the last random
    coefficient of every byte, as in the service; a decoding failure is
    reported with the bytes in hexadecimal. *)
Theorem X15_test_js_round_trip
    (TextEncoder_encode : string -> list Z)
    (TextDecoder_decode : string -> list Z -> completion string)
    (random : nat -> nat -> Z) (uuidv4 : nat -> string)
    (secret : string) (totalShares threshold : Z) (idxs : list nat) (fuel : nat) :
  2 <= threshold <= totalShares -> totalShares <= 255 ->
  TextEncoder_encode secret <> [] ->
  NoDup idxs ->
  (forall i, In i idxs -> (i < Z.to_nat totalShares)%nat) ->
  (Z.to_nat threshold <= length idxs)%nat ->
  (inverse_fuel <= fuel)%nat ->
  let bytes :=
    map (fun b => ToUint8 (Num (random b (Z.to_nat threshold - 2)%nat)))
      (seq 0 (length (TextEncoder_encode secret))) in
  exists shares,
    test_js.createShares TextEncoder_encode random uuidv4 secret totalShares threshold
    = Return shares
    /\ test_js.combineShares TextDecoder_decode fuel
         (map (fun i => nth i shares (ShareString "")) idxs)
       = rethrow CombineSharesFailed
           (match TextDecoder_decode "utf-8" bytes with
            | Throw decodeError => Throw (DecodeFailed decodeError (bytesToHex bytes))
            | decoded => decoded
            end).
Proof.
  intros Ht Hn Hne Hnd Hlt Hlen Hfuel bytes.
  eexists. split.
  - rewrite test_createShares_agrees by exact Hn.
    rewrite createShares_output by lia.
    destruct (TextEncoder_encode secret) eqn:E; [congruence|]. rewrite <- E. reflexivity.
  - rewrite (chosen_expected TextEncoder_encode random uuidv4 secret totalShares threshold)
      by exact Hlt.
    exact (test_combine_expected TextEncoder_encode TextDecoder_decode random uuidv4 secret
             totalShares threshold Ht Hn fuel idxs Hfuel Hnd Hlt Hlen).
Qed.

Lemma X15_witness :
  exists shares,
    test_js.createShares example.TextEncoder_encode example.random example.uuidv4 "A" 3 2
    = Return shares
    /\ test_js.combineShares example.TextDecoder_decode 9
         (map (fun i => nth i shares (ShareString "")) [0; 2]%nat)
       = rethrow CombineSharesFailed
           (match
              example.TextDecoder_decode "utf-8"
                (map (fun b => ToUint8 (Num (example.random b (Z.to_nat 2 - 2)%nat)))
                   (seq 0 (length (example.TextEncoder_encode "A"))))
            with
            | Throw decodeError =>
                Throw
                  (DecodeFailed decodeError
                     (bytesToHex
                        (map (fun b => ToUint8 (Num (example.random b (Z.to_nat 2 - 2)%nat)))
                           (seq 0 (length (example.TextEncoder_encode "A"))))))
            | decoded => decoded
            end).
Proof.
  apply (X15_test_js_round_trip example.TextEncoder_encode example.TextDecoder_decode
           example.random example.uuidv4 "A" 3 2 [0; 2]%nat 9).
  - lia.
  - lia.
  - discriminate.
  - repeat constructor; rewrite ?list_elem_of_In; simpl; intuition lia.
  - intros i Hi. repeat (destruct Hi as [<-|Hi]; [simpl; lia|]). destruct Hi.
  - simpl. lia.
  - unfold inverse_fuel. lia.
Defined.

(** X16. The self-test [testSimple] shares the letter A with threshold
    3 among 5, combines the first three shares and compares. What it
    recovers is the decoding of the second random byte drawn for the
    letter, so it returns [true] exactly when that byte decodes to A. *)
Theorem X16_testSimple_outcome
    (TextEncoder_encode : string -> list Z)
    (TextDecoder_decode : string -> list Z -> completion string)
    (random : nat -> nat -> Z) (uuidv4 : nat -> string) (fuel : nat) :
  TextEncoder_encode "A" = [0x41] ->
  (inverse_fuel <= fuel)%nat ->
  let r := ToUint8 (Num (random 0%nat 1%nat)) in
  test_js.testSimple TextEncoder_encode TextDecoder_decode random uuidv4 fuel
  = do recovered <-
      rethrow CombineSharesFailed
        (match TextDecoder_decode "utf-8" [r] with
         | Throw decodeError => Throw (DecodeFailed decodeError (bytesToHex [r]))
         | decoded => decoded
         end) ;;
    Return (recovered =? "A")%string.
Proof.
  intros Henc Hfuel r. unfold test_js.testSimple.
  rewrite GF256_div_field by (assumption || (unfold is_byte; lia) || discriminate).
  cbn [bind mapM].
  rewrite !GF256_inverse_field by (assumption || (unfold is_byte; lia) || discriminate).
  cbn [bind]. cbv zeta.
  rewrite test_createShares_agrees by lia.
  rewrite createShares_output by lia. rewrite Henc. cbn [bind].
  change (firstn 3 (map ?f (seq 0 (Z.to_nat 5)))) with (map f [0; 1; 2]%nat).
  rewrite <- Henc.
  rewrite (test_combine_expected TextEncoder_encode TextDecoder_decode random uuidv4 "A" 5 3
             ltac:(lia) ltac:(lia) fuel [0; 1; 2]%nat Hfuel).
  - rewrite Henc. reflexivity.
  - repeat constructor; rewrite ?list_elem_of_In; simpl; intuition lia.
  - intros i Hi. simpl in Hi. simpl. intuition lia.
  - simpl. lia.
Qed.

Lemma X16_witness :
  test_js.testSimple example.TextEncoder_encode example.TextDecoder_decode example.random
    example.uuidv4 9
  = do recovered <-
      rethrow CombineSharesFailed
        (match
           example.TextDecoder_decode "utf-8" [ToUint8 (Num (example.random 0%nat 1%nat))]
         with
         | Throw decodeError =>
             Throw
               (DecodeFailed decodeError
                  (bytesToHex [ToUint8 (Num (example.random 0%nat 1%nat))]))
         | decoded => decoded
         end) ;;
    Return (recovered =? "A")%string.
Proof.
  apply (X16_testSimple_outcome example.TextEncoder_encode example.TextDecoder_decode
           example.random example.uuidv4 9).
  - reflexivity.
  - unfold inverse_fuel. lia.
Defined.

(** ** Degenerate inputs of [combineShares] *)

(** X17. One share is enough for [combineShares] to return a text: from
    a single well-formed share (a byte index, byte values) it returns,
    in both files, the decoding of the [y] bytes of that share, whatever
    the threshold the share was created with. *)
Theorem X17_combine_single_share
    (TextDecoder_decode : string -> list Z -> completion string)
    (k : Z) (ys : list Z) (fuel : nat) :
  0 <= k <= 255 -> (forall b, In b ys -> 0 <= b <= 255) ->
  (inverse_fuel <= fuel)%nat ->
  let share := ShareString ("80" ++ padStart2 (toString16 k) ++ bytesToHex ys) in
  combineShares TextDecoder_decode [share]
  = rethrow CombineSharesFailed (TextDecoder_decode "utf-8" ys)
  /\ test_js.combineShares TextDecoder_decode fuel [share]
     = rethrow CombineSharesFailed
         (match TextDecoder_decode "utf-8" ys with
          | Throw decodeError => Throw (DecodeFailed decodeError (bytesToHex ys))
          | decoded => decoded
          end).
Proof.
  intros Hk Hys Hfuel share.
  assert (Hdec : decodeShare (Serialized ("80" ++ padStart2 (toString16 k) ++ bytesToHex ys))
                 = Return {| x := Num k; y := ys |}) by now apply decodeShare_encoded.
  assert (Hdec' : test_js.decodeShare
                    (Serialized ("80" ++ padStart2 (toString16 k) ++ bytesToHex ys))
                  = Return {| x := Num k; y := ys |}).
  { revert Hdec. unfold decodeShare, test_js.decodeShare.
    destruct (negb (String.prefix "80" _)); [discriminate|].
    rewrite test_hexToBytes_of_service.
    destruct (hexToBytes _); cbn [bind]; congruence. }
  assert (Hpoint : forall b, In b (seq 0 (length ys)) ->
            forall fuel', (inverse_fuel <= fuel')%nat ->
            lagrangeInterpolation [(Num k, index ys (Num (Z.of_nat b)))]
            = Return (Num (nth b ys 0))
            /\ test_js.lagrangeInterpolation fuel' [(Num k, index ys (Num (Z.of_nat b)))]
               = Return (Num (nth b ys 0))).
  { intros b Hb fuel' Hfuel'. apply in_seq in Hb as [_ Hb]. cbn [Nat.add] in Hb.
    assert (Ei : index ys (Num (Z.of_nat b)) = Num (nth b ys 0)).
    { unfold index.
      replace (Z.of_nat b <? 0) with false by (symmetry; apply Z.ltb_ge; lia).
      rewrite Nat2Z.id. destruct (nth_error ys b) as [v|] eqn:Ev.
      - f_equal. symmetry. now apply nth_error_nth.
      - apply nth_error_None in Ev. lia. }
    rewrite Ei.
    assert (Hy : is_byte (nth b ys 0)) by (apply Hys, nth_In, Hb).
    pose proof (lagrange_recovers_last_coefficient [nth b ys 0] [k] fuel') as H.
    cbn [map List.last length] in H.
    change (evaluatePolynomial [nth b ys 0] (Num k)) with (Num (nth b ys 0)) in H.
    apply H; try assumption.
    - discriminate.
    - intros c [<-|[]]. exact Hy.
    - intros c [<-|[]]. exact Hk.
    - repeat constructor. rewrite list_elem_of_In. simpl. tauto.
    - lia. }
  assert (Hbytes : forall f : list (jsval * jsval) -> completion jsval,
            (forall b, In b (seq 0 (length ys)) ->
               f [(Num k, index ys (Num (Z.of_nat b)))] = Return (Num (nth b ys 0))) ->
            mapM (fun byteIndex =>
                    do f0 <- f [(Num k, index ys (Num (Z.of_nat byteIndex)))] ;;
                    Return (ToUint8 f0))
              (seq 0 (length ys))
            = Return ys).
  { intros f Hf.
    rewrite (mapM_all_return _ (fun b => nth b ys 0)).
    - f_equal. clear -ys. apply nth_ext with (d := 0) (d' := 0).
      + now rewrite length_map, length_seq.
      + intros n Hn. rewrite length_map, length_seq in Hn.
        rewrite (nth_indep _ _ (nth 0 ys 0)) by (now rewrite length_map, length_seq).
        rewrite (map_nth (fun b => nth b ys 0) (seq 0 (length ys)) 0%nat).
        rewrite seq_nth by exact Hn. reflexivity.
    - intros b Hb. rewrite (Hf b Hb). cbn [bind]. f_equal.
      apply ToUint8_Num_byte. apply in_seq in Hb as [_ Hb]. apply Hys, nth_In, Hb. }
  split.
  - rewrite combineShares_unfold. unfold reconstruct, share.
    cbn [map shareValueOf mapM]. rewrite Hdec. cbn [bind hd x y map].
    rewrite (Hbytes lagrangeInterpolation)
      by (intros b Hb; exact (proj1 (Hpoint b Hb inverse_fuel (Nat.le_refl _)))).
    reflexivity.
  - unfold test_js.combineShares, share. f_equal.
    cbn [map shareValueOf mapM]. rewrite Hdec'. cbn [bind length Nat.eqb hd x y forallb map].
    rewrite Nat.eqb_refl. cbn [andb negb].
    rewrite (Hbytes (test_js.lagrangeInterpolation fuel))
      by (intros b Hb; exact (proj2 (Hpoint b Hb fuel Hfuel))).
    reflexivity.
Qed.

Lemma X17_witness :
  combineShares example.TextDecoder_decode
    [ShareString ("80" ++ padStart2 (toString16 1) ++ bytesToHex [72; 105])]
  = rethrow CombineSharesFailed (example.TextDecoder_decode "utf-8" [72; 105])
  /\ test_js.combineShares example.TextDecoder_decode 9
       [ShareString ("80" ++ padStart2 (toString16 1) ++ bytesToHex [72; 105])]
     = rethrow CombineSharesFailed
         (match example.TextDecoder_decode "utf-8" [72; 105] with
          | Throw decodeError => Throw (DecodeFailed decodeError (bytesToHex [72; 105]))
          | decoded => decoded
          end).
Proof.
  apply (X17_combine_single_share example.TextDecoder_decode 1 [72; 105] 9).
  - lia.
  - intros b Hb. repeat (destruct Hb as [<-|Hb]; [lia|]). destruct Hb.
  - unfold inverse_fuel. lia.
Defined.

Lemma mapM_length {A B} (f : A -> completion B) (l : list A) bs :
  mapM f l = Return bs -> length bs = length l.
Proof.
  revert bs. induction l as [|a l IH]; intros bs H.
  - inversion H. reflexivity.
  - cbn [mapM] in H. destruct (f a); cbn [bind] in H; try discriminate.
    destruct (mapM f l) as [bs'| |]; cbn [bind] in H; try discriminate.
    inversion H. simpl. f_equal. now apply IH.
Qed.

(** X18. On the empty list [combineShares] fails, in both files, with
    the [TypeError] of reading [shares[0].encoding]. The check of
    [test.js] for an empty list of decoded shares comes after that, and
    after the decoding of a non-empty list, which keeps its length: the
    list it inspects is never empty. *)
Theorem X18_combine_no_shares
    (TextDecoder_decode : string -> list Z -> completion string) (fuel : nat) :
  combineShares TextDecoder_decode [] = Throw (CombineSharesFailed TypeError)
  /\ test_js.combineShares TextDecoder_decode fuel [] = Throw (CombineSharesFailed TypeError)
  /\ (forall shares decoded,
        shares <> [] ->
        mapM test_js.decodeShare (map shareValueOf shares) = Return decoded ->
        (length decoded =? 0)%nat = false).
Proof.
  split; [reflexivity|]. split; [reflexivity|].
  intros shares decoded Hne E. apply mapM_length in E. rewrite length_map in E.
  destruct shares; [congruence|]. destruct decoded; [discriminate|reflexivity].
Qed.

(** ** The key store *)

Lemma fallbackDeriveKey_bytes {CryptoKey : Type} password salt :
  @fallbackDeriveKey CryptoKey password (Some salt)
  = Return {| derivedKey := None;
              key := bytesToHex (fallback_key_bytes password salt);
              keystore.salt := bytesToHex salt;
              isWebCrypto := Some false |}.
Proof. unfold fallbackDeriveKey, fallback_key_bytes, bytesToHex. reflexivity. Qed.

(** *** Writing a record, then reading it *)

Lemma saveToSecureStorage_resolves
    (toISOString : nat -> string) (idb_outcome : nat -> IDBOutcome)
    (key : string) (data : SecureData) (w : World) :
  fst (saveToSecureStorage toISOString idb_outcome key data w) = Return true.
Proof.
  unfold saveToSecureStorage, bindM, saveToIndexedDB, getSecureBackupStorage, backup_put.
  destruct (idb_outcome (idb_uses w)); try reflexivity;
    cbn [fst snd _secureBackupStorage count_idb_use count_clock_read];
    destruct (_secureBackupStorage w); reflexivity.
Qed.


(** *** Retrieval *)

(** X20. [retrieveEncryptionKeySecurely] rejects with one error only,
    that of its [catch]: a missing record, which throws "not found"
    inside the [try], reaches the caller as the same retrieval failure
    as every other error. *)
Theorem X20_retrieval_failures
    (TextEncoder_encode : string -> list Z) (provider : Provider) (CryptoKey : Type)
    (subtle_deriveKey : list Z -> list Z -> completion CryptoKey)
    (subtle_exportKey : CryptoKey -> completion (list Z))
    (random : nat -> nat -> Z) (idb_outcome : nat -> IDBOutcome)
    (subtle_decrypt : CryptoKey -> list Z -> list Z -> completion (list Z))
    (TextDecoder_decode : string -> list Z -> completion string)
    (password : string) (w : World) :
  let retrieved :=
    fst (retrieveEncryptionKeySecurely TextEncoder_encode provider CryptoKey
           subtle_deriveKey subtle_exportKey random idb_outcome subtle_decrypt
           TextDecoder_decode password w) in
  (forall f, retrieved = Rejected f -> f = RetrieveFailed)
  /\ (fst (getFromSecureStorage idb_outcome "masterKey" w) = Return None ->
      retrieved = Rejected RetrieveFailed).
Proof.
  cbv zeta. unfold retrieveEncryptionKeySecurely.
  destruct (getFromSecureStorage idb_outcome "masterKey" w) as [[[sd|]|e|] w'];
    cbn [fst].
  - split; [|discriminate].
    destruct (decryptRecord _ _ _ _ _ _ _ _ _ _ w') as [[s|e|] w'']; cbn; congruence.
  - split; [cbn; congruence|reflexivity].
  - split; [cbn; congruence|discriminate].
  - split; [cbn; congruence|discriminate].
Qed.

(** *** The salt that is stored *)

Lemma nibble_check_all : forall_bytes nibble_check = true.
Proof. vm_compute. reflexivity. Qed.

Lemma mangle_bytesToHex (salt : list Z) :
  (forall b, In b salt -> is_byte b) ->
  mangle (bytesToHex salt) = bytesToHex (nibbles salt).
Proof.
  induction salt as [|b salt IH]; intros H; [reflexivity|].
  assert (Hb : is_byte b) by (apply H; now left).
  pose proof (forall_bytes_elim _ nibble_check_all b Hb) as Hn.
  unfold nibble_check in Hn. rewrite bytesToHex_cons.
  destruct (padStart2 (toString16 b)) as [|c [|d [|e s]]]; try discriminate.
  apply andb_prop in Hn as [Hc Hd].
  apply String.eqb_eq in Hc. apply String.eqb_eq in Hd.
  change (String c (String d "") ++ bytesToHex salt)
    with (String c (String d (bytesToHex salt))).
  unfold mangle. cbn [list_ascii_of_string map]. rewrite !concat_empty_cons.
  fold (mangle (bytesToHex salt)). rewrite IH by (intros b' Hb'; apply H; now right).
  cbn [nibbles flat_map app]. fold (nibbles salt).
  rewrite !bytesToHex_cons. now rewrite Hc, Hd.
Qed.

Lemma nibbles_bytes salt b : (forall a, In a salt -> is_byte a) -> In b (nibbles salt) -> is_byte b.
Proof.
  intros H Hb. unfold nibbles in Hb. apply in_flat_map in Hb as [a [Ha Hin]].
  apply H in Ha. unfold is_byte in *.
  destruct Hin as [<-|[<-|[]]].
  - pose proof (Z.div_pos a 16). assert (a / 16 <= a) by (apply Z.div_le_upper_bound; lia). lia.
  - pose proof (Z.mod_pos_bound a 16). lia.
Qed.

Lemma nibbles_length salt : length (nibbles salt) = (2 * length salt)%nat.
Proof. induction salt as [|b salt IH]; [reflexivity|]. cbn [nibbles flat_map app length] in *. fold (nibbles salt). lia. Qed.

(** *** The fallback cipher *)

Lemma index_mod_nth (l : list Z) (i : nat) :
  l <> [] -> index_mod l i = Num (nth (i mod length l) l 0).
Proof.
  intros Hne. unfold index_mod. destruct (length l) as [|n] eqn:El.
  - destruct l; [congruence|discriminate].
  - unfold index.
    replace (Z.of_nat (i mod S n) <? 0) with false by (symmetry; apply Z.ltb_ge; lia).
    rewrite Nat2Z.id.
    assert (Hlt : (i mod S n < length l)%nat)
      by (rewrite El; apply Nat.mod_upper_bound; lia).
    destruct (nth_error l (i mod S n)) as [v|] eqn:Ev.
    + f_equal. symmetry. now apply nth_error_nth.
    + apply nth_error_None in Ev. lia.
Qed.

Lemma nth_byte (l : list Z) i :
  (forall b, In b l -> is_byte b) -> is_byte (nth i l 0).
Proof.
  intros H. destruct (Nat.lt_ge_cases i (length l)) as [Hlt|Hge].
  - apply H, nth_In, Hlt.
  - rewrite nth_overflow by exact Hge. apply byte_zero.
Qed.

Lemma indexed_map_indexed {A B} (f : nat * A -> B) (l : list A) :
  indexed (map f (indexed l)) = map (fun e => (fst e, f e)) (indexed l).
Proof.
  unfold indexed. rewrite length_map, length_combine, length_seq, Nat.min_id.
  generalize 0%nat. induction l as [|a l IH]; intros s; [reflexivity|].
  cbn [length seq combine map fst]. now rewrite IH.
Qed.

Lemma xor_stream_bytes data key iv b : In b (xor_stream data key iv) -> is_byte b.
Proof.
  unfold xor_stream. intros H. apply in_map_iff in H as [[i m] [<- _]]. apply ToUint8_byte.
Qed.

Lemma xor_stream_twice (data key key' iv : list Z) :
  (forall b, In b data -> is_byte b) ->
  (forall b, In b key -> is_byte b) -> key <> [] ->
  (forall b, In b key' -> is_byte b) -> key' <> [] ->
  (forall b, In b iv -> is_byte b) -> iv <> [] ->
  xor_stream (xor_stream data key iv) key' iv
  = map (fun '(i, m) =>
           Z.lxor (Z.lxor m (nth (i mod length key) key 0)) (nth (i mod length key') key' 0))
      (indexed data).
Proof.
  intros Hd Hk Hkn Hk' Hkn' Hiv Hivn.
  unfold xor_stream at 1. unfold xor_stream at 1. rewrite indexed_map_indexed, map_map.
  apply map_ext_in. intros [i m] Hin. cbn [fst].
  assert (Hm : is_byte m).
  { apply Hd. unfold indexed in Hin. now apply in_combine_r in Hin. }
  rewrite !index_mod_nth by assumption.
  set (k := nth (i mod length key) key 0). set (k' := nth (i mod length key') key' 0).
  set (v := nth (i mod length iv) iv 0).
  assert (Hkb : is_byte k) by (apply nth_byte, Hk).
  assert (Hkb' : is_byte k') by (apply nth_byte, Hk').
  assert (Hvb : is_byte v) by (apply nth_byte, Hiv).
  rewrite (bxor_bytes m k), (bxor_bytes (Z.lxor m k) v) by (auto using lxor_byte).
  rewrite (ToUint8_Num_byte (Z.lxor (Z.lxor m k) v)) by (auto using lxor_byte).
  rewrite !bxor_bytes by (auto using lxor_byte).
  rewrite ToUint8_Num_byte by (auto using lxor_byte).
  apply Z.bits_inj'. intros n Hn. rewrite !Z.lxor_spec.
  destruct (Z.testbit m n), (Z.testbit k n), (Z.testbit k' n), (Z.testbit v n); reflexivity.
Qed.

(** *** Storing the master key, then retrieving it *)

Section StoreRetrieve.

Variable TextEncoder_encode : string -> list Z.
Variable TextDecoder_decode : string -> list Z -> completion string.
Variable CryptoKey : Type.
Variable subtle_deriveKey : list Z -> list Z -> completion CryptoKey.
Variable subtle_exportKey : CryptoKey -> completion (list Z).
Variable subtle_encrypt : CryptoKey -> list Z -> list Z -> completion (list Z).
Variable subtle_decrypt : CryptoKey -> list Z -> list Z -> completion (list Z).
Variable random : nat -> nat -> Z.
Variable Math_random_byte : nat -> Z.
Variable toISOString : nat -> string.
Variable idb_outcome : nat -> IDBOutcome.

Hypothesis Hencoder : forall s b, In b (TextEncoder_encode s) -> is_byte b.

Let build :=
  buildSecureData TextEncoder_encode RandomOnly CryptoKey subtle_deriveKey subtle_exportKey
    subtle_encrypt random Math_random_byte toISOString.

Lemma fallback_key_bytes_bytes password salt b :
  In b (fallback_key_bytes password salt) -> is_byte b.
Proof.
  unfold fallback_key_bytes. intros H. apply in_map_iff in H as [i [<- _]].
  apply ToUint8_byte.
Qed.

Lemma fallback_key_bytes_length password salt :
  length (fallback_key_bytes password salt) = 32%nat.
Proof. unfold fallback_key_bytes. now rewrite length_map, length_seq. Qed.

Lemma build_fallback masterKey password w :
  let salt0 := map (fun i => ToUint8 (Num (random (random_calls w) i))) (seq 0 16) in
  let ivBytes :=
    map (fun i => ToUint8 (Num (Math_random_byte (Math_random_calls w + i)))) (seq 0 12) in
  exists w',
    build masterKey password w
    = (Return
         {| encryptedKey :=
              bytesToHex (xor_stream (TextEncoder_encode masterKey)
                            (fallback_key_bytes password salt0) ivBytes);
            iv := bytesToHex ivBytes;
            sd_salt := bytesToHex (nibbles salt0);
            version := 2;
            algorithm := "XOR-FALLBACK";
            iterations := 1000;
            createdAt := toISOString (clock_reads w);
            keyEncoding := "utf8" |}, w').
Proof.
  intros salt0 ivBytes.
  assert (Hsalt : forall b, In b salt0 -> is_byte b).
  { intros b Hb. apply in_map_iff in Hb as [i [<- _]]. apply ToUint8_byte. }
  unfold build, buildSecureData, bindM, deriveKeyFromPassword, crypto_getRandomValues.
  cbv beta iota. fold salt0. rewrite fallbackDeriveKey_bytes.
  cbv beta iota. cbn [derivedKey key keystore.salt].
  unfold Math_random_bytes, lift. cbv beta iota. 
  rewrite hexToBytes_bytesToHex by apply fallback_key_bytes_bytes.
  unfold Date_toISOString, ret. cbv beta iota. cbn [fst snd].
  fold ivBytes. fold (mangle (bytesToHex salt0)). rewrite mangle_bytesToHex by exact Hsalt.
  eexists. reflexivity.
Qed.

Lemma decrypt_fallback_record password (data salt0 keyBytes ivBytes : list Z) now w :
  (forall b, In b data -> is_byte b) ->
  (forall b, In b salt0 -> is_byte b) ->
  (forall b, In b keyBytes -> is_byte b) ->
  (forall b, In b ivBytes -> is_byte b) ->
  decryptRecord TextEncoder_encode RandomOnly CryptoKey subtle_deriveKey
    subtle_exportKey random subtle_decrypt TextDecoder_decode password
    {| encryptedKey := bytesToHex (xor_stream data keyBytes ivBytes);
       iv := bytesToHex ivBytes;
       sd_salt := bytesToHex (nibbles salt0);
       version := 2;
       algorithm := "XOR-FALLBACK";
       iterations := 1000;
       createdAt := now;
       keyEncoding := "utf8" |} w
  = (TextDecoder_decode "utf8"
       (xor_stream (xor_stream data keyBytes ivBytes)
          (fallback_key_bytes password (nibbles salt0)) ivBytes), w).
Proof.
  intros Hd Hs Hk Hiv.
  unfold decryptRecord, bindM, lift.
  cbn [encryptedKey iv sd_salt algorithm keyEncoding].
  rewrite !hexToBytes_bytesToHex
    by (apply xor_stream_bytes || assumption || (intros b Hb; now apply nibbles_bytes in Hb)).
  cbv beta iota.
  change (or_default "XOR-FALLBACK" "AES-GCM") with "XOR-FALLBACK".
  change (or_default "utf8" "utf8") with "utf8".
  change (("XOR-FALLBACK" =? "AES-GCM")%string) with false.
  cbn [andb]. unfold ret. cbv beta iota.
  unfold deriveKeyFromPassword. cbv beta iota.
  rewrite fallbackDeriveKey_bytes. cbv beta iota. cbn [key].
  rewrite hexToBytes_bytesToHex by apply fallback_key_bytes_bytes.
  cbv beta iota. reflexivity.
Qed.

(** X21. A browser with [getRandomValues] but without [crypto.subtle],
    and an IndexedDB that fails at every use: the master key is stored
    under the fallback cipher, in memory. The stored salt is not the
    salt the key was derived from but its hexadecimal digits, one byte
    each, so retrieval under the same password derives a second key
    [k'] from that. What it returns is the decoding of the master key's
    bytes, each XORed with the corresponding bytes of both keys (the
    initialization vector cancels); a decoding error is reported as a
    retrieval failure. *)
Theorem X21_store_then_retrieve_fallback (masterKey password : string) (w : World) :
  (forall n, idb_outcome n <> RequestSuccess) ->
  let salt0 := map (fun i => ToUint8 (Num (random (random_calls w) i))) (seq 0 16) in
  let k := fallback_key_bytes password salt0 in
  let k' := fallback_key_bytes password (nibbles salt0) in
  exists w1,
    storeEncryptionKeySecurely TextEncoder_encode RandomOnly CryptoKey subtle_deriveKey
      subtle_exportKey subtle_encrypt random Math_random_byte toISOString idb_outcome
      masterKey password w
    = (Return true, w1)
    /\ fst (retrieveEncryptionKeySecurely TextEncoder_encode RandomOnly CryptoKey
              subtle_deriveKey subtle_exportKey random idb_outcome subtle_decrypt
              TextDecoder_decode password w1)
       = match
           TextDecoder_decode "utf8"
             (map (fun '(i, m) =>
                     Z.lxor (Z.lxor m (nth (i mod 32) k 0)) (nth (i mod 32) k' 0))
                (indexed (TextEncoder_encode masterKey)))
         with
         | Return text => Resolved text
         | Throw _ => Rejected RetrieveFailed
         | OutOfFuel => Unfinished
         end.
Proof.
  intros Hidb salt0 k k'.
  destruct (build_fallback masterKey password w) as (w0 & Hbuild).
  fold salt0 in Hbuild. fold k in Hbuild.
  set (ivBytes := map (fun i => ToUint8 (Num (Math_random_byte (Math_random_calls w + i))))
                    (seq 0 12)) in Hbuild.
  match type of Hbuild with _ = (Return ?r, _) => set (record := r) in * end.
  destruct (saveToSecureStorage_failing toISOString idb_outcome "masterKey" record w0
              (Hidb _)) as (w1 & Esave & Hstore & table & Htable & Hlookup).
  exists w1. split.
  - unfold storeEncryptionKeySecurely, try_catch, bindM. fold build.
    rewrite Hbuild, Esave. reflexivity.
  - unfold retrieveEncryptionKeySecurely.
    pose proof (getFromSecureStorage_spec idb_outcome "masterKey" w1) as Hget.
    rewrite Htable, Hlookup in Hget.
    assert (Hfound : fst (getFromSecureStorage idb_outcome "masterKey" w1)
                     = Return (Some record)).
    { rewrite Hget. destruct (idb_outcome (idb_uses w1)) eqn:Eo; try reflexivity.
      now apply Hidb in Eo. }
    destruct (getFromSecureStorage idb_outcome "masterKey" w1) as [r w2].
    cbn [fst] in Hfound. subst r.
    assert (Hs : forall b, In b salt0 -> is_byte b).
    { intros b Hb. apply in_map_iff in Hb as [i [<- _]]. apply ToUint8_byte. }
    assert (Hiv : forall b, In b ivBytes -> is_byte b).
    { intros b Hb. apply in_map_iff in Hb as [i [<- _]]. apply ToUint8_byte. }
    unfold record.
    rewrite (decrypt_fallback_record password (TextEncoder_encode masterKey) salt0 k ivBytes)
      by (apply Hencoder || assumption || apply fallback_key_bytes_bytes).
    cbv beta iota.
    rewrite xor_stream_twice.
    + unfold k, k'. rewrite !fallback_key_bytes_length.
      destruct (TextDecoder_decode _ _); reflexivity.
    + apply Hencoder.
    + apply fallback_key_bytes_bytes.
    + intros E. apply (f_equal (@length Z)) in E.
      unfold k in E. now rewrite fallback_key_bytes_length in E.
    + apply fallback_key_bytes_bytes.
    + intros E. apply (f_equal (@length Z)) in E.
      now rewrite fallback_key_bytes_length in E.
    + exact Hiv.
    + discriminate.
Qed.

End StoreRetrieve.

Lemma example_encoder_bytes s b : In b (example.TextEncoder_encode s) -> is_byte b.
Proof.
  unfold example.TextEncoder_encode. intros H. apply in_map_iff in H as [c [<- _]].
  unfold charCode, is_byte. pose proof (nat_ascii_bounded c). lia.
Qed.

Lemma X21_witness :
  let salt0 :=
    map (fun i => ToUint8 (Num (example.random (random_calls example.fresh_world) i)))
      (seq 0 16) in
  let k := fallback_key_bytes "pw1" salt0 in
  let k' := fallback_key_bytes "pw1" (nibbles salt0) in
  exists w1,
    storeEncryptionKeySecurely example.TextEncoder_encode RandomOnly example.CryptoKey
      example.subtle_deriveKey example.subtle_exportKey example.subtle_encrypt
      example.random example.Math_random_byte example.toISOString example.idb_failing
      "deadbeef" "pw1" example.fresh_world
    = (Return true, w1)
    /\ fst (retrieveEncryptionKeySecurely example.TextEncoder_encode RandomOnly
              example.CryptoKey example.subtle_deriveKey example.subtle_exportKey
              example.random example.idb_failing example.subtle_decrypt
              example.TextDecoder_decode "pw1" w1)
       = match
           example.TextDecoder_decode "utf8"
             (map (fun '(i, m) =>
                     Z.lxor (Z.lxor m (nth (i mod 32) k 0)) (nth (i mod 32) k' 0))
                (indexed (example.TextEncoder_encode "deadbeef")))
         return outcome string with
         | Return text => Resolved text
         | Throw _ => Rejected RetrieveFailed
         | OutOfFuel => Unfinished
         end.
Proof.
  apply (X21_store_then_retrieve_fallback example.TextEncoder_encode
           example.TextDecoder_decode example.CryptoKey example.subtle_deriveKey
           example.subtle_exportKey example.subtle_encrypt example.subtle_decrypt
           example.random example.Math_random_byte example.toISOString example.idb_failing
           example_encoder_bytes "deadbeef" "pw1" example.fresh_world).
  intros n. discriminate.
Defined.

(** X22. What [storeEncryptionKeySecurely] does depends on the platform
    first. Without [window.crypto] the salt cannot be drawn, in the
    derivation or in its fallback, and the call rejects with its
    storage error, nothing written. With [getRandomValues] but without
    [crypto.subtle] it resolves [true], whatever IndexedDB does. *)
Theorem X22_store_by_provider
    (TextEncoder_encode : string -> list Z) (CryptoKey : Type)
    (subtle_deriveKey : list Z -> list Z -> completion CryptoKey)
    (subtle_exportKey : CryptoKey -> completion (list Z))
    (subtle_encrypt : CryptoKey -> list Z -> list Z -> completion (list Z))
    (random : nat -> nat -> Z) (Math_random_byte : nat -> Z)
    (toISOString : nat -> string) (idb_outcome : nat -> IDBOutcome)
    (masterKey password : string) (w : World) :
  storeEncryptionKeySecurely TextEncoder_encode NoCrypto CryptoKey subtle_deriveKey
    subtle_exportKey subtle_encrypt random Math_random_byte toISOString idb_outcome
    masterKey password w
  = (Throw KeyStoreFailed, w)
  /\ exists w',
       storeEncryptionKeySecurely TextEncoder_encode RandomOnly CryptoKey subtle_deriveKey
         subtle_exportKey subtle_encrypt random Math_random_byte toISOString idb_outcome
         masterKey password w
       = (Return true, w').
Proof.
  split; [reflexivity|].
  destruct (build_fallback TextEncoder_encode CryptoKey subtle_deriveKey subtle_exportKey
              subtle_encrypt random Math_random_byte toISOString masterKey password w)
    as (w0 & Hbuild).
  unfold storeEncryptionKeySecurely, try_catch, bindM. rewrite Hbuild.
  match goal with
  | |- context [saveToSecureStorage ?t ?o ?key ?data ?w0] =>
      pose proof (saveToSecureStorage_resolves t o key data w0) as Hsave;
      destruct (saveToSecureStorage t o key data w0) as [r w1]
  end.
  cbn [fst] in Hsave. subst r. now exists w1.
Qed.

(** *** Key derivation *)


Lemma derived_salt_text
    (TextEncoder_encode : string -> list Z) (provider : Provider) (CryptoKey : Type)
    (subtle_deriveKey : list Z -> list Z -> completion CryptoKey)
    (subtle_exportKey : CryptoKey -> completion (list Z))
    (random : nat -> nat -> Z) (password : string) (w w' : World)
    (derived : DerivedKey CryptoKey) :
  deriveKeyFromPassword TextEncoder_encode provider CryptoKey subtle_deriveKey
    subtle_exportKey random password None w
  = (Return derived, w') ->
  salt derived
  = bytesToHex (map (fun i => ToUint8 (Num (random (random_calls w) i))) (seq 0 16)).
Proof.
  unfold deriveKeyFromPassword, crypto_getRandomValues.
  set (salt0 := map (fun i => ToUint8 (Num (random (random_calls w) i))) (seq 0 16)).
  destruct provider; cbv beta iota; [discriminate| |].
  - rewrite fallbackDeriveKey_bytes. now intros [= <- _].
  - destruct (subtle_deriveKey (TextEncoder_encode password) salt0) as [k| |];
      cbn [bind]; rewrite ?fallbackDeriveKey_bytes; try discriminate;
      [|now intros [= <- _]].
    destruct (subtle_exportKey k); cbn [bind]; rewrite ?fallbackDeriveKey_bytes;
      try discriminate; now intros [= <- _].
Qed.

(** X24. The salt in the record [storeEncryptionKeySecurely] builds is
    not the salt the key was derived from. Whenever the record is built,
    on any platform, the bytes [retrieveEncryptionKeySecurely] reads
    back from its [salt] field are the hexadecimal digits of the 16
    bytes drawn for the derivation, one byte per digit: 32 bytes, each
    below 16. *)
Theorem X24_stored_salt_is_its_digits
    (TextEncoder_encode : string -> list Z) (provider : Provider) (CryptoKey : Type)
    (subtle_deriveKey : list Z -> list Z -> completion CryptoKey)
    (subtle_exportKey : CryptoKey -> completion (list Z))
    (subtle_encrypt : CryptoKey -> list Z -> list Z -> completion (list Z))
    (random : nat -> nat -> Z) (Math_random_byte : nat -> Z)
    (toISOString : nat -> string)
    (masterKey password : string) (w w' : World) (secureData : SecureData) :
  buildSecureData TextEncoder_encode provider CryptoKey subtle_deriveKey subtle_exportKey
    subtle_encrypt random Math_random_byte toISOString masterKey password w
  = (Return secureData, w') ->
  let drawn := map (fun i => ToUint8 (Num (random (random_calls w) i))) (seq 0 16) in
  hexToBytes (sd_salt secureData) = Return (nibbles drawn)
  /\ length (nibbles drawn) = 32%nat
  /\ (forall b, In b (nibbles drawn) -> 0 <= b <= 15).
Proof.
  intros Hbuild salt0.
  assert (Hsalt : forall b, In b salt0 -> is_byte b).
  { intros b Hb. apply in_map_iff in Hb as [i [<- _]]. apply ToUint8_byte. }
  split; [|split].
  - revert Hbuild. unfold buildSecureData, bindM.
    destruct (deriveKeyFromPassword _ _ _ _ _ _ _ None w) as [[derived| |] w1] eqn:Ed;
      try discriminate.
    apply derived_salt_text in Ed. fold salt0 in Ed.
    match goal with
    | |- context [match ?m w1 with _ => _ end] => destruct (m w1) as [[encrypted| |] w2]
    end; try discriminate.
    unfold Date_toISOString, ret. intros [= <- _]. cbn [sd_salt]. rewrite Ed.
    fold (mangle (bytesToHex salt0)). rewrite mangle_bytesToHex by exact Hsalt.
    apply hexToBytes_bytesToHex. intros b Hb. now apply nibbles_bytes in Hb.
  - rewrite nibbles_length. unfold salt0. now rewrite length_map, length_seq.
  - intros b Hb. unfold nibbles in Hb. apply in_flat_map in Hb as [a [Ha Hin]].
    apply Hsalt in Ha. unfold is_byte in Ha.
    destruct Hin as [<-|[<-|[]]].
    + split; [apply Z.div_pos; lia|]. apply Z.lt_succ_r. apply Z.div_lt_upper_bound; lia.
    + pose proof (Z.mod_pos_bound a 16). lia.
Qed.

Lemma X24_witness :
  let drawn :=
    map (fun i => ToUint8 (Num (example.random (random_calls example.fresh_world) i)))
      (seq 0 16) in
  hexToBytes (sd_salt example.secureData) = Return (nibbles drawn)
  /\ length (nibbles drawn) = 32%nat
  /\ (forall b, In b (nibbles drawn) -> 0 <= b <= 15).
Proof.
  apply (X24_stored_salt_is_its_digits example.TextEncoder_encode example.provider
           example.CryptoKey example.subtle_deriveKey example.subtle_exportKey
           example.subtle_encrypt example.random example.Math_random_byte
           example.toISOString "deadbeef" "pw1" example.fresh_world
           example.world_after_build example.secureData).
  vm_compute. reflexivity.
Defined.

(** ** Symmetric encryption *)

Lemma parseHex_bytesToHex (bytes : list Z) :
  bytes <> [] -> (forall b, In b bytes -> is_byte b) ->
  symmetric.parseHex (bytesToHex bytes) = Return bytes.
Proof.
  intros Hne H. unfold symmetric.parseHex, match_dot12.
  rewrite dot12_chunks_bytesToHex by exact H.
  destruct bytes as [|b bytes]; [congruence|]. cbn [map]. f_equal.
  exact (parse_hex_pairs (b :: bytes) H).
Qed.

Lemma random_bytes_are_bytes (random : nat -> nat -> Z) call len b :
  In b (map (fun i => ToUint8 (Num (random call i))) (seq 0 len)) -> is_byte b.
Proof. intros H. apply in_map_iff in H as [i [<- _]]. apply ToUint8_byte. Qed.

Section Symmetric.

Import symmetric.

Variable Json : Type.
Variable JSON_stringify : Json -> completion (option string).
Variable JSON_parse : string -> completion Json.
Variable TextEncoder_encode : string -> list Z.
Variable TextDecoder_decode : list Z -> completion string.
Variable CryptoKey : Type.
Variable subtle_importKey : list Z -> completion CryptoKey.
Variable subtle_encrypt : CryptoKey -> list Z -> list Z -> completion (list Z).
Variable subtle_decrypt : CryptoKey -> list Z -> list Z -> completion (list Z).
Variable random : nat -> nat -> Z.

(** X25. Where [getRandomValues] exists, [generateEncryptionKey] returns
    the 64 hexadecimal characters of the 32 bytes it draws, and
    [importKey] reads exactly those bytes back from them before it hands
    them to [subtle.importKey]. *)
Theorem X25_generated_key_is_imported (provider : Provider) (w w' : World) :
  provider <> NoCrypto ->
  let key := map (fun i => ToUint8 (Num (random (random_calls w) i))) (seq 0 32) in
  generateEncryptionKey provider random w = (Return (bytesToHex key), count_random_call w)
  /\ String.length (bytesToHex key) = 64%nat
  /\ importKey provider CryptoKey subtle_importKey (bytesToHex key) w'
     = on_subtle provider (subtle_importKey key) w'.
Proof.
  intros Hp key.
  assert (Hk : forall b, In b key -> is_byte b) by apply random_bytes_are_bytes.
  split; [|split].
  - unfold generateEncryptionKey, bindM, crypto_getRandomValues.
    destruct provider; [congruence|reflexivity|reflexivity].
  - rewrite bytesToHex_length by exact Hk. unfold key. now rewrite length_map, length_seq.
  - unfold importKey, bindM, lift.
    rewrite parseHex_bytesToHex; [reflexivity|discriminate|exact Hk].
Qed.

(** X26. [decryptWithKey] undoes [encryptWithKey] under the same key
    text: the two hexadecimal fields carry the ciphertext and the
    initialization vector unchanged. The platform has to play its part
    (the key imports, [subtle.decrypt] inverts [subtle.encrypt] under
    that key and vector, the decoder inverts the encoder and
    [JSON.parse] inverts [JSON.stringify] on the data), and the
    ciphertext must not be empty. *)
Theorem X26_decrypt_after_encrypt
    (data : Json) (keyHex dataString : string) (keyData ciphertext : list Z)
    (key : CryptoKey) (w w' : World) :
  let iv := map (fun i => ToUint8 (Num (random (random_calls w) i))) (seq 0 12) in
  JSON_stringify data = Return (Some dataString) ->
  parseHex keyHex = Return keyData ->
  subtle_importKey keyData = Return key ->
  subtle_encrypt key iv (TextEncoder_encode dataString) = Return ciphertext ->
  ciphertext <> [] ->
  (forall b, In b ciphertext -> 0 <= b <= 255) ->
  subtle_decrypt key iv ciphertext = Return (TextEncoder_encode dataString) ->
  TextDecoder_decode (TextEncoder_encode dataString) = Return dataString ->
  JSON_parse dataString = Return data ->
  exists encrypted,
    encryptWithKey Json JSON_stringify TextEncoder_encode WebCrypto CryptoKey
      subtle_importKey subtle_encrypt random data keyHex w
    = (Return encrypted, count_random_call w)
    /\ decryptWithKey Json JSON_parse TextDecoder_decode WebCrypto CryptoKey
         subtle_importKey subtle_decrypt encrypted keyHex w'
       = (Resolved data, w').
Proof.
  intros iv Hstr Hhex Himp Henc Hne Hct Hdec Htext Hparse.
  assert (Hiv : forall b, In b iv -> is_byte b) by apply random_bytes_are_bytes.
  eexists. split.
  - unfold encryptWithKey, importKey, on_subtle, bindM, lift, ret, crypto_getRandomValues.
    rewrite Hstr, Hhex, Himp.
    change (default "" (Some dataString)) with dataString. fold iv. rewrite Henc. reflexivity.
  - unfold decryptWithKey, importKey, on_subtle, bindM, lift.
    cbn [encryptedData ivHex].
    rewrite (parseHex_bytesToHex ciphertext Hne Hct).
    rewrite (parseHex_bytesToHex iv) by (discriminate || exact Hiv).
    rewrite Hhex, Himp, Hdec, Htext, Hparse. reflexivity.
Qed.

(** X27. [decryptWithKey] rejects with its decryption error, the world
    untouched, whenever [encryptedData] or [iv] is the empty string:
    [match] finds nothing there and [null.map] throws, before any key
    is imported. *)
Theorem X27_decrypt_rejects_empty_fields
    (provider : Provider) (encrypted : Encrypted) (keyHex : string) (w : World) :
  encryptedData encrypted = "" \/ ivHex encrypted = "" ->
  decryptWithKey Json JSON_parse TextDecoder_decode provider CryptoKey
    subtle_importKey subtle_decrypt encrypted keyHex w
  = (Rejected DecryptFailed, w).
Proof.
  intros H. unfold decryptWithKey, bindM, lift.
  destruct H as [H|H]; rewrite H.
  - reflexivity.
  - change (parseHex "") with (@Throw (list Z) TypeError).
    unfold parseHex. destruct (match_dot12 (encryptedData encrypted)); reflexivity.
Qed.

End Symmetric.

Lemma X25_witness :
  let key :=
    map (fun i => ToUint8 (Num (example.random (random_calls example.fresh_world) i)))
      (seq 0 32) in
  symmetric.generateEncryptionKey WebCrypto example.random example.fresh_world
  = (Return (bytesToHex key), count_random_call example.fresh_world)
  /\ String.length (bytesToHex key) = 64%nat
  /\ symmetric.importKey WebCrypto (list Z) example.aes_importKey (bytesToHex key)
       example.fresh_world
     = symmetric.on_subtle WebCrypto (example.aes_importKey key) example.fresh_world.
Proof.
  apply (X25_generated_key_is_imported (list Z) example.aes_importKey example.random
           WebCrypto example.fresh_world example.fresh_world).
  discriminate.
Defined.

Lemma X26_witness :
  exists encrypted,
    symmetric.encryptWithKey example.Json example.JSON_stringify
      example.TextEncoder_encode WebCrypto (list Z) example.aes_importKey
      example.aes_encrypt example.random "hello" "00ff" example.fresh_world
    = (Return encrypted, count_random_call example.fresh_world)
    /\ symmetric.decryptWithKey example.Json example.JSON_parse example.decode_utf8
         WebCrypto (list Z) example.aes_importKey example.aes_decrypt encrypted "00ff"
         example.fresh_world
       = (Resolved "hello", example.fresh_world).
Proof.
  apply (X26_decrypt_after_encrypt example.Json example.JSON_stringify example.JSON_parse
           example.TextEncoder_encode example.decode_utf8 (list Z) example.aes_importKey
           example.aes_encrypt example.aes_decrypt example.random
           "hello" "00ff" "hello" [0; 255] [104; 101; 108; 108; 111; 12] [0; 255]
           example.fresh_world example.fresh_world).
  - reflexivity.
  - reflexivity.
  - reflexivity.
  - reflexivity.
  - discriminate.
  - intros b Hb. repeat (destruct Hb as [<-|Hb]; [lia|]). destruct Hb.
  - reflexivity.
  - reflexivity.
  - reflexivity.
Defined.

Lemma X27_witness :
  symmetric.decryptWithKey example.Json example.JSON_parse example.decode_utf8 WebCrypto
    (list Z) example.aes_importKey example.aes_decrypt
    {| symmetric.encryptedData := ""; symmetric.ivHex := "00" |} "00ff" example.fresh_world
  = (Rejected DecryptFailed, example.fresh_world).
Proof.
  apply (X27_decrypt_rejects_empty_fields example.Json example.JSON_parse
           example.decode_utf8 (list Z) example.aes_importKey example.aes_decrypt WebCrypto
           {| symmetric.encryptedData := ""; symmetric.ivHex := "00" |} "00ff"
           example.fresh_world).
  left. reflexivity.
Defined.
